(** * Simplex solver (app/utils/simplex.ts): shallow embedding and properties

    The TypeScript module comes in two variants with the same entry point
    [solveSimplex]:
    - the simple variant (five arguments, every constraint is [<=]), embedded
      in [Module Simple];
    - the extended variant (relation per constraint and a method selector,
      with the shared pivot engine [runSimplexLoop]), embedded in
      [Module Extended].

    JavaScript numbers that hold tableau entries are IEEE-754 binary64 values
    and are modelled by Rocq's primitive floats, so every arithmetic step and
    comparison of the source is the same operation here.  Numbers that hold
    counts are [nat]; numbers that hold stored indices (which may be the
    sentinel [-1]) are [Z].  Arrays are lists; an in-range write is stdpp's
    [<[i:=x]>], a read is a lookup.

    The handlers of the page that calls the simple variant (app/page.tsx)
    are embedded in [Module Page]. *)

From Stdlib Require Import ZArith Lia Floats String DecimalString.
From stdpp Require Import base list.

Set Default Proof Using "Type".

(** ** Numbers and arrays *)

(** The literals of the source.  [1e-9] and [1e-5] are not binary64 values;
    like the JavaScript parser we take the nearest one. *)
Definition tol9 : float := 0x1.12e0be826d695p-30%float.   (* 1e-9 *)
Definition tol5 : float := 0x1.4f8b588e368f1p-17%float.   (* 1e-5 *)
Definition bigM : float := 100000%float.                  (* M = 100000 *)

(** Reading an array of numbers.  Reading past the end of a JavaScript array
    gives [undefined], and every place of the source that consumes such a
    value does arithmetic or a numeric comparison with it, where [undefined]
    behaves as [NaN]; the read therefore defaults to [nan]. *)
Definition rd (l : list float) (j : nat) : float := default nan (l !! j).

(** The same read with a stored index, which may be negative. *)
Definition rdZ (l : list float) (j : Z) : float :=
  if (j <? 0)%Z then nan else rd l (Z.to_nat j).

(** [t[i]] for a row that the code knows to exist (the tableau has
    [m + 1] rows); the empty row stands for a missing one. *)
Definition rowAt (t : list (list float)) (i : nat) : list float := default [] (t !! i).

(** [t[i][j]] *)
Definition cell (t : list (list float)) (i j : nat) : float := rd (rowAt t i) j.

(** [t[i][j] = v] *)
Definition setCell (t : list (list float)) (i j : nat) (v : float) : list (list float) :=
  <[i := <[j := v]> (rowAt t i)]> t.

(** [a[j] = v] with a stored index: a negative index adds a property to the
    array object and leaves its elements alone. *)
Definition setZ (l : list float) (j : Z) (v : float) : list float :=
  if (j <? 0)%Z then l else <[Z.to_nat j := v]> l.

(** [basicVars[i]] with the [undefined] of a missing entry read as [-1]. *)
Definition basicAt (b : list Z) (i : nat) : Z := default (-1)%Z (b !! i).

(** Template-literal printing of an integer. *)
Definition showZ (z : Z) : string := NilZero.string_of_int (Z.to_int z).

(** [names[i]] inside a template literal. *)
Definition nameAt (names : list string) (i : Z) : string :=
  if (i <? 0)%Z then "undefined"%string
  else default "undefined"%string (names !! Z.to_nat i).

(** ** Data model *)

Inductive OptType := Max | Min.

Inductive Status := Optimal | Unbounded | Infeasible.

Record SimplexStep := mkStep {
  tableau : list (list float);
  enteringVar : Z;
  leavingVar : Z;
  pivotRow : Z;
  pivotCol : Z;
  basicVars : list Z;
  description : string
}.

Record SimplexResult := mkResult {
  steps : list SimplexStep;
  finalTableau : list (list float);
  solution : list float;
  optimalValue : float;
  status : Status;
  variableNames : list string;
  finalBasicVars : list Z
}.

(** The mutable state a solve threads through its pivot loop. *)
Record State := mkState {
  stTableau : list (list float);
  stBasic : list Z;
  stSteps : list SimplexStep
}.

(** What one pass through the loop body does. *)
Inductive IterOutcome :=
| IterOptimal
| IterUnbounded
| IterPivot (st' : State).

(** [c = [...objectiveCoeffs]; if (type === 'min') c = c.map(v => -v)] *)
Definition costs (type : OptType) (objectiveCoeffs : list float) : list float :=
  match type with
  | Min => map PrimFloat.opp objectiveCoeffs
  | Max => objectiveCoeffs
  end.

(** [for (i = 0; i < count; i++) names.push(`${prefix}${i + 1}`)] *)
Definition pushNames (prefix : string) (count : nat) (names : list string) : list string :=
  fold_left (fun acc i => acc ++ [(prefix ++ showZ (Z.of_nat i + 1))%string]) (seq 0 count) names.

(** *** The two scans and the pivot, shared by both variants

    The variants differ only in the thresholds: the simple variant starts the
    column scan at [0] and accepts a coefficient [> 0]; the extended variant
    starts at [-1e-9] and accepts a value [> 1e-9]. *)

(** [let pivotCol = -1; let minValue = thr;
     for (j = 0; j < totalCols - 1; j++)
       if (t[0][j] < minValue) { minValue = t[0][j]; pivotCol = j; }] *)
Definition scanCol (row0 : list float) (acc : float * Z) (j : nat) : float * Z :=
  if (rd row0 j <? acc.1)%float then (rd row0 j, Z.of_nat j) else acc.

Definition findPivotCol (thr : float) (t : list (list float)) (totalCols : nat) : Z :=
  (fold_left (scanCol (rowAt t 0)) (seq 0 (totalCols - 1)) (thr, (-1)%Z)).2.

(** [let pivotRow = -1; let minRatio = Infinity;
     for (i = 1; i <= m; i++) {
       const rhs = t[i][totalCols - 1]; const coeff = t[i][pivotCol];
       if (coeff > thr) { const ratio = rhs / coeff;
         if (ratio < minRatio) { minRatio = ratio; pivotRow = i; } } }] *)
Definition scanRow (thr : float) (t : list (list float)) (totalCols pivotCol : nat)
    (acc : float * Z) (i : nat) : float * Z :=
  let rhs := cell t i (totalCols - 1) in
  let coeff := cell t i pivotCol in
  if (thr <? coeff)%float then
    let ratio := (rhs / coeff)%float in
    if (ratio <? acc.1)%float then (ratio, Z.of_nat i) else acc
  else acc.

Definition findPivotRow (thr : float) (t : list (list float)) (m totalCols pivotCol : nat) : Z :=
  (fold_left (scanRow thr t totalCols pivotCol) (seq 1 m) (infinity, (-1)%Z)).2.

(** [for (j = 0; j < totalCols; j++) t[pivotRow][j] /= pivotElement] *)
Definition normalizeRow (t : list (list float)) (totalCols pivotRow : nat) (pivotElement : float)
    : list (list float) :=
  fold_left (fun t j => setCell t pivotRow j (cell t pivotRow j / pivotElement)%float)
            (seq 0 totalCols) t.

(** [const factor = t[i][pivotCol];
     for (j = 0; j < totalCols; j++) t[i][j] -= factor * t[pivotRow][j]] *)
Definition subtractRow (totalCols pivotRow i : nat) (factor : float) (t : list (list float))
    : list (list float) :=
  fold_left (fun t j => setCell t i j (cell t i j - factor * cell t pivotRow j)%float)
            (seq 0 totalCols) t.

(** [for (i = 0; i < numRows; i++) if (i !== pivotRow) { ... }] *)
Definition eliminateRows (t : list (list float)) (numRows totalCols pivotRow pivotCol : nat)
    : list (list float) :=
  fold_left (fun t i =>
               if decide (i = pivotRow) then t
               else subtractRow totalCols pivotRow i (cell t i pivotCol) t)
            (seq 0 numRows) t.

(** The Gauss-Jordan pivot on the tableau. *)
Definition pivotTableau (t : list (list float)) (numRows totalCols pivotRow pivotCol : nat)
    : list (list float) :=
  let pivotElement := cell t pivotRow pivotCol in
  eliminateRows (normalizeRow t totalCols pivotRow pivotElement)
                numRows totalCols pivotRow pivotCol.

(** Result extraction, the same code in both variants:
    [solution = new Array(n).fill(0);
     for (i = 0; i < m; i++) { v = basicVars[i];
       if (v < n) solution[v] = t[i + 1][totalCols - 1]; }] *)
Definition extractSolution (t : list (list float)) (basic : list Z) (n m totalCols : nat)
    : list float :=
  fold_left (fun sol i =>
               let v := basicAt basic i in
               if (v <? Z.of_nat n)%Z then setZ sol v (cell t (i + 1) (totalCols - 1)) else sol)
            (seq 0 m) (replicate n 0%float).

(** [optimalValue = t[0][totalCols - 1]; if (type === 'min') optimalValue = -optimalValue] *)
Definition extractValue (type : OptType) (t : list (list float)) (totalCols : nat) : float :=
  let v := cell t 0 (totalCols - 1) in
  match type with Min => (- v)%float | Max => v end.

(** The record returned on the Unbounded and Infeasible exits. *)
Definition abortResult (s : Status) (names : list string) (st : State) : SimplexResult :=
  mkResult (stSteps st) (stTableau st) [] 0%float s names (stBasic st).

(** The record returned after extraction. *)
Definition optimalResult (type : OptType) (n m totalCols : nat) (names : list string)
    (st : State) : SimplexResult :=
  mkResult (stSteps st) (stTableau st)
           (extractSolution (stTableau st) (stBasic st) n m totalCols)
           (extractValue type (stTableau st) totalCols)
           Optimal names (stBasic st).

(** ** The simple variant *)

Module Simple.

Section Solve.
Variables (type : OptType) (numVars numConstraints : nat).
Variables (objectiveCoeffs : list float) (constraints : list (list float)).

Let n := numVars.
Let m := numConstraints.

Definition totalCols : nat := n + m + 1.

(** [objRow = new Array(totalCols).fill(0); for (i < n) objRow[i] = -c[i]] *)
Definition objRow : list float :=
  let c := costs type objectiveCoeffs in
  fold_left (fun r i => <[i := (- rd c i)%float]> r) (seq 0 n) (replicate totalCols 0%float).

(** One constraint row.  [constraints[i]] is dereferenced, so a missing row
    is a TypeError: [None]. *)
Definition constraintRow (i : nat) : option (list float) :=
  ci ← constraints !! i;
  let r0 := replicate totalCols 0%float in
  let r1 := fold_left (fun r j => <[j := rd ci j]> r) (seq 0 n) r0 in
  let r2 := <[n + i := 1%float]> r1 in
  Some (<[totalCols - 1 := rd ci n]> r2).

(** The tableau and the initial basis: [tableau.push(objRow)], then one
    row and one [basicVars.push(n + i)] per constraint. *)
Definition build : option State :=
  fold_left (fun acc i =>
               st ← acc;
               r ← constraintRow i;
               Some (mkState (stTableau st ++ [r]) (stBasic st ++ [Z.of_nat (n + i)]) []))
            (seq 0 m) (Some (mkState [objRow] [] [])).

Definition names : list string := pushNames "s" m (pushNames "x" n []).

Definition maxIterations : nat := 100.

(** The description of a step; it reads [basicVars] before the update. *)
Definition describe (basic : list Z) (pr pc : Z) : string :=
  ("Pivot on row " ++ showZ pr ++ ", col " ++ showZ pc ++
   " (Enter " ++ nameAt names pc ++
   ", Leave " ++ nameAt names (basicAt basic (Z.to_nat (pr - 1))) ++ ")")%string.

(** One pass through the body of [while (iter < maxIterations)]. *)
Definition loopBody (st : State) : IterOutcome :=
  let t := stTableau st in
  let pc := findPivotCol 0%float t totalCols in
  if (pc =? -1)%Z then IterOptimal
  else
    let pr := findPivotRow 0%float t m totalCols (Z.to_nat pc) in
    if (pr =? -1)%Z then IterUnbounded
    else
      let step := mkStep t pc pr pr pc (stBasic st) (describe (stBasic st) pr pc) in
      let basic' := <[Z.to_nat (pr - 1) := pc]> (stBasic st) in
      let t' := pivotTableau t (m + 1) totalCols (Z.to_nat pr) (Z.to_nat pc) in
      IterPivot (mkState t' basic' (stSteps st ++ [step])).

(** The loop, with [fuel = maxIterations - iter].  The flag is [true] when
    the loop was left through the Unbounded return. *)
Fixpoint loop (fuel : nat) (st : State) : State * bool :=
  match fuel with
  | O => (st, false)
  | S fuel' =>
      match loopBody st with
      | IterOptimal => (st, false)
      | IterUnbounded => (st, true)
      | IterPivot st' => loop fuel' st'
      end
  end.

Definition finish (r : State * bool) : SimplexResult :=
  if r.2 then abortResult Unbounded names r.1
  else optimalResult type n m totalCols names r.1.

Definition solveSimplex : option SimplexResult :=
  st0 ← build;
  Some (finish (loop maxIterations st0)).

End Solve.

End Simple.

(** The example of the documentation:
    maximize [3 x1 + 5 x2] subject to [x1 <= 4], [2 x2 <= 12], [3 x1 + 2 x2 <= 18]. *)
Definition exampleObjective : list float := [3; 5]%float.
Definition exampleConstraints : list (list float) :=
  [[1; 0; 4]; [0; 2; 12]; [3; 2; 18]]%float.

(** ** The extended variant *)

Module Extended.

Inductive Method := Standard | BigM | TwoPhase.

(** The state of the loop that fills the constraint rows. *)
Record FillState := mkFill {
  fTableau : list (list float);
  fBasic : list Z;
  fSlack : nat;      (* currentSlackSurplusIndex *)
  fArt : nat         (* currentArtificialIndex *)
}.

Section Solve.
Variables (type : OptType) (numVars numConstraints : nat).
Variables (objectiveCoeffs : list float) (constraints : list (list float)).
Variables (signs : list string) (method : Method).

(** [signs[i] === s]; a missing entry is [undefined] and equals no string. *)
Definition signIs (i : nat) (s : string) : bool :=
  match signs !! i with
  | Some x => String.eqb x s
  | None => false
  end.

(** The first pass over the relations, which only counts columns:
    [(slackSurplusCount, artificialCount)]. *)
Definition countVars : nat * nat :=
  fold_left (fun acc i =>
               if signIs i "<=" then (S acc.1, acc.2)
               else if signIs i ">=" then (S acc.1, S acc.2)
               else (acc.1, S acc.2))
            (seq 0 numConstraints) (0, 0).

Definition slackSurplusCount : nat := countVars.1.
Definition artificialCount : nat := countVars.2.

Definition isStandard : bool :=
  match method with Standard => true | _ => false end.

(** [method === 'bigM' || method === 'twoPhase'] *)
Definition useArtificials : bool :=
  match method with BigM | TwoPhase => true | Standard => false end.

Definition totalCols : nat :=
  numVars + slackSurplusCount + (if useArtificials then artificialCount else 0) + 1.

Definition names : list string :=
  let xs := pushNames "x" numVars [] in
  let ss := pushNames "s" slackSurplusCount xs in
  if useArtificials then pushNames "a" artificialCount ss else ss.

Definition numRows : nat := numConstraints + 1.

(** [for (j = 0; j < totalCols; j++) t[rowIdx][j] *= -1] *)
Definition negateRow (t : list (list float)) (rowIdx : nat) : list (list float) :=
  fold_left (fun t j => setCell t rowIdx j (cell t rowIdx j * -1)%float) (seq 0 totalCols) t.

(** The body of the loop that fills constraint row [i + 1].
    [constraints[i]] is dereferenced, so a missing row is a TypeError. *)
Definition fillRow (fs : FillState) (i : nat) : option FillState :=
  ci ← constraints !! i;
  let rowIdx := i + 1 in
  let t1 := fold_left (fun t j => setCell t rowIdx j (rd ci j)) (seq 0 numVars) (fTableau fs) in
  let t2 := setCell t1 rowIdx (totalCols - 1) (rd ci numVars) in
  if isStandard && signIs i ">=" then
    let t3 := negateRow t2 rowIdx in
    Some (mkFill (setCell t3 rowIdx (fSlack fs) 1%float)
                 (<[i := Z.of_nat (fSlack fs)]> (fBasic fs))
                 (S (fSlack fs)) (fArt fs))
  else if signIs i "<=" then
    Some (mkFill (setCell t2 rowIdx (fSlack fs) 1%float)
                 (<[i := Z.of_nat (fSlack fs)]> (fBasic fs))
                 (S (fSlack fs)) (fArt fs))
  else if signIs i ">=" || signIs i "=" then
    let t3 := if signIs i ">=" then setCell t2 rowIdx (fSlack fs) (-1)%float else t2 in
    let slack' := if signIs i ">=" then S (fSlack fs) else fSlack fs in
    if useArtificials then
      Some (mkFill (setCell t3 rowIdx (fArt fs) 1%float)
                   (<[i := Z.of_nat (fArt fs)]> (fBasic fs))
                   slack' (S (fArt fs)))
    else Some (mkFill t3 (fBasic fs) slack' (fArt fs))
  else Some (mkFill t2 (fBasic fs) (fSlack fs) (fArt fs)).

(** All cells [0], every [basicVars] entry the sentinel [-1], then the
    rows are filled in order. *)
Definition fillConstraints : option FillState :=
  fold_left (fun acc i => fs ← acc; fillRow fs i)
            (seq 0 numConstraints)
            (Some (mkFill (replicate numRows (replicate totalCols 0%float))
                          (replicate numConstraints (-1)%Z)
                          numVars (numVars + slackSurplusCount))).

(** [for (j = 0; j < numVars; j++) t[0][j] = -c[j]] *)
Definition writeCosts (t : list (list float)) : list (list float) :=
  let c := costs type objectiveCoeffs in
  fold_left (fun t j => setCell t 0 j (- rd c j)%float) (seq 0 numVars) t.

(** [for (k = numVars + slackSurplusCount; k < totalCols - 1; k++) t[0][k] = v] *)
Definition writeArtificials (v : float) (t : list (list float)) : list (list float) :=
  let first := numVars + slackSurplusCount in
  fold_left (fun t k => setCell t 0 k v) (seq first (totalCols - 1 - first)) t.

Definition initObjective (t : list (list float)) : list (list float) :=
  match method with
  | TwoPhase => writeArtificials 1%float t
  | BigM => writeArtificials bigM (writeCosts t)
  | Standard => writeCosts t
  end.

(** [for (j = 0; j < totalCols; j++) t[0][j] -= coeff * t[i + 1][j]] *)
Definition subtractFromObjective (coeff : float) (i : nat) (t : list (list float))
    : list (list float) :=
  fold_left (fun t j => setCell t 0 j (cell t 0 j - coeff * cell t (i + 1) j)%float)
            (seq 0 totalCols) t.

(** The canonicalisation before the first iteration ([coeffInObj !== 0]). *)
Definition eliminateBasic (basic : list Z) (t : list (list float)) : list (list float) :=
  fold_left (fun t i =>
               let coeffInObj := rdZ (rowAt t 0) (basicAt basic i) in
               if negb (coeffInObj =? 0)%float then subtractFromObjective coeffInObj i t
               else t)
            (seq 0 numConstraints) t.

(** The tableau and basis handed to the first run of the engine. *)
Definition build : option State :=
  fs ← fillConstraints;
  let t := initObjective (fTableau fs) in
  let t' := if useArtificials then eliminateBasic (fBasic fs) t else t in
  Some (mkState t' (fBasic fs) []).

Definition maxIterations : nat := 50.

Definition describe (iterStart : Z) (it : nat) (pr pc : Z) : string :=
  ("Iter " ++ showZ (iterStart + Z.of_nat it + 1) ++
   ": Pivot (" ++ showZ pr ++ ", " ++ showZ pc ++ ")")%string.

(** One pass through the body of [while (it < maxIterations)] in
    [runSimplexLoop]. *)
Definition loopBody (iterStart : Z) (it : nat) (st : State) : IterOutcome :=
  let t := stTableau st in
  let pc := findPivotCol (- tol9)%float t totalCols in
  if (pc =? -1)%Z then IterOptimal
  else
    let pr := findPivotRow tol9 t numConstraints totalCols (Z.to_nat pc) in
    if (pr =? -1)%Z then IterUnbounded
    else
      let basic' := <[Z.to_nat (pr - 1) := pc]> (stBasic st) in
      let step := mkStep t pc pr pr pc basic' (describe iterStart it pr pc) in
      let t' := pivotTableau t numRows totalCols (Z.to_nat pr) (Z.to_nat pc) in
      IterPivot (mkState t' basic' (stSteps st ++ [step])).

(** The loop with [fuel = maxIterations - it]; the number is what
    [runSimplexLoop] returns: [-1] for Unbounded, else [it]. *)
Fixpoint runLoop (fuel it : nat) (iterStart : Z) (st : State) : State * Z :=
  match fuel with
  | O => (st, Z.of_nat it)
  | S fuel' =>
      match loopBody iterStart it st with
      | IterOptimal => (st, Z.of_nat it)
      | IterUnbounded => (st, (-1)%Z)
      | IterPivot st' => runLoop fuel' (S it) iterStart st'
      end
  end.

Definition runSimplexLoop (st : State) (iterStart : Z) : State * Z :=
  runLoop maxIterations 0 iterStart st.

(** The rebuilt and re-canonicalised objective row of phase 2
    ([Math.abs(coeff) > 1e-9]). *)
Definition preparePhase2 (basic : list Z) (t : list (list float)) : list (list float) :=
  let t1 := fold_left (fun t j => setCell t 0 j 0%float) (seq 0 totalCols) t in
  let t2 := writeCosts t1 in
  fold_left (fun t i =>
               let coeff := rdZ (rowAt t 0) (basicAt basic i) in
               if (tol9 <? abs coeff)%float then subtractFromObjective coeff i t else t)
            (seq 0 numConstraints) t2.

Definition phase2Start (st1 : State) : State :=
  mkState (preparePhase2 (stBasic st1) (stTableau st1)) (stBasic st1) (stSteps st1).

(** [Math.abs(phase1Val) > 1e-5] *)
Definition phase1Infeasible (st1 : State) : bool :=
  (tol5 <? abs (cell (stTableau st1) 0 (totalCols - 1)))%float.

Definition extract (st : State) : SimplexResult :=
  optimalResult type numVars numConstraints totalCols names st.

(** Everything after the tableau is built. *)
Definition coordinate (st0 : State) : SimplexResult :=
  let r1 := runSimplexLoop st0 0 in
  match method with
  | TwoPhase =>
      if phase1Infeasible r1.1 then abortResult Infeasible names r1.1
      else
        let r2 := runSimplexLoop (phase2Start r1.1) r1.2 in
        if (r2.2 =? -1)%Z then abortResult Unbounded names r2.1
        else extract r2.1
  | _ =>
      if (r1.2 =? -1)%Z then abortResult Unbounded names r1.1
      else extract r1.1
  end.

Definition solveSimplex : option SimplexResult :=
  st0 ← build;
  Some (coordinate st0).

End Solve.

End Extended.


(** ** Vocabulary of the statements *)

(** The scan [for (i ...) if (val i < best) { best = val i; idx = i; }]
    over the candidates [i] that have a value; both [scanCol] and [scanRow]
    are instances. *)
Definition scanMin (val : nat -> option float) (acc : float * Z) (i : nat) : float * Z :=
  match val i with
  | Some v => if (v <? acc.1)%float then (v, Z.of_nat i) else acc
  | None => acc
  end.

(** Candidate [i] of the range [[a, a + n)] is the first one that carries
    the least value, and that value is below [bound]. *)
Definition firstLeast (val : nat -> option float) (bound : float) (a n i : nat) : Prop :=
  a <= i < a + n /\
  exists v, val i = Some v /\ (v <? bound)%float = true /\
    (forall k x, a <= k < a + n -> val k = Some x -> (x <? v)%float = false) /\
    (forall k x, a <= k < i -> val k = Some x -> (x =? v)%float = false).

(** No candidate of the range has a value below [bound]. *)
Definition noneBelow (val : nat -> option float) (bound : float) (a n : nat) : Prop :=
  forall k x, a <= k < a + n -> val k = Some x -> (x <? bound)%float = false.

(** The candidates of the column scan: every column but the last, with its
    row-0 entry. *)
Definition colValue (t : list (list float)) (j : nat) : option float :=
  Some (cell t 0 j).

(** The candidates of the ratio test: the rows whose pivot-column entry
    exceeds [thr], with the ratio [rhs / entry]. *)
Definition rowValue (thr : float) (t : list (list float)) (totalCols pivotCol : nat)
    (i : nat) : option float :=
  if (thr <? cell t i pivotCol)%float
  then Some (cell t i (totalCols - 1) / cell t i pivotCol)%float
  else None.

(** What the accumulator of the scan means after the candidates
    [[a, a + n)] have been visited. *)
Definition scanInv (val : nat -> option float) (bound : float) (a n : nat)
    (acc : float * Z) : Prop :=
  (acc = (bound, (-1)%Z) /\ noneBelow val bound a n) \/
  (exists i, acc.2 = Z.of_nat i /\ val i = Some acc.1 /\ firstLeast val bound a n i).

(** [k] pivoting iterations in a row, the first one being iteration number
    [it] of its loop; [None] when one of them does not pivot. *)
Fixpoint afterPivots (body : nat -> State -> IterOutcome) (it k : nat) (st : State)
    : option State :=
  match k with
  | O => Some st
  | S k' =>
      match body it st with
      | IterPivot st' => afterPivots body (S it) k' st'
      | _ => None
      end
  end.

(** The loop bodies of the two variants as iteration-numbered bodies. *)
Definition simpleBody (n m : nat) : nat -> State -> IterOutcome :=
  fun _ => Simple.loopBody n m.

Definition extendedBody (n m : nat) (signs : list string) (method : Extended.Method)
    (iterStart : Z) : nat -> State -> IterOutcome :=
  Extended.loopBody n m signs method iterStart.

(** [r] is what some solve with [m] constraints returns, in either variant. *)
Definition producedBy (m : nat) (r : SimplexResult) : Prop :=
  (exists type n c cons, Simple.solveSimplex type n m c cons = Some r) \/
  (exists type n c cons signs method,
      Extended.solveSimplex type n m c cons signs method = Some r).

(** The step a pivot on row [i], column [j] records in the simple variant,
    and the state it leaves. *)
Definition simpleStep (n m : nat) (st : State) (i j : nat) : SimplexStep :=
  mkStep (stTableau st) (Z.of_nat j) (Z.of_nat i) (Z.of_nat i) (Z.of_nat j) (stBasic st)
         (Simple.describe n m (stBasic st) (Z.of_nat i) (Z.of_nat j)).

Definition simpleNext (n m : nat) (st : State) (i j : nat) : State :=
  mkState (pivotTableau (stTableau st) (m + 1) (Simple.totalCols n m) i j)
          (<[i - 1 := Z.of_nat j]> (stBasic st))
          (stSteps st ++ [simpleStep n m st i j]).

(** The same for the engine of the extended variant. *)
Definition extendedStep (iterStart : Z) (it : nat) (st : State) (i j : nat) : SimplexStep :=
  mkStep (stTableau st) (Z.of_nat j) (Z.of_nat i) (Z.of_nat i) (Z.of_nat j)
         (<[i - 1 := Z.of_nat j]> (stBasic st))
         (Extended.describe iterStart it (Z.of_nat i) (Z.of_nat j)).

Definition extendedNext (n m : nat) (signs : list string) (method : Extended.Method)
    (iterStart : Z) (it : nat) (st : State) (i j : nat) : State :=
  mkState (pivotTableau (stTableau st) (Extended.numRows m)
                        (Extended.totalCols n m signs method) i j)
          (<[i - 1 := Z.of_nat j]> (stBasic st))
          (stSteps st ++ [extendedStep iterStart it st i j]).

(** The two engines, so that a statement can speak of an iteration of
    either variant. *)
Inductive Engine :=
| SimpleEngine (n m : nat)
| ExtendedEngine (n m : nat) (signs : list string) (method : Extended.Method)
                 (iterStart : Z) (it : nat).

Definition engineBody (e : Engine) : State -> IterOutcome :=
  match e with
  | SimpleEngine n m => Simple.loopBody n m
  | ExtendedEngine n m signs method iterStart it =>
      Extended.loopBody n m signs method iterStart it
  end.

(** The number of constraint rows and of columns of the engine's tableau. *)
Definition engineRows (e : Engine) : nat :=
  match e with
  | SimpleEngine _ m => m
  | ExtendedEngine _ m _ _ _ _ => m
  end.

Definition engineCols (e : Engine) : nat :=
  match e with
  | SimpleEngine n m => Simple.totalCols n m
  | ExtendedEngine n m signs method _ _ => Extended.totalCols n m signs method
  end.

(** The value a row-0 entry must be below to enter: [minValue = 0] in the
    simple variant, [minVal = -1e-9] in the extended one. *)
Definition enterBound (e : Engine) : float :=
  match e with
  | SimpleEngine _ _ => 0%float
  | ExtendedEngine _ _ _ _ _ _ => (- tol9)%float
  end.

(** The value a pivot-column entry must exceed to take part in the ratio
    test: [coeff > 0] in the simple variant, [val > 1e-9] in the extended. *)
Definition ratioBound (e : Engine) : float :=
  match e with
  | SimpleEngine _ _ => 0%float
  | ExtendedEngine _ _ _ _ _ _ => tol9
  end.

(** Inputs used in the examples below. *)
Definition exampleSigns : list string := ["<="; "<="; "<="]%string.

Definition tenthOfTol : float := 0x1.b7cdfd9d7bdbbp-34%float.   (* 1e-10 *)

(** The relation the documentation states between the results of
    [minimize c] and [maximize -c]. *)
Definition dualResults (rmin rmax : option SimplexResult) : Prop :=
  match rmin, rmax with
  | Some a, Some b =>
      status a = status b /\ solution a = solution b /\ steps a = steps b /\
      finalTableau a = finalTableau b /\ finalBasicVars a = finalBasicVars b /\
      (status a = Optimal ->
         optimalValue a = (- optimalValue b)%float /\
         optimalValue b = (- optimalValue a)%float) /\
      (status a <> Optimal ->
         optimalValue a = 0%float /\ optimalValue b = 0%float /\
         (optimalValue a =? - optimalValue b)%float = true)
  | None, None => True
  | _, _ => False
  end.

(** The recorded bases of a step list form the history of the basis: each
    step records the basis [b0] it starts from, and the next basis is [b0]
    with the pivot row's entry overwritten by the pivot column. *)
Fixpoint recordsBasisBefore (b0 : list Z) (ss : list SimplexStep) (bfinal : list Z) : Prop :=
  match ss with
  | [] => bfinal = b0
  | s :: ss' =>
      basicVars s = b0 /\
      recordsBasisBefore (<[Z.to_nat (pivotRow s - 1) := pivotCol s]> b0) ss' bfinal
  end.

(** What the simple variant keeps true of its step list. *)
Definition simpleTrace (n m : nat) (b0 : list Z) (st : State) : Prop :=
  recordsBasisBefore b0 (stSteps st) (stBasic st) /\
  Forall (fun s => description s =
                   Simple.describe n m (basicVars s) (pivotRow s) (pivotCol s))
         (stSteps st).

(** The inputs on which the phase-1 engine of the two-phase method stops
    with the Unbounded outcome: [1e-9 x1 = b] twice. *)
Definition tinyRows (b : float) : list (list float) := [[tol9; b]; [tol9; b]].
Definition twoEqualities : list string := ["="; "="]%string.

(** What every recorded step satisfies, for [m] constraint rows and
    [cols] columns. *)
Definition stepShape (m cols : nat) (s : SimplexStep) : Prop :=
  leavingVar s = pivotRow s /\ enteringVar s = pivotCol s /\
  (1 <= pivotRow s <= Z.of_nat m)%Z /\ (0 <= pivotCol s < Z.of_nat cols - 1)%Z.

(** The result of the documented example in the simple variant, and its
    first step. *)
Definition emptyResult : SimplexResult := mkResult [] [] [] 0%float Optimal [] [].

Definition exampleResult : SimplexResult :=
  default emptyResult (Simple.solveSimplex Max 2 3 exampleObjective exampleConstraints).

Definition exampleStep : SimplexStep :=
  default (mkStep [] 0 0 0 0 [] "") (head (steps exampleResult)).

(** The state the documented example starts from in the simple variant. *)
Definition exampleState : State :=
  default (mkState [] [] []) (Simple.build Max 2 3 exampleObjective exampleConstraints).

(** What a solve returns when the iteration at [st], reached within the cap,
    finds no leaving row: the paths of the code that hand the Unbounded
    outcome of the engine on to the caller.  For the two-phase method this
    is the second run of the engine only. *)
Definition unboundedExit (e : Engine) (st : State) : Prop :=
  match e with
  | SimpleEngine n m =>
      forall type c cons st0 k,
        Simple.build type n m c cons = Some st0 ->
        afterPivots (simpleBody n m) 0 k st0 = Some st ->
        k < 100 ->
        Simple.solveSimplex type n m c cons =
          Some (mkResult (stSteps st) (stTableau st) [] 0%float Unbounded
                         (Simple.names n m) (stBasic st))
  | ExtendedEngine n m signs method iterStart it =>
      forall type c cons st0,
        Extended.build type n m c cons signs method = Some st0 ->
        it < 50 ->
        let r1 := Extended.runSimplexLoop n m signs method st0 0 in
        let start :=
          match method with
          | Extended.TwoPhase => Extended.phase2Start type n m c signs method r1.1
          | _ => st0
          end in
        match method with
        | Extended.TwoPhase =>
            iterStart = r1.2 /\ Extended.phase1Infeasible n m signs method r1.1 = false
        | _ => iterStart = 0%Z
        end ->
        afterPivots (extendedBody n m signs method iterStart) 0 it start = Some st ->
        Extended.solveSimplex type n m c cons signs method =
          Some (mkResult (stSteps st) (stTableau st) [] 0%float Unbounded
                         (Extended.names n m signs method) (stBasic st))
  end.


(** A tableau of [rows] rows with [cols] entries each. *)
Definition shaped (rows cols : nat) (t : list (list float)) : Prop :=
  length t = rows /\ forall i, i < rows -> length (rowAt t i) = cols.

(** *** The constraint rows in closed form

    What the loops that fill the constraint rows leave in the tableau,
    written as lists. *)

(** [[c_0; ...; c_(n-1); 0; ...; 0; rhs]]: a row of [cols] zeros with the
    coefficients of constraint [ci] and its right-hand side written in. *)
Definition baseRow (n cols : nat) (ci : list float) : list float :=
  <[cols - 1 := rd ci n]> (map (rd ci) (seq 0 n) ++ replicate (cols - n) 0%float).

(** Multiplication of a whole row by [-1]. *)
Definition negated (row : list float) : list float :=
  map (fun x => (x * -1)%float) row.

(** The number of slack/surplus columns, and of artificial columns, handed
    out to the constraints before constraint [i]. *)
Definition slackBefore (signs : list string) (i : nat) : nat :=
  length (List.filter
            (fun k => Extended.signIs signs k "<=" || Extended.signIs signs k ">=")
            (seq 0 i)).

Definition artBefore (signs : list string) (i : nat) : nat :=
  length (List.filter
            (fun k => negb (Extended.signIs signs k "<=") &&
                      (Extended.signIs signs k ">=" || Extended.signIs signs k "="))
            (seq 0 i)).

(** The column of the slack/surplus variable of constraint [i], and of its
    artificial variable. *)
Definition slackCol (n : nat) (signs : list string) (i : nat) : nat :=
  n + slackBefore signs i.

Definition artCol (n m : nat) (signs : list string) (i : nat) : nat :=
  n + Extended.slackSurplusCount m signs + artBefore signs i.

(** Row [i + 1] of the extended variant's tableau as [fillRow] leaves it. *)
Definition filledRow (n m : nat) (signs : list string) (method : Extended.Method)
    (i : nat) (ci : list float) : list float :=
  let cols := Extended.totalCols n m signs method in
  let base := baseRow n cols ci in
  if Extended.isStandard method && Extended.signIs signs i ">=" then
    <[slackCol n signs i := 1%float]> (negated base)
  else if Extended.signIs signs i "<=" then
    <[slackCol n signs i := 1%float]> base
  else if Extended.signIs signs i ">=" || Extended.signIs signs i "=" then
    let r := if Extended.signIs signs i ">="
             then <[slackCol n signs i := (-1)%float]> base else base in
    if Extended.useArtificials method then <[artCol n m signs i := 1%float]> r else r
  else base.

(** The entry of [basicVars] that [fillRow] leaves for constraint [i]. *)
Definition filledBasic (n m : nat) (signs : list string) (method : Extended.Method)
    (i : nat) : Z :=
  if Extended.isStandard method && Extended.signIs signs i ">=" then
    Z.of_nat (slackCol n signs i)
  else if Extended.signIs signs i "<=" then
    Z.of_nat (slackCol n signs i)
  else if Extended.signIs signs i ">=" || Extended.signIs signs i "=" then
    if Extended.useArtificials method then Z.of_nat (artCol n m signs i) else (-1)%Z
  else (-1)%Z.

(** What the filling loop keeps true after [k] constraints. *)
Definition fillInv (n m : nat) (cons : list (list float)) (signs : list string)
    (method : Extended.Method) (k : nat) (fs : Extended.FillState) : Prop :=
  let cols := Extended.totalCols n m signs method in
  length (Extended.fTableau fs) = Extended.numRows m /\
  length (Extended.fBasic fs) = m /\
  Extended.fSlack fs = slackCol n signs k /\
  Extended.fArt fs =
    (if Extended.useArtificials method then artCol n m signs k
     else n + Extended.slackSurplusCount m signs) /\
  rowAt (Extended.fTableau fs) 0 = replicate cols 0%float /\
  (forall i, i < k -> exists ci, cons !! i = Some ci /\
     rowAt (Extended.fTableau fs) (i + 1) = filledRow n m signs method i ci /\
     Extended.fBasic fs !! i = Some (filledBasic n m signs method i)) /\
  (forall i, k <= i < m ->
     rowAt (Extended.fTableau fs) (i + 1) = replicate cols 0%float /\
     Extended.fBasic fs !! i = Some (-1)%Z).

(** The number of constraints before [i] whose relation is not [<=]; the
    counting loop reserves an artificial column for each of them. *)
Definition notLeBefore (signs : list string) (i : nat) : nat :=
  length (List.filter (fun k => negb (Extended.signIs signs k "<=")) (seq 0 i)).

(** *** Canonical form in binary64 arithmetic

    After a pivot the entering column holds [x / x] in the pivot row and
    [f - f * (x / x)] elsewhere.  In binary64 arithmetic these are exactly
    [1] and [0] unless an infinity or a NaN is involved, in which case they
    are NaN; either way such an entry never compares below a bound. *)

(** A zero of either sign, or NaN. *)
Definition zeroOrNaN (x : float) : bool := (x =? 0)%float || negb (x =? x)%float.

(** One, or NaN. *)
Definition oneOrNaN (x : float) : bool := (x =? 1)%float || negb (x =? x)%float.

(** The same two classes on the specification side. *)
Definition sfZeroOrNaN (x : spec_float) : bool :=
  match x with
  | S754_zero _ | S754_nan => true
  | _ => false
  end.

Definition sfOne : spec_float := S754_finite false 4503599627370496 (-52).

Definition sfOneOrNaN (x : spec_float) : bool :=
  match x with
  | S754_nan => true
  | S754_finite false m e => (e =? -52)%Z && (m =? 4503599627370496)%positive
  | _ => false
  end.

(** [basis] assigns to each of the [m] constraint rows a column of its
    own among the [cols - 1] variable columns. *)
Definition validBasis (m cols : nat) (basis : list Z) : Prop :=
  length basis = m /\
  Forall (fun b => (0 <= b < Z.of_nat cols - 1)%Z) basis /\
  NoDup basis.

(** The constraint rows are in canonical form for [basis]: the column of
    the variable that is basic in row [r + 1] holds one there and zero in
    the other constraint rows. *)
Definition rowsCanonical (rows : nat) (t : list (list float)) (basis : list Z) : Prop :=
  forall r b, basis !! r = Some (Z.of_nat b) ->
    oneOrNaN (cell t (r + 1) b) = true /\
    forall k, 1 <= k < rows -> k <> r + 1 -> zeroOrNaN (cell t k b) = true.

(** No basic column has a row-0 entry below [bound]. *)
Definition objectiveCanonical (bound : float) (t : list (list float)) (basis : list Z) : Prop :=
  forall r b, basis !! r = Some (Z.of_nat b) -> (cell t 0 b <? bound)%float = false.

(** What a run of an engine with entering bound [bound] keeps true, for [m]
    constraint rows and [cols] columns. *)
Definition basisInv (bound : float) (m cols : nat) (st : State) : Prop :=
  shaped (m + 1) cols (stTableau st) /\
  validBasis m cols (stBasic st) /\
  rowsCanonical (m + 1) (stTableau st) (stBasic st) /\
  objectiveCanonical bound (stTableau st) (stBasic st) /\
  Forall (fun s => validBasis m cols (basicVars s)) (stSteps st).

(** The loop that removes the basic variables from row 0: the one before
    the first iteration takes [cond x := x !== 0], the one before phase 2
    takes [cond x := Math.abs(x) > 1e-9]. *)
Definition canonicalizeObjective (cond : float -> bool) (m cols : nat) (basic : list Z)
    (t : list (list float)) : list (list float) :=
  fold_left (fun t i =>
               let coeff := rdZ (rowAt t 0) (basicAt basic i) in
               if cond coeff
               then fold_left (fun t j => setCell t 0 j
                                            (cell t 0 j - coeff * cell t (i + 1) j)%float)
                              (seq 0 cols) t
               else t)
            (seq 0 m) t.

(** Every constraint gets a basic variable: its relation is [<=] or [>=],
    or it is [=] and the method has artificial variables. *)
Definition everyRowHasBasic (m : nat) (signs : list string) (method : Extended.Method) : bool :=
  forallb (fun i => Extended.signIs signs i "<=" || Extended.signIs signs i ">=" ||
                    (Extended.useArtificials method && Extended.signIs signs i "="))
          (seq 0 m).

(** Row [i + 1] of the simple variant's tableau as built. *)
Definition simpleRow (n m i : nat) (ci : list float) : list float :=
  let cols := Simple.totalCols n m in
  <[cols - 1 := rd ci n]>
    (<[n + i := 1%float]> (map (rd ci) (seq 0 n) ++ replicate (cols - n) 0%float)).

(** Constraint [i] of the extended variant takes a slack/surplus column,
    and takes an artificial column. *)
Definition takesSlack (signs : list string) (i : nat) : bool :=
  Extended.signIs signs i "<=" || Extended.signIs signs i ">=".

Definition takesArt (signs : list string) (method : Extended.Method) (i : nat) : bool :=
  Extended.useArtificials method &&
  (negb (Extended.signIs signs i "<=") &&
   (Extended.signIs signs i ">=" || Extended.signIs signs i "=")).

(** ** Vocabulary of the properties of whole solves *)

(** The state a result was extracted from. *)
Definition resultState (r : SimplexResult) : State :=
  mkState (finalTableau r) (finalBasicVars r) (steps r).

(** The tableau, the basis and every recorded step have the sizes of a
    problem with [m] constraints and [cols] columns. *)
Definition stateShape (m cols : nat) (st : State) : Prop :=
  shaped (m + 1) cols (stTableau st) /\ length (stBasic st) = m /\
  Forall (fun s => shaped (m + 1) cols (tableau s) /\ length (basicVars s) = m)
         (stSteps st).

(** The sizes of the fields of a result. *)
Definition resultShape (n m cols : nat) (r : SimplexResult) : Prop :=
  stateShape m cols (resultState r) /\
  length (variableNames r) = cols - 1 /\
  length (solution r) = (if status r is Optimal then n else 0).

(** [pre1; pre2; ...; pre<count>]: the names one [for] loop pushes. *)
Definition numbered (pre : string) (count : nat) : list string :=
  map (fun i => (pre ++ showZ (Z.of_nat i + 1))%string) (seq 0 count).

(** The solution vector read off tableau [t] with basis [basic]: variable
    [j] has the right-hand side of the row it is basic in, and [0] when it
    is in no row. *)
Definition readsBasicRows (n cols : nat) (t : list (list float)) (basic : list Z)
    (sol : list float) : Prop :=
  length sol = n /\
  forall j, j < n ->
    (forall i, basic !! i = Some (Z.of_nat j) -> rd sol j = cell t (i + 1) (cols - 1)) /\
    (Z.of_nat j ∉ basic -> rd sol j = 0%float).

(** The recorded tableaux form the history of the tableau: each step
    records the tableau [t0] it starts from, and the next tableau is the
    pivot of [t0] on the step's row and column. *)
Fixpoint recordsTableauBefore (rows cols : nat) (t0 : list (list float))
    (ss : list SimplexStep) (tfinal : list (list float)) : Prop :=
  match ss with
  | [] => tfinal = t0
  | s :: ss' =>
      tableau s = t0 /\
      recordsTableauBefore rows cols
        (pivotTableau t0 rows cols (Z.to_nat (pivotRow s)) (Z.to_nat (pivotCol s)))
        ss' tfinal
  end.

(** The pivot of step [s] is on a column whose row-0 entry is below
    [enter] and on an element above [ratio], with a ratio below [Infinity]. *)
Definition pivotsOn (enter ratio : float) (cols : nat) (s : SimplexStep) : Prop :=
  let t := tableau s in
  let pr := Z.to_nat (pivotRow s) in
  let pc := Z.to_nat (pivotCol s) in
  (cell t 0 pc <? enter)%float = true /\
  (ratio <? cell t pr pc)%float = true /\
  (cell t pr (cols - 1) / cell t pr pc <? infinity)%float = true.

(** The recorded bases of the extended variant: each step records the
    basis its pivot leaves, which is the basis before it with the pivot
    row's entry overwritten by the pivot column. *)
Fixpoint recordsBasisAfter (b0 : list Z) (ss : list SimplexStep) (bfinal : list Z) : Prop :=
  match ss with
  | [] => bfinal = b0
  | s :: ss' =>
      basicVars s = <[Z.to_nat (pivotRow s - 1) := pivotCol s]> b0 /\
      recordsBasisAfter (basicVars s) ss' bfinal
  end.

(** Beale's degenerate problem, on which the entering and leaving rules of
    the solver cycle with period six:
    maximize [0.75 x1 - 20 x2 + 0.5 x3 - 6 x4] subject to
    [0.25 x1 - 8 x2 - x3 + 9 x4 <= 0], [0.5 x1 - 12 x2 - 0.5 x3 + 3 x4 <= 0],
    [x3 <= 1]. *)
Definition cyclingObjective : list float := [0.75; -20; 0.5; -6]%float.
Definition cyclingConstraints : list (list float) :=
  [[0.25; -8; -1; 9; 0]; [0.5; -12; -0.5; 3; 0]; [0; 0; 1; 0; 1]]%float.

(** The steps are numbered in their descriptions, from [1]. *)
Definition numberedSteps (ss : list SimplexStep) : Prop :=
  forall k s, ss !! k = Some s ->
    description s = Extended.describe 0 k (pivotRow s) (pivotCol s).

(** A problem that needs both phases of the two-phase method:
    maximize [x1 + x2] subject to [x1 + x2 <= 4], [x1 >= 1]. *)
Definition mixedObjective : list float := [1; 1]%float.
Definition mixedConstraints : list (list float) := [[1; 1; 4]; [1; 0; 1]]%float.
Definition mixedSigns : list string := ["<="; ">="]%string.

(** The state the cycling problem starts from in the simple variant, and
    the state its hundredth pivot leaves. *)
Definition cyclingState : State :=
  default (mkState [] [] []) (Simple.build Max 4 3 cyclingObjective cyclingConstraints).

Definition cyclingEnd : State :=
  default (mkState [] [] []) (afterPivots (simpleBody 4 3) 0 100 cyclingState).

(** The state the two-phase method starts from on the mixed problem, and
    its result. *)
Definition mixedState : State :=
  default (mkState [] [] [])
    (Extended.build Max 2 2 mixedObjective mixedConstraints mixedSigns Extended.TwoPhase).

Definition mixedResult : SimplexResult :=
  default emptyResult
    (Extended.solveSimplex Max 2 2 mixedObjective mixedConstraints mixedSigns
                           Extended.TwoPhase).

(** Every one of the [m] constraints has the relation [<=]. *)
Definition allLe (m : nat) (signs : list string) : Prop :=
  forall i, i < m -> signs !! i = Some "<="%string.

(** The state an all-[<=] problem starts from, in closed form. *)
Definition startsFrom (n m : nat) (cons : list (list float)) (row0 : list float)
    (st : State) : Prop :=
  stSteps st = [] /\ stBasic st = map Z.of_nat (seq n m) /\
  length (stTableau st) = m + 1 /\ rowAt (stTableau st) 0 = row0 /\
  forall i, i < m -> exists ci, cons !! i = Some ci /\
                                rowAt (stTableau st) (i + 1) = simpleRow n m i ci.

(** [x] is NaN, the one value that differs from itself. *)
Definition isNaN (x : float) : bool := negb (x =? x)%float.

(** The relation of constraint [i] is none of the three the builder
    knows (or [signs] has no entry [i]). *)
Definition unknownSign (signs : list string) (i : nat) : bool :=
  negb (Extended.signIs signs i "<=" || Extended.signIs signs i ">=" ||
        Extended.signIs signs i "=").

(** ** The page that calls the solver (app/page.tsx)

    The page keeps the coefficient fields as strings, and calls the simple
    variant.  [parseFloat] is the JavaScript builtin; it is left
    uninterpreted, a parameter of the handlers that use it. *)
Module Page.

(** The arrays [handleConfigSubmit] installs:
    [new Array(numVars).fill("")] and one [new Array(numVars + 1).fill("")]
    per constraint. *)
Definition handleConfigSubmit (numVars numConstraints : nat)
    : list string * list (list string) :=
  (replicate numVars ""%string,
   replicate numConstraints (replicate (numVars + 1) ""%string)).

(** The [onChange] handlers of the fields.  The indices come from
    rendering the arrays, so they address an existing field. *)
Inductive Edit :=
| EditObjective (i : nat) (v : string)         (* newCoeffs[i] = v *)
| EditConstraint (i j : nat) (v : string).     (* newCons[i][j] = v *)


Definition applyEdit (fields : list string * list (list string)) (e : Edit)
    : list string * list (list string) :=
  match e with
  | EditObjective i v => (<[i := v]> fields.1, fields.2)
  | EditConstraint i j v =>
      (fields.1, <[i := <[j := v]> (default [] (fields.2 !! i))]> fields.2)
  end.


Section HandleSolve.
Variable parseFloat : string -> float.

(** [parseFloat(v) || 0]: the falsy numbers [NaN], [0] and [-0] become [0]. *)
Definition toNumber (v : string) : float :=
  let x := parseFloat v in
  if (x =? 0)%float || negb (x =? x)%float then 0%float else x.

(** [handleSolve]: the fields are parsed and handed to the simple variant;
    [None] when the solver throws. *)
Definition handleSolve (type : OptType) (numVars numConstraints : nat)
    (fields : list string * list (list string)) : option SimplexResult :=
  Simple.solveSimplex type numVars numConstraints
                      (map toNumber fields.1) (map (map toNumber) fields.2).

End HandleSolve.


End Page.



(** A [parseFloat] for the fields of the documented example. *)
Definition sampleParse (v : string) : float :=
  if String.eqb v "1" then 1%float
  else if String.eqb v "2" then 2%float
  else if String.eqb v "3" then 3%float
  else if String.eqb v "4" then 4%float
  else if String.eqb v "5" then 5%float
  else if String.eqb v "12" then 12%float
  else if String.eqb v "18" then 18%float
  else nan.

(** The documented example typed into the page; the fields left blank
    parse to [NaN] and count as [0]. *)
Definition sampleEdits : list Page.Edit :=
  [Page.EditObjective 0 "3"; Page.EditObjective 1 "5";
   Page.EditConstraint 0 0 "1"; Page.EditConstraint 0 2 "4";
   Page.EditConstraint 1 1 "2"; Page.EditConstraint 1 2 "12";
   Page.EditConstraint 2 0 "3"; Page.EditConstraint 2 1 "2";
   Page.EditConstraint 2 2 "18"]%string.

(** * Properties *)

(** The iteration caps stay folded in the proofs, so that a loop is unfolded
    only where a proof asks for it. *)
Lemma simple_cap : Simple.maxIterations = 100.
Proof. reflexivity. Qed.

Lemma extended_cap : Extended.maxIterations = 50.
Proof. reflexivity. Qed.

#[global] Opaque Simple.maxIterations Extended.maxIterations.

(** ** IEEE-754 comparison facts, from the binary64 specification *)

Module FloatOrder.

Ltac cases_cmp :=
  repeat match goal with
    | |- context [Pos.compare_cont Eq ?a ?b] =>
        change (Pos.compare_cont Eq a b) with (Pos.compare a b)
    | H : context [Pos.compare_cont Eq ?a ?b] |- _ =>
        change (Pos.compare_cont Eq a b) with (Pos.compare a b) in H
    end;
  repeat match goal with
    | |- context [Z.compare ?a ?b] => destruct (Z.compare_spec a b)
    | H : context [Z.compare ?a ?b] |- _ => destruct (Z.compare_spec a b)
    | |- context [Pos.compare ?a ?b] => destruct (Pos.compare_spec a b)
    | H : context [Pos.compare ?a ?b] |- _ => destruct (Pos.compare_spec a b)
    end;
  simpl in *; try congruence; try lia.

Lemma SFltb_irrefl x : SFltb x x = false.
Proof.
  unfold SFltb, SFcompare. destruct x as [[]|[]| |[] m e]; try reflexivity; cases_cmp.
Qed.

Lemma SFltb_trans x y z : SFltb x y = true -> SFltb y z = true -> SFltb x z = true.
Proof.
  unfold SFltb, SFcompare.
  destruct x as [[]|[]| |[] mx ex], y as [[]|[]| |[] my ey], z as [[]|[]| |[] mz ez];
    try (intros; congruence); intros H1 H2; cases_cmp.
Qed.

Lemma SFeqb_ltb x y z : SFeqb x y = true -> SFltb y z = true -> SFltb x z = true.
Proof.
  unfold SFltb, SFeqb, SFcompare.
  destruct x as [[]|[]| |[] mx ex], y as [[]|[]| |[] my ey], z as [[]|[]| |[] mz ez];
    try (intros; congruence); intros H1 H2; cases_cmp.
Qed.

Lemma ltb_irrefl (x : float) : (x <? x)%float = false.
Proof. rewrite ltb_spec. apply SFltb_irrefl. Qed.

Lemma ltb_trans (x y z : float) :
  (x <? y)%float = true -> (y <? z)%float = true -> (x <? z)%float = true.
Proof. rewrite !ltb_spec. apply SFltb_trans. Qed.

Lemma eqb_ltb (x y z : float) :
  (x =? y)%float = true -> (y <? z)%float = true -> (x <? z)%float = true.
Proof. rewrite FloatAxioms.eqb_spec, !ltb_spec. apply SFeqb_ltb. Qed.

Lemma opp_involutive (x : float) : (- - x)%float = x.
Proof.
  apply Prim2SF_inj. rewrite !opp_spec.
  destruct (Prim2SF x); simpl; try reflexivity; now rewrite Bool.negb_involutive.
Qed.

End FloatOrder.

(** ** The two scans *)

Section Scan.
Variable val : nat -> option float.
Variable bound : float.

Lemma scanMin_step a n acc :
  scanInv val bound a n acc -> scanInv val bound a (S n) (scanMin val acc (a + n)).
Proof.
  unfold scanMin. intros Hinv.
  destruct (val (a + n)) as [v|] eqn:Hv.
  - destruct (v <? acc.1)%float eqn:Hlt.
    + (* the new candidate becomes the best one *)
      right. exists (a + n). simpl. split; [done|]. split; [done|].
      split; [lia|]. exists v. split; [done|].
      destruct Hinv as [[-> Hnone] | (i & Hi & Hvi & Hrange & w & Hw & Hwb & Hmin & Htie)].
      * simpl in Hlt. split; [done|]. split.
        -- intros k x Hk Hx. destruct (decide (k = a + n)) as [->|Hne].
           ++ rewrite Hv in Hx. injection Hx as <-. apply FloatOrder.ltb_irrefl.
           ++ destruct (x <? v)%float eqn:E; [|done].
              rewrite <- (Hnone k x); [|lia|done].
              symmetry. by eapply FloatOrder.ltb_trans.
        -- intros k x Hk Hx. destruct (x =? v)%float eqn:E; [|done].
           rewrite <- (Hnone k x); [|lia|done].
           symmetry. by eapply FloatOrder.eqb_ltb.
      * rewrite Hvi in Hw. injection Hw as <-.
        split; [by eapply FloatOrder.ltb_trans|]. split.
        -- intros k x Hk Hx. destruct (decide (k = a + n)) as [->|Hne].
           ++ rewrite Hv in Hx. injection Hx as <-. apply FloatOrder.ltb_irrefl.
           ++ destruct (x <? v)%float eqn:E; [|done].
              rewrite <- (Hmin k x); [|lia|done].
              symmetry. by eapply FloatOrder.ltb_trans.
        -- intros k x Hk Hx. destruct (x =? v)%float eqn:E; [|done].
           rewrite <- (Hmin k x); [|lia|done].
           symmetry. by eapply FloatOrder.eqb_ltb.
    + (* the best candidate stays *)
      destruct Hinv as [[-> Hnone] | (i & Hi & Hvi & Hrange & w & Hw & Hwb & Hmin & Htie)].
      * left. split; [done|]. intros k x Hk Hx.
        destruct (decide (k = a + n)) as [->|Hne].
        -- rewrite Hv in Hx. by injection Hx as <-.
        -- apply (Hnone k x); [lia|done].
      * right. exists i. split; [done|]. split; [done|]. split; [lia|].
        exists w. split; [done|]. split; [done|]. split; [|done].
        intros k x Hk Hx. destruct (decide (k = a + n)) as [->|Hne].
        -- rewrite Hv in Hx. injection Hx as <-.
           rewrite Hvi in Hw. by injection Hw as <-.
        -- apply (Hmin k x); [lia|done].
  - destruct Hinv as [[-> Hnone] | (i & Hi & Hvi & Hrange & w & Hw & Hwb & Hmin & Htie)].
    + left. split; [done|]. intros k x Hk Hx.
      destruct (decide (k = a + n)) as [->|Hne]; [congruence|].
      apply (Hnone k x); [lia|done].
    + right. exists i. split; [done|]. split; [done|]. split; [lia|].
      exists w. split; [done|]. split; [done|]. split; [|done].
      intros k x Hk Hx. destruct (decide (k = a + n)) as [->|Hne]; [congruence|].
      apply (Hmin k x); [lia|done].
Qed.

Lemma scanMin_fold a n :
  scanInv val bound a n (fold_left (scanMin val) (seq a n) (bound, (-1)%Z)).
Proof.
  induction n as [|n IH].
  - left. split; [done|]. intros k x Hk. lia.
  - rewrite seq_S, fold_left_app. simpl. by apply scanMin_step.
Qed.

(** The index the scan returns: [-1] exactly when no candidate is below
    the bound, else the first candidate with the least value. *)
Lemma scanMin_result a n :
  let p := (fold_left (scanMin val) (seq a n) (bound, (-1)%Z)).2 in
  (p = (-1)%Z /\ noneBelow val bound a n) \/
  (exists i, p = Z.of_nat i /\ firstLeast val bound a n i).
Proof.
  simpl. destruct (scanMin_fold a n) as [[-> Hnone] | (i & Hi & _ & Hfl)].
  - by left.
  - right. by exists i.
Qed.
End Scan.

Lemma firstLeast_not_noneBelow val bound a n i :
  firstLeast val bound a n i -> ~ noneBelow val bound a n.
Proof.
  intros (Hr & v & Hv & Hb & _) Hnone. specialize (Hnone i v Hr Hv). congruence.
Qed.

Lemma fold_left_ext_in {A B} (f g : A -> B -> A) (l : list B) (a : A) :
  (forall x y, f x y = g x y) -> fold_left f l a = fold_left g l a.
Proof. intros H. revert a. induction l as [|y l IH]; intros a; simpl; [done|]. by rewrite H, IH. Qed.

Lemma findPivotCol_scan thr t totalCols :
  findPivotCol thr t totalCols =
  (fold_left (scanMin (colValue t)) (seq 0 (totalCols - 1)) (thr, (-1)%Z)).2.
Proof. reflexivity. Qed.

Lemma findPivotRow_scan thr t m totalCols pc :
  findPivotRow thr t m totalCols pc =
  (fold_left (scanMin (rowValue thr t totalCols pc)) (seq 1 m) (infinity, (-1)%Z)).2.
Proof.
  unfold findPivotRow. f_equal. apply fold_left_ext_in. intros acc i.
  unfold scanRow, scanMin, rowValue. by destruct (thr <? cell t i pc)%float.
Qed.

Lemma findPivotCol_spec thr t totalCols :
  (findPivotCol thr t totalCols = (-1)%Z /\ noneBelow (colValue t) thr 0 (totalCols - 1)) \/
  (exists j, findPivotCol thr t totalCols = Z.of_nat j /\
             firstLeast (colValue t) thr 0 (totalCols - 1) j).
Proof. rewrite findPivotCol_scan. apply scanMin_result. Qed.

Lemma findPivotRow_spec thr t m totalCols pc :
  (findPivotRow thr t m totalCols pc = (-1)%Z /\
   noneBelow (rowValue thr t totalCols pc) infinity 1 m) \/
  (exists i, findPivotRow thr t m totalCols pc = Z.of_nat i /\
             firstLeast (rowValue thr t totalCols pc) infinity 1 m i).
Proof. rewrite findPivotRow_scan. apply scanMin_result. Qed.

(** ** One iteration of each variant, by cases *)

Lemma simple_loopBody_cases n m st :
  let t := stTableau st in
  let tc := Simple.totalCols n m in
  (Simple.loopBody n m st = IterOptimal /\ noneBelow (colValue t) 0%float 0 (tc - 1)) \/
  (exists j, firstLeast (colValue t) 0%float 0 (tc - 1) j /\
     ((Simple.loopBody n m st = IterUnbounded /\
       noneBelow (rowValue 0%float t tc j) infinity 1 m) \/
      (exists i, firstLeast (rowValue 0%float t tc j) infinity 1 m i /\
                 Simple.loopBody n m st = IterPivot (simpleNext n m st i j)))).
Proof.
  intros t tc. unfold Simple.loopBody.
  destruct (findPivotCol_spec 0%float t tc) as [[Hc Hnone] | (j & Hc & Hj)];
    fold t tc; rewrite Hc.
  - left. by split.
  - right. exists j. split; [done|].
    replace (Z.of_nat j =? -1)%Z with false by lia. rewrite Nat2Z.id.
    destruct (findPivotRow_spec 0%float t m tc j) as [[Hr Hnone] | (i & Hr & Hi)];
      rewrite Hr.
    + left. by split.
    + right. exists i. split; [done|].
      replace (Z.of_nat i =? -1)%Z with false by lia.
      destruct Hi as [Hrange _].
      replace (Z.to_nat (Z.of_nat i - 1)) with (i - 1) by lia.
      by rewrite Nat2Z.id.
Qed.

Lemma extended_loopBody_cases n m signs method iterStart it st :
  let t := stTableau st in
  let tc := Extended.totalCols n m signs method in
  (Extended.loopBody n m signs method iterStart it st = IterOptimal /\
   noneBelow (colValue t) (- tol9)%float 0 (tc - 1)) \/
  (exists j, firstLeast (colValue t) (- tol9)%float 0 (tc - 1) j /\
     ((Extended.loopBody n m signs method iterStart it st = IterUnbounded /\
       noneBelow (rowValue tol9 t tc j) infinity 1 m) \/
      (exists i, firstLeast (rowValue tol9 t tc j) infinity 1 m i /\
                 Extended.loopBody n m signs method iterStart it st =
                 IterPivot (extendedNext n m signs method iterStart it st i j)))).
Proof.
  intros t tc. unfold Extended.loopBody.
  destruct (findPivotCol_spec (- tol9)%float t tc) as [[Hc Hnone] | (j & Hc & Hj)];
    fold t tc; rewrite Hc.
  - left. by split.
  - right. exists j. split; [done|].
    replace (Z.of_nat j =? -1)%Z with false by lia. rewrite Nat2Z.id.
    destruct (findPivotRow_spec tol9 t m tc j) as [[Hr Hnone] | (i & Hr & Hi)];
      rewrite Hr.
    + left. by split.
    + right. exists i. split; [done|].
      replace (Z.of_nat i =? -1)%Z with false by lia.
      destruct Hi as [Hrange _].
      replace (Z.to_nat (Z.of_nat i - 1)) with (i - 1) by lia.
      by rewrite Nat2Z.id.
Qed.

(** A pivoting iteration, inverted. *)
Lemma simple_pivot_inv n m st st' :
  Simple.loopBody n m st = IterPivot st' ->
  exists i j,
    firstLeast (colValue (stTableau st)) 0%float 0 (Simple.totalCols n m - 1) j /\
    firstLeast (rowValue 0%float (stTableau st) (Simple.totalCols n m) j) infinity 1 m i /\
    st' = simpleNext n m st i j.
Proof.
  intros H.
  destruct (simple_loopBody_cases n m st) as [[E _] | (j & Hj & [[E _] | (i & Hi & E)])];
    rewrite E in H; try discriminate.
  injection H as <-. by exists i, j.
Qed.

Lemma extended_pivot_inv n m signs method iterStart it st st' :
  Extended.loopBody n m signs method iterStart it st = IterPivot st' ->
  exists i j,
    firstLeast (colValue (stTableau st)) (- tol9)%float 0
               (Extended.totalCols n m signs method - 1) j /\
    firstLeast (rowValue tol9 (stTableau st) (Extended.totalCols n m signs method) j)
               infinity 1 m i /\
    st' = extendedNext n m signs method iterStart it st i j.
Proof.
  intros H.
  destruct (extended_loopBody_cases n m signs method iterStart it st)
    as [[E _] | (j & Hj & [[E _] | (i & Hi & E)])];
    rewrite E in H; try discriminate.
  injection H as <-. by exists i, j.
Qed.

(** ** The loops as iterated bodies *)

Lemma afterPivots_inv (body : nat -> State -> IterOutcome) (I : State -> Prop) :
  (forall it st st', I st -> body it st = IterPivot st' -> I st') ->
  forall k it st st', I st -> afterPivots body it k st = Some st' -> I st'.
Proof.
  intros Hstep. induction k as [|k IH]; intros it st st' Hst H; simpl in H.
  - by injection H as <-.
  - destruct (body it st) as [| |st1] eqn:E; try discriminate.
    eapply IH; [|done]. by eapply Hstep.
Qed.

Lemma afterPivots_snoc body it k st st' st'' :
  afterPivots body it k st = Some st' ->
  body (it + k) st' = IterPivot st'' ->
  afterPivots body it (S k) st = Some st''.
Proof.
  revert it st. induction k as [|k IH]; intros it st H Hb; simpl in H.
  - injection H as <-. simpl. rewrite Nat.add_0_r in Hb. by rewrite Hb.
  - simpl. destruct (body it st) as [| |st1] eqn:E; try discriminate.
    apply (IH (S it) st1 H). by replace (S it + k) with (it + S k) by lia.
Qed.

(** The simple loop stops after [k <= fuel] pivots, in the state they lead
    to, and tells why. *)
Lemma simple_loop_spec n m fuel st :
  exists k st',
    k <= fuel /\ afterPivots (simpleBody n m) 0 k st = Some st' /\
    ((Simple.loop n m fuel st = (st', true) /\
      Simple.loopBody n m st' = IterUnbounded /\ k < fuel) \/
     (Simple.loop n m fuel st = (st', false) /\
      (Simple.loopBody n m st' = IterOptimal \/ k = fuel))).
Proof.
  assert (G : forall it, exists k st',
    k <= fuel /\ afterPivots (simpleBody n m) it k st = Some st' /\
    ((Simple.loop n m fuel st = (st', true) /\
      Simple.loopBody n m st' = IterUnbounded /\ k < fuel) \/
     (Simple.loop n m fuel st = (st', false) /\
      (Simple.loopBody n m st' = IterOptimal \/ k = fuel)))); [|apply (G 0)].
  revert st. induction fuel as [|fuel IH]; intros st it.
  - exists 0, st. split; [lia|]. split; [done|]. right. split; [done|]. by right.
  - simpl. destruct (Simple.loopBody n m st) as [| |st1] eqn:E.
    + exists 0, st. split; [lia|]. split; [done|]. right. split; [done|]. by left.
    + exists 0, st. split; [lia|]. split; [done|]. left. split; [done|]. split; [done|lia].
    + destruct (IH st1 (S it)) as (k & st' & Hk & Hrun & Hend).
      exists (S k), st'. split; [lia|]. split.
      * simpl. unfold simpleBody at 1. by rewrite E.
      * destruct Hend as [(? & ? & ?) | (? & [?|?])].
        -- left. split; [done|]. split; [done|lia].
        -- right. split; [done|]. by left.
        -- right. split; [done|]. right. lia.
Qed.

(** The engine of the extended variant: [-1] after an Unbounded exit, else
    the number of pivots. *)
Lemma extended_runLoop_spec n m signs method iterStart fuel it st :
  exists k st',
    k <= fuel /\
    afterPivots (extendedBody n m signs method iterStart) it k st = Some st' /\
    ((Extended.runLoop n m signs method fuel it iterStart st = (st', (-1)%Z) /\
      Extended.loopBody n m signs method iterStart (it + k) st' = IterUnbounded /\
      k < fuel) \/
     (Extended.runLoop n m signs method fuel it iterStart st = (st', Z.of_nat (it + k)) /\
      (Extended.loopBody n m signs method iterStart (it + k) st' = IterOptimal \/
       k = fuel))).
Proof.
  revert st it. induction fuel as [|fuel IH]; intros st it.
  - exists 0, st. rewrite Nat.add_0_r. split; [lia|]. split; [done|].
    right. split; [done|]. by right.
  - simpl. destruct (Extended.loopBody n m signs method iterStart it st) as [| |st1] eqn:E.
    + exists 0, st. rewrite Nat.add_0_r. split; [lia|]. split; [done|].
      right. split; [done|]. by left.
    + exists 0, st. rewrite Nat.add_0_r. split; [lia|]. split; [done|].
      left. split; [done|]. split; [done|lia].
    + destruct (IH st1 (S it)) as (k & st' & Hk & Hrun & Hend).
      exists (S k), st'. replace (it + S k) with (S it + k) by lia.
      split; [lia|]. split.
      * simpl. unfold extendedBody at 1. by rewrite E.
      * destruct Hend as [(? & ? & ?) | (? & [?|?])].
        -- left. split; [done|]. split; [done|lia].
        -- right. split; [done|]. by left.
        -- right. split; [done|]. right. lia.
Qed.

(** Conversely, an Unbounded iteration reached within the cap ends the loop. *)
Lemma simple_loop_unbounded n m fuel it k st st' :
  afterPivots (simpleBody n m) it k st = Some st' -> k < fuel ->
  Simple.loopBody n m st' = IterUnbounded ->
  Simple.loop n m fuel st = (st', true).
Proof.
  revert it k st. induction fuel as [|fuel IH]; intros it k st Hrun Hk Hb; [lia|].
  destruct k as [|k]; simpl in Hrun.
  - injection Hrun as ->. simpl. by rewrite Hb.
  - unfold simpleBody at 1 in Hrun. simpl.
    destruct (Simple.loopBody n m st) as [| |st1]; try discriminate.
    apply (IH (S it) k st1 Hrun); [lia|done].
Qed.

Lemma extended_runLoop_unbounded n m signs method iterStart fuel it k st st' :
  afterPivots (extendedBody n m signs method iterStart) it k st = Some st' -> k < fuel ->
  Extended.loopBody n m signs method iterStart (it + k) st' = IterUnbounded ->
  Extended.runLoop n m signs method fuel it iterStart st = (st', (-1)%Z).
Proof.
  revert it k st. induction fuel as [|fuel IH]; intros it k st Hrun Hk Hb; [lia|].
  destruct k as [|k]; simpl in Hrun.
  - injection Hrun as ->. simpl. rewrite Nat.add_0_r in Hb. by rewrite Hb.
  - unfold extendedBody at 1 in Hrun. simpl.
    destruct (Extended.loopBody n m signs method iterStart it st) as [| |st1];
      try discriminate.
    apply (IH (S it) k st1 Hrun); [lia|].
    by replace (S it + k) with (it + S k) by lia.
Qed.

Lemma engine_cases e st :
  let t := stTableau st in
  (engineBody e st = IterOptimal /\
   noneBelow (colValue t) (enterBound e) 0 (engineCols e - 1)) \/
  (exists j, firstLeast (colValue t) (enterBound e) 0 (engineCols e - 1) j /\
     ((engineBody e st = IterUnbounded /\
       noneBelow (rowValue (ratioBound e) t (engineCols e) j) infinity 1 (engineRows e)) \/
      (exists i st',
         firstLeast (rowValue (ratioBound e) t (engineCols e) j) infinity 1 (engineRows e) i /\
         engineBody e st = IterPivot st' /\
         exists s, stSteps st' = stSteps st ++ [s] /\
                   tableau s = t /\
                   enteringVar s = Z.of_nat j /\ pivotCol s = Z.of_nat j /\
                   leavingVar s = Z.of_nat i /\ pivotRow s = Z.of_nat i /\
                   stBasic st' = <[i - 1 := Z.of_nat j]> (stBasic st)))).
Proof.
  destruct e as [n m | n m signs method iterStart it]; simpl.
  - destruct (simple_loopBody_cases n m st) as [H | (j & Hj & [H | (i & Hi & E)])].
    + by left.
    + right. exists j. split; [done|]. by left.
    + right. exists j. split; [done|]. right.
      exists i, (simpleNext n m st i j). split; [done|]. split; [done|].
      by exists (simpleStep n m st i j).
  - destruct (extended_loopBody_cases n m signs method iterStart it st)
      as [H | (j & Hj & [H | (i & Hi & E)])].
    + by left.
    + right. exists j. split; [done|]. by left.
    + right. exists j. split; [done|]. right.
      exists i, (extendedNext n m signs method iterStart it st i j).
      split; [done|]. split; [done|].
      by exists (extendedStep iterStart it st i j).
Qed.

(** ** The documented example (C8) *)

(** C8: for maximize [3 x1 + 5 x2] subject to [x1 <= 4], [2 x2 <= 12],
    [3 x1 + 2 x2 <= 18], the simple variant returns status Optimal, optimal
    value 36 and the solution [x1 = 2], [x2 = 6]. *)
Theorem documented_example_optimum :
  exists r,
    Simple.solveSimplex Max 2 3 exampleObjective exampleConstraints = Some r /\
    status r = Optimal /\ optimalValue r = 36%float /\ solution r = [2; 6]%float.
Proof. eexists. split; [by vm_compute|]. by vm_compute. Qed.

(** ** Minimisation against maximisation of the negated objective (C9) *)

(** C9: for every objective [c] and every set of constraints, solving
    [min c] and solving [max (-c)] give the same solution vector (and the
    same status and steps) and optimal values that are negatives of each
    other, in both variants; on the exits that report no optimum both
    values are the constant 0. *)
Theorem min_is_max_of_negated n m c cons signs method :
  dualResults (Simple.solveSimplex Min n m c cons)
              (Simple.solveSimplex Max n m (map PrimFloat.opp c) cons) /\
  dualResults (Extended.solveSimplex Min n m c cons signs method)
              (Extended.solveSimplex Max n m (map PrimFloat.opp c) cons signs method).
Proof.
  assert (Habort : forall s names st, s <> Optimal ->
    dualResults (Some (abortResult s names st)) (Some (abortResult s names st))).
  { intros s names st Hs. simpl. repeat split; try done. }
  assert (Hopt : forall n' m' tc names st,
    dualResults (Some (optimalResult Min n' m' tc names st))
                (Some (optimalResult Max n' m' tc names st))).
  { intros n' m' tc names st. simpl. repeat split; try done.
    by rewrite FloatOrder.opp_involutive. }
  split.
  - unfold Simple.solveSimplex.
    change (Simple.build Max n m (map PrimFloat.opp c) cons)
      with (Simple.build Min n m c cons).
    destruct (Simple.build Min n m c cons) as [st0|]; [|done].
    cbn [mbind option_bind]. unfold Simple.finish.
    destruct (Simple.loop n m Simple.maxIterations st0) as [st b]. cbn [fst snd].
    destruct b; [by apply Habort | apply Hopt].
  - unfold Extended.solveSimplex.
    change (Extended.build Max n m (map PrimFloat.opp c) cons signs method)
      with (Extended.build Min n m c cons signs method).
    destruct (Extended.build Min n m c cons signs method) as [st0|]; [|done].
    cbn [mbind option_bind]. unfold Extended.coordinate, Extended.extract.
    change (Extended.phase2Start Max n m (map PrimFloat.opp c) signs method)
      with (Extended.phase2Start Min n m c signs method).
    destruct method;
      repeat match goal with
        | |- context [if ?b then _ else _] => destruct b
        end;
      first [by apply Habort | apply Hopt].
Qed.

(** ** What a step records (C1) *)

(** In the simple variant the step is pushed before [basicVars] is
    updated: it holds the tableau and the basis the pivot starts from. *)
Lemma simple_step_snapshot n m st st' :
  Simple.loopBody n m st = IterPivot st' ->
  exists s, stSteps st' = stSteps st ++ [s] /\
            tableau s = stTableau st /\ basicVars s = stBasic st /\
            stBasic st' = <[Z.to_nat (pivotRow s - 1) := pivotCol s]> (stBasic st).
Proof.
  intros H. destruct (simple_pivot_inv n m st st' H) as (i & j & _ & [Hi _] & ->).
  exists (simpleStep n m st i j). simpl.
  by replace (Z.to_nat (Z.of_nat i - 1)) with (i - 1) by lia.
Qed.

(** In the extended variant [basicVars[pivotRow - 1] = pivotCol] runs before
    the push: the step holds the tableau the pivot starts from, but the
    basis the pivot leaves. *)
Lemma extended_step_snapshot n m signs method iterStart it st st' :
  Extended.loopBody n m signs method iterStart it st = IterPivot st' ->
  exists s, stSteps st' = stSteps st ++ [s] /\
            tableau s = stTableau st /\ basicVars s = stBasic st' /\
            stBasic st' = <[Z.to_nat (pivotRow s - 1) := pivotCol s]> (stBasic st).
Proof.
  intros H.
  destruct (extended_pivot_inv n m signs method iterStart it st st' H)
    as (i & j & _ & [Hi _] & ->).
  exists (extendedStep iterStart it st i j). simpl.
  by replace (Z.to_nat (Z.of_nat i - 1)) with (i - 1) by lia.
Qed.

(** C1 (the extended variant departs from it): on the documented example,
    solved by the extended variant with method standard, the first step
    records the tableau as built, pivot row 2 and pivot column 1, but its
    [basicVars] is [[2; 1; 4]]: row 2 already lists the entering variable 1,
    whereas the basis before the pivot was [[2; 3; 4]] with the leaving
    variable 3. *)
Theorem extended_step_basis_already_updated :
  exists st0 r s,
    Extended.build Max 2 3 exampleObjective exampleConstraints exampleSigns
                   Extended.Standard = Some st0 /\
    Extended.solveSimplex Max 2 3 exampleObjective exampleConstraints exampleSigns
                          Extended.Standard = Some r /\
    head (steps r) = Some s /\
    tableau s = stTableau st0 /\
    stBasic st0 = [2; 3; 4]%Z /\
    pivotRow s = 2%Z /\ pivotCol s = 1%Z /\
    basicVars s = [2; 1; 4]%Z.
Proof.
  eexists _, _, _. split; [by vm_compute|]. split; [by vm_compute|].
  split; [by vm_compute|]. by vm_compute.
Qed.

(** ** Unbounded in phase 1 of the two-phase method (C2) *)

(** C2 (the code departs from it): with method twoPhase and the two
    constraints [1e-9 x1 = 1], the phase-1 engine returns [-1] (Unbounded:
    row 0 holds [-2e-9] in column 0 and no entry of that column exceeds
    [1e-9]), yet the result has status Infeasible; with right-hand sides 0
    and objective [max -x1] the phase-1 engine returns [-1] as well, phase 2
    is run all the same and the result has status Optimal. *)
Theorem twoPhase_ignores_phase1_unbounded :
  (exists st0 r,
     Extended.build Max 1 2 [1%float] (tinyRows 1) twoEqualities Extended.TwoPhase
       = Some st0 /\
     (Extended.runSimplexLoop 1 2 twoEqualities Extended.TwoPhase st0 0).2 = (-1)%Z /\
     Extended.solveSimplex Max 1 2 [1%float] (tinyRows 1) twoEqualities Extended.TwoPhase
       = Some r /\
     status r = Infeasible) /\
  (exists st0 r,
     Extended.build Max 1 2 [(-1)%float] (tinyRows 0) twoEqualities Extended.TwoPhase
       = Some st0 /\
     (Extended.runSimplexLoop 1 2 twoEqualities Extended.TwoPhase st0 0).2 = (-1)%Z /\
     Extended.solveSimplex Max 1 2 [(-1)%float] (tinyRows 0) twoEqualities Extended.TwoPhase
       = Some r /\
     status r = Optimal /\
     finalTableau r =
       Extended.preparePhase2 Max 1 2 [(-1)%float] twoEqualities Extended.TwoPhase
                              (stBasic st0) (stTableau st0)).
Proof.
  split.
  - eexists _, _. split; [by vm_compute|]. split; [by vm_compute|].
    split; [by vm_compute|]. by vm_compute.
  - eexists _, _. split; [by vm_compute|]. split; [by vm_compute|].
    split; [by vm_compute|]. by vm_compute.
Qed.

(** ** The entering column (C4) *)

Lemma engine_optimal_iff e st :
  engineBody e st = IterOptimal <->
  noneBelow (colValue (stTableau st)) (enterBound e) 0 (engineCols e - 1).
Proof.
  destruct (engine_cases e st) as [[E Hnone] | (j & Hj & Hrest)].
  - by split.
  - split.
    + intros E. destruct Hrest as [[E' _] | (i & st' & _ & E' & _)]; congruence.
    + intros Hnone. by destruct (firstLeast_not_noneBelow _ _ _ _ _ Hj).
Qed.

(** C4, as the code has it: in every iteration of either variant the
    entering column is the first column, among all but the right-hand side,
    that holds the least row-0 value, and that value is below the bound of
    the variant; the iteration is Optimal exactly when no row-0 entry is
    below that bound.  The bound is [-1e-9] in the extended variant and [0]
    in the simple variant, which has no tolerance. *)
Theorem entering_column_rule (e : Engine) (st : State) :
  (engineBody e st = IterOptimal <->
   noneBelow (colValue (stTableau st)) (enterBound e) 0 (engineCols e - 1)) /\
  (engineBody e st <> IterOptimal ->
   exists j, firstLeast (colValue (stTableau st)) (enterBound e) 0 (engineCols e - 1) j /\
     forall st', engineBody e st = IterPivot st' ->
       exists s, stSteps st' = stSteps st ++ [s] /\
                 enteringVar s = Z.of_nat j /\ pivotCol s = Z.of_nat j) /\
  enterBound e = match e with
                 | SimpleEngine _ _ => 0%float
                 | ExtendedEngine _ _ _ _ _ _ => (- tol9)%float
                 end.
Proof.
  split; [apply engine_optimal_iff|]. split; [|by destruct e].
  intros Hne.
  destruct (engine_cases e st) as [[E _] | (j & Hj & Hrest)]; [done|].
  exists j. split; [done|]. intros st' E.
  destruct Hrest as [[E' _] | (i & st1 & _ & E' & s & Hs & _ & He & Hp & _)];
    [congruence|].
  rewrite E in E'. injection E' as ->. by exists s.
Qed.

(** The simple variant pivots on a row-0 entry of [-1e-10], which is not
    negative beyond the tolerance [1e-9]. *)
Lemma simple_enters_within_tolerance :
  exists st0 st' s,
    Simple.build Max 1 1 [tenthOfTol] [[1; 1]%float] = Some st0 /\
    forallb (fun j => negb (cell (stTableau st0) 0 j <? - tol9)%float)
            (seq 0 (Simple.totalCols 1 1 - 1)) = true /\
    engineBody (SimpleEngine 1 1) st0 = IterPivot st' /\
    stSteps st' = [s] /\ pivotCol s = 0%Z /\
    (- tol9 <? cell (tableau s) 0 0)%float = true /\
    (cell (tableau s) 0 0 <? tol9)%float = true.
Proof.
  eexists _, _, _. split; [by vm_compute|]. split; [by vm_compute|].
  split; [by vm_compute|]. by vm_compute.
Qed.

(** ** Loops over the constraints that may fail *)

Section FoldOption.
Context {A : Type} (f : A -> nat -> option A).

Lemma foldM_none l : fold_left (fun acc k => a ← acc; f a k) l None = None.
Proof. by induction l. Qed.

(** An invariant indexed by the number of rows done is carried through. *)
Lemma foldM_seq_inv (I : nat -> A -> Prop) s n a0 r :
  I s a0 ->
  (forall k a a', s <= k < s + n -> I k a -> f a k = Some a' -> I (S k) a') ->
  fold_left (fun acc k => a ← acc; f a k) (seq s n) (Some a0) = Some r ->
  I (s + n) r.
Proof.
  revert r. induction n as [|n IH]; intros r H0 Hstep Hfold.
  - simpl in Hfold. injection Hfold as <-. by rewrite Nat.add_0_r.
  - rewrite seq_S, fold_left_app in Hfold. simpl in Hfold.
    destruct (fold_left (fun acc k => a ← acc; f a k) (seq s n) (Some a0))
      as [a|] eqn:E; [|done].
    simpl in Hfold. replace (s + S n) with (S (s + n)) by lia.
    apply (Hstep (s + n) a r); [lia| |done].
    apply IH; [done| |done]. intros k b b' Hk. apply Hstep. lia.
Qed.

(** If every step succeeds under the invariant, so does the loop. *)
Lemma foldM_seq_total (I : nat -> A -> Prop) s n a0 :
  I s a0 ->
  (forall k a, s <= k < s + n -> I k a -> exists a', f a k = Some a' /\ I (S k) a') ->
  exists r, fold_left (fun acc k => a ← acc; f a k) (seq s n) (Some a0) = Some r /\
            I (s + n) r.
Proof.
  induction n as [|n IH]; intros H0 Hstep.
  - exists a0. by rewrite Nat.add_0_r.
  - destruct IH as (a & Ha & HI); [done| |].
    { intros k b Hk. apply Hstep. lia. }
    destruct (Hstep (s + n) a) as (a' & Ha' & HI'); [lia|done|].
    exists a'. rewrite seq_S, fold_left_app. simpl. rewrite Ha. simpl.
    split; [done|]. by replace (s + S n) with (S (s + n)) by lia.
Qed.
End FoldOption.

(** ** The initial state of the simple variant *)

Lemma simple_build_shape type n m c cons st0 :
  Simple.build type n m c cons = Some st0 ->
  stSteps st0 = [] /\ stBasic st0 = map Z.of_nat (seq n m) /\
  length (stTableau st0) = m + 1.
Proof.
  intros H.
  apply (foldM_seq_inv
           (fun st i => r ← Simple.constraintRow n m cons i;
                        Some (mkState (stTableau st ++ [r])
                                      (stBasic st ++ [Z.of_nat (n + i)]) []))
           (fun k st => stSteps st = [] /\ stBasic st = map Z.of_nat (seq n k) /\
                        length (stTableau st) = k + 1) 0 m _ st0) in H; [done|done|].
  intros k st st' Hk (Hs & Hb & Hl) Hf.
  destruct (Simple.constraintRow n m cons k) as [r|]; [|done].
  simpl in Hf. injection Hf as <-. cbn [stSteps stBasic stTableau]. split; [done|].
  rewrite Hb, seq_S, map_app, length_app. simpl. split; [done|lia].
Qed.

Lemma simple_build_total type n m c cons :
  m <= length cons -> is_Some (Simple.build type n m c cons).
Proof.
  intros Hm.
  destruct (foldM_seq_total
           (fun st i => r ← Simple.constraintRow n m cons i;
                        Some (mkState (stTableau st ++ [r])
                                      (stBasic st ++ [Z.of_nat (n + i)]) []))
           (fun _ _ => True) 0 m (mkState [Simple.objRow type n m c] [] []))
    as (r & Hr & _); [done| |by exists r].
  intros k st Hk _. unfold Simple.constraintRow.
  destruct (lookup_lt_is_Some_2 cons k) as [ci Hci]; [lia|].
  rewrite Hci. simpl. by eexists.
Qed.

(** ** Steps and bases along a run *)

Lemma engine_pivot_stepShape e st st' :
  Forall (stepShape (engineRows e) (engineCols e)) (stSteps st) ->
  engineBody e st = IterPivot st' ->
  Forall (stepShape (engineRows e) (engineCols e)) (stSteps st').
Proof.
  intros HF E.
  destruct (engine_cases e st) as [[E' _] | (j & Hj & [[E' _] | (i & st1 & Hi & E' & s & Hs)])];
    try congruence.
  rewrite E in E'. injection E' as <-.
  destruct Hs as (-> & _ & He & Hp & Hl & Hr & _).
  apply Forall_app. split; [done|]. apply Forall_singleton.
  destruct Hj as [Hj _], Hi as [Hi _]. unfold stepShape. lia.
Qed.

Lemma simple_run_stepShape n m it k st st' :
  Forall (stepShape m (Simple.totalCols n m)) (stSteps st) ->
  afterPivots (simpleBody n m) it k st = Some st' ->
  Forall (stepShape m (Simple.totalCols n m)) (stSteps st').
Proof.
  intros H0 H.
  apply (afterPivots_inv (simpleBody n m)
           (fun st => Forall (stepShape m (Simple.totalCols n m)) (stSteps st)))
    with (k := k) (it := it) (st := st); [|done|done].
  intros it' s1 s2. apply (engine_pivot_stepShape (SimpleEngine n m)).
Qed.

Lemma extended_run_stepShape n m signs method iterStart it k st st' :
  Forall (stepShape m (Extended.totalCols n m signs method)) (stSteps st) ->
  afterPivots (extendedBody n m signs method iterStart) it k st = Some st' ->
  Forall (stepShape m (Extended.totalCols n m signs method)) (stSteps st').
Proof.
  intros H0 H.
  apply (afterPivots_inv (extendedBody n m signs method iterStart)
           (fun st => Forall (stepShape m (Extended.totalCols n m signs method))
                             (stSteps st)))
    with (k := k) (it := it) (st := st); [|done|done].
  intros it' s1 s2.
  apply (engine_pivot_stepShape (ExtendedEngine n m signs method iterStart it')).
Qed.

Lemma simple_loop_stepShape n m fuel st :
  Forall (stepShape m (Simple.totalCols n m)) (stSteps st) ->
  Forall (stepShape m (Simple.totalCols n m)) (stSteps (Simple.loop n m fuel st).1).
Proof.
  intros H0. destruct (simple_loop_spec n m fuel st) as (k & st' & _ & Hrun & Hend).
  assert (E : (Simple.loop n m fuel st).1 = st')
    by (destruct Hend as [[-> _] | [-> _]]; done).
  rewrite E. by eapply simple_run_stepShape.
Qed.

Lemma extended_runLoop_stepShape n m signs method iterStart fuel it st :
  Forall (stepShape m (Extended.totalCols n m signs method)) (stSteps st) ->
  Forall (stepShape m (Extended.totalCols n m signs method))
         (stSteps (Extended.runLoop n m signs method fuel it iterStart st).1).
Proof.
  intros H0.
  destruct (extended_runLoop_spec n m signs method iterStart fuel it st)
    as (k & st' & _ & Hrun & Hend).
  assert (E : (Extended.runLoop n m signs method fuel it iterStart st).1 = st')
    by (destruct Hend as [[-> _] | [-> _]]; done).
  rewrite E. by eapply extended_run_stepShape.
Qed.

(** The steps of a result are those of the state the last loop ended in. *)
Lemma simple_result_steps type n m c cons r :
  Simple.solveSimplex type n m c cons = Some r ->
  exists st0, Simple.build type n m c cons = Some st0 /\
    steps r = stSteps (Simple.loop n m Simple.maxIterations st0).1 /\
    finalBasicVars r = stBasic (Simple.loop n m Simple.maxIterations st0).1.
Proof.
  unfold Simple.solveSimplex.
  destruct (Simple.build type n m c cons) as [st0|]; cbn [mbind option_bind]; [|done].
  intros H. apply (inj Some) in H. subst r. exists st0. split; [done|].
  unfold Simple.finish.
  by destruct (Simple.loop n m Simple.maxIterations st0) as [st []]; simpl.
Qed.

Lemma extended_build_steps type n m c cons signs method st0 :
  Extended.build type n m c cons signs method = Some st0 -> stSteps st0 = [].
Proof.
  unfold Extended.build.
  destruct (Extended.fillConstraints n m cons signs method) as [fs|];
    cbn [mbind option_bind]; [|done].
  intros H. apply (inj Some) in H. by subst st0.
Qed.

Lemma extended_result_stepShape type n m c cons signs method r :
  Extended.solveSimplex type n m c cons signs method = Some r ->
  Forall (stepShape m (Extended.totalCols n m signs method)) (steps r).
Proof.
  unfold Extended.solveSimplex.
  destruct (Extended.build type n m c cons signs method) as [st0|] eqn:Hb;
    cbn [mbind option_bind]; [|done].
  intros H. apply (inj Some) in H. subst r.
  pose proof (extended_build_steps _ _ _ _ _ _ _ _ Hb) as H0.
  assert (H1 : Forall (stepShape m (Extended.totalCols n m signs method))
                 (stSteps (Extended.runSimplexLoop n m signs method st0 0).1)).
  { apply extended_runLoop_stepShape. rewrite H0. constructor. }
  assert (H2 : forall z, Forall (stepShape m (Extended.totalCols n m signs method))
                 (stSteps (Extended.runSimplexLoop n m signs method
                    (Extended.phase2Start type n m c signs method
                       (Extended.runSimplexLoop n m signs method st0 0).1) z).1)).
  { intros z. by apply extended_runLoop_stepShape. }
  unfold Extended.coordinate, Extended.extract.
  destruct method;
    repeat match goal with
      | |- context [if ?b then _ else _] => destruct b
      end; cbn [steps abortResult optimalResult];
    lazymatch goal with
    | |- context [Extended.phase2Start] => apply H2
    | _ => apply H1
    end.
Qed.

Lemma simple_result_stepShape type n m c cons r :
  Simple.solveSimplex type n m c cons = Some r ->
  Forall (stepShape m (Simple.totalCols n m)) (steps r).
Proof.
  intros H. destruct (simple_result_steps _ _ _ _ _ _ H) as (st0 & Hb & -> & _).
  apply simple_loop_stepShape.
  destruct (simple_build_shape _ _ _ _ _ _ Hb) as (-> & _). constructor.
Qed.

(** ** The step field [leavingVar] (C10) *)

Lemma recordsBasisBefore_snoc b0 ss b s :
  recordsBasisBefore b0 ss b -> basicVars s = b ->
  recordsBasisBefore b0 (ss ++ [s]) (<[Z.to_nat (pivotRow s - 1) := pivotCol s]> b).
Proof.
  revert b0. induction ss as [|s0 ss IH]; intros b0; simpl.
  - intros -> ->. done.
  - intros [-> H] Hs. split; [done|]. by apply IH.
Qed.

Lemma simple_pivot_trace n m b0 st st' :
  simpleTrace n m b0 st -> Simple.loopBody n m st = IterPivot st' ->
  simpleTrace n m b0 st'.
Proof.
  intros [Hrec Hdesc] E.
  destruct (simple_pivot_inv n m st st' E) as (i & j & _ & [Hi _] & ->).
  split; simpl.
  - replace (i - 1) with (Z.to_nat (pivotRow (simpleStep n m st i j) - 1))
      by (simpl; lia).
    by apply recordsBasisBefore_snoc.
  - apply Forall_app. split; [done|]. by apply Forall_singleton.
Qed.

Lemma simple_loop_trace n m b0 fuel st :
  simpleTrace n m b0 st -> simpleTrace n m b0 (Simple.loop n m fuel st).1.
Proof.
  intros H0. destruct (simple_loop_spec n m fuel st) as (k & st' & _ & Hrun & Hend).
  assert (E : (Simple.loop n m fuel st).1 = st')
    by (destruct Hend as [[-> _] | [-> _]]; done).
  rewrite E.
  apply (afterPivots_inv (simpleBody n m) (simpleTrace n m b0))
    with (k := k) (it := 0) (st := st); [|done|done].
  intros it' s1 s2. apply simple_pivot_trace.
Qed.

(** X23: in every step of a result of either variant [leavingVar] equals
    [pivotRow], the 1-based index of the pivot's constraint row.  In the
    simple variant the variable that leaves is the pivot row's entry of the
    step's [basicVars] (the recorded bases form the history of the basis,
    each next one overwriting that entry with the pivot column) and the
    description names it after [Leave]. *)
Lemma leavingVar_is_pivotRow (m : nat) (r : SimplexResult) (s : SimplexStep) :
  producedBy m r -> s ∈ steps r ->
  leavingVar s = pivotRow s /\ (1 <= pivotRow s <= Z.of_nat m)%Z /\
  forall type n c cons, Simple.solveSimplex type n m c cons = Some r ->
    recordsBasisBefore (map Z.of_nat (seq n m)) (steps r) (finalBasicVars r) /\
    description s = Simple.describe n m (basicVars s) (pivotRow s) (pivotCol s).
Proof.
  intros Hr Hs.
  assert (Hshape : exists cols, Forall (stepShape m cols) (steps r)).
  { destruct Hr as [(type & n & c & cons & H) | (type & n & c & cons & signs & method & H)].
    - eexists. by eapply simple_result_stepShape.
    - eexists. by eapply extended_result_stepShape. }
  destruct Hshape as (cols & Hshape).
  rewrite Forall_forall in Hshape. destruct (Hshape s Hs) as (Hl & _ & Hp & _).
  split; [done|]. split; [done|].
  intros type n c cons H.
  destruct (simple_result_steps _ _ _ _ _ _ H) as (st0 & Hb & Hsteps & Hbasic).
  destruct (simple_build_shape _ _ _ _ _ _ Hb) as (Hs0 & Hb0 & _).
  destruct (simple_loop_trace n m (map Z.of_nat (seq n m)) Simple.maxIterations st0)
    as [Hrec Hdesc].
  { split; rewrite Hs0; [by simpl|constructor]. }
  rewrite Hsteps, Hbasic. split; [done|].
  rewrite Forall_forall in Hdesc. apply Hdesc. by rewrite <- Hsteps.
Qed.

Lemma leavingVar_is_pivotRow_witness :
  leavingVar exampleStep = pivotRow exampleStep /\
  (1 <= pivotRow exampleStep <= 3)%Z /\
  forall type n c cons, Simple.solveSimplex type n 3 c cons = Some exampleResult ->
    recordsBasisBefore (map Z.of_nat (seq n 3)) (steps exampleResult)
                       (finalBasicVars exampleResult) /\
    description exampleStep =
      Simple.describe n 3 (basicVars exampleStep) (pivotRow exampleStep)
                      (pivotCol exampleStep).
Proof.
  apply (leavingVar_is_pivotRow 3 exampleResult exampleStep).
  - left. exists Max, 2, exampleObjective, exampleConstraints. by vm_compute.
  - vm_compute. left.
Defined.

(** C10 (the extended variant departs from it): on the documented example,
    solved by the extended variant with method standard, the first step has
    [leavingVar = pivotRow = 2]; the basic variable of row 2 that leaves is
    3, but the pivot row's entry of the step's [basicVars] is the entering
    variable 1, and 3 occurs neither in a step's [basicVars] nor in
    [finalBasicVars]: the variable that leaves is in no recorded basis. *)
Theorem extended_steps_omit_leaving_variable :
  exists st0 r s,
    Extended.build Max 2 3 exampleObjective exampleConstraints exampleSigns
                   Extended.Standard = Some st0 /\
    Extended.solveSimplex Max 2 3 exampleObjective exampleConstraints exampleSigns
                          Extended.Standard = Some r /\
    head (steps r) = Some s /\ leavingVar s = pivotRow s /\ pivotRow s = 2%Z /\
    basicAt (stBasic st0) (Z.to_nat (pivotRow s - 1)) = 3%Z /\
    basicAt (basicVars s) (Z.to_nat (pivotRow s - 1)) = pivotCol s /\
    pivotCol s = 1%Z /\
    forallb (fun s' => negb (existsb (Z.eqb 3) (basicVars s'))) (steps r) = true /\
    existsb (Z.eqb 3) (finalBasicVars r) = false.
Proof.
  eexists _, _, _. split; [by vm_compute|]. split; [by vm_compute|].
  split; [by vm_compute|]. by vm_compute.
Qed.

(** ** The leaving row (C6) *)

Lemma SFltb_total x y b :
  SFltb x b = true -> SFltb y b = true ->
  SFltb x y = false -> SFltb y x = false -> SFeqb x y = true.
Proof.
  unfold SFltb, SFeqb, SFcompare.
  destruct x as [[]|[]| |[] mx ex], y as [[]|[]| |[] my ey], b as [[]|[]| |[] mb eb];
    try (intros; congruence); intros H1 H2 H3 H4; FloatOrder.cases_cmp.
Qed.

Lemma ltb_total (x y b : float) :
  (x <? b)%float = true -> (y <? b)%float = true ->
  (x <? y)%float = false -> (y <? x)%float = false -> (x =? y)%float = true.
Proof. rewrite FloatAxioms.eqb_spec, !ltb_spec. apply SFltb_total. Qed.

(** The scan determines its result: there is one first least candidate. *)
Lemma firstLeast_unique val bound a n i i' :
  firstLeast val bound a n i -> firstLeast val bound a n i' -> i = i'.
Proof.
  assert (G : forall i i', firstLeast val bound a n i -> firstLeast val bound a n i' ->
                           ~ i < i').
  { clear i i'. intros i i' (Hr & v & Hv & Hb & Hmin & _) (Hr' & v' & Hv' & Hb' & Hmin' & Htie') Hlt.
    assert (E : (v =? v')%float = true).
    { apply (ltb_total v v' bound); [done|done| |].
      - by apply (Hmin' i v).
      - by apply (Hmin i' v'). }
    rewrite (Htie' i v) in E; [done|lia|done]. }
  intros H H'. pose proof (G i i' H H'). pose proof (G i' i H' H). lia.
Qed.

Lemma engine_unbounded_iff e st :
  engineBody e st = IterUnbounded <->
  exists j, firstLeast (colValue (stTableau st)) (enterBound e) 0 (engineCols e - 1) j /\
            noneBelow (rowValue (ratioBound e) (stTableau st) (engineCols e) j)
                      infinity 1 (engineRows e).
Proof.
  destruct (engine_cases e st) as [[E Hnone] | (j & Hj & Hrest)].
  - split; [congruence|]. intros (j & Hj & _).
    by destruct (firstLeast_not_noneBelow _ _ _ _ _ Hj).
  - split.
    + intros E. exists j. split; [done|].
      destruct Hrest as [[_ H] | (i & st' & _ & E' & _)]; [done|congruence].
    + intros (j' & Hj' & Hnone).
      rewrite <- (firstLeast_unique _ _ _ _ _ _ Hj Hj') in Hnone.
      destruct Hrest as [[E _] | (i & st' & Hi & _)]; [done|].
      by destruct (firstLeast_not_noneBelow _ _ _ _ _ Hi).
Qed.

Lemma simple_solve_unbounded type n m c cons st0 k st :
  Simple.build type n m c cons = Some st0 ->
  afterPivots (simpleBody n m) 0 k st0 = Some st -> k < 100 ->
  Simple.loopBody n m st = IterUnbounded ->
  Simple.solveSimplex type n m c cons =
    Some (abortResult Unbounded (Simple.names n m) st).
Proof.
  intros Hb Hrun Hk E. unfold Simple.solveSimplex. rewrite Hb. cbn [mbind option_bind].
  rewrite (simple_loop_unbounded n m Simple.maxIterations 0 k st0 st Hrun);
    [done|by rewrite simple_cap|done].
Qed.

Lemma extended_runSimplexLoop_unbounded n m signs method iterStart k st st' :
  afterPivots (extendedBody n m signs method iterStart) 0 k st = Some st' -> k < 50 ->
  Extended.loopBody n m signs method iterStart k st' = IterUnbounded ->
  Extended.runSimplexLoop n m signs method st iterStart = (st', (-1)%Z).
Proof.
  intros Hrun Hk E. unfold Extended.runSimplexLoop.
  apply (extended_runLoop_unbounded n m signs method iterStart
           Extended.maxIterations 0 k st st' Hrun); [by rewrite extended_cap|done].
Qed.

Lemma engine_unboundedExit e st :
  engineBody e st = IterUnbounded -> unboundedExit e st.
Proof.
  destruct e as [n m | n m signs method iterStart it]; simpl; intros E.
  - intros type c cons st0 k Hb Hrun Hk.
    by rewrite (simple_solve_unbounded type n m c cons st0 k st).
  - intros type c cons st0 Hb Hit Hstart Hrun.
    unfold Extended.solveSimplex. rewrite Hb. cbn [mbind option_bind].
    unfold Extended.coordinate.
    destruct method.
    + subst iterStart.
      by rewrite (extended_runSimplexLoop_unbounded n m signs _ 0 it st0 st Hrun Hit E).
    + subst iterStart.
      by rewrite (extended_runSimplexLoop_unbounded n m signs _ 0 it st0 st Hrun Hit E).
    + destruct Hstart as [-> Hfeas]. rewrite Hfeas.
      by rewrite (extended_runSimplexLoop_unbounded n m signs _ _ it _ st Hrun Hit E).
Qed.

(** C6, as the code has it: in every iteration of either variant the
    leaving row is, among the constraint rows [1..m] whose pivot-column
    entry exceeds the bound of the variant and whose ratio [rhs / entry] is
    below [Infinity], the first one with the least ratio; the bound is [0]
    in the simple variant and [1e-9] in the extended one.  The iteration
    ends Unbounded exactly when a column was chosen and no row qualifies,
    and then (in the simple variant, with methods standard and bigM, and in
    the second run of the two-phase method) the solve returns status
    Unbounded with the steps recorded so far, an empty solution and optimal
    value 0. *)
Theorem leaving_row_rule (e : Engine) (st : State) :
  (forall st', engineBody e st = IterPivot st' ->
     exists s i j,
       stSteps st' = stSteps st ++ [s] /\
       pivotCol s = Z.of_nat j /\ pivotRow s = Z.of_nat i /\
       firstLeast (rowValue (ratioBound e) (stTableau st) (engineCols e) j)
                  infinity 1 (engineRows e) i) /\
  (engineBody e st = IterUnbounded <->
   exists j, firstLeast (colValue (stTableau st)) (enterBound e) 0 (engineCols e - 1) j /\
             noneBelow (rowValue (ratioBound e) (stTableau st) (engineCols e) j)
                       infinity 1 (engineRows e)) /\
  (engineBody e st = IterUnbounded -> unboundedExit e st) /\
  ratioBound e = match e with
                 | SimpleEngine _ _ => 0%float
                 | ExtendedEngine _ _ _ _ _ _ => tol9
                 end.
Proof.
  split; [|split; [apply engine_unbounded_iff|split; [apply engine_unboundedExit|by destruct e]]].
  intros st' E.
  destruct (engine_cases e st)
    as [[E' _] | (j & Hj & [[E' _] | (i & st1 & Hi & E' & s & Hs & _ & _ & Hc & _ & Hr & _)])];
    try congruence.
  rewrite E in E'. injection E' as ->. by exists s, i, j.
Qed.

(** In the extended variant a pivot-column entry of [1e-10], strictly
    positive, does not make its row a leaving row: the solve of
    maximize [x1] subject to [1e-10 x1 <= 1] ends Unbounded. *)
Lemma extended_skips_small_positive_entry :
  exists st0 r,
    Extended.build Max 1 1 [1%float] [[tenthOfTol; 1%float]] ["<="%string]
                   Extended.Standard = Some st0 /\
    findPivotCol (- tol9)%float (stTableau st0)
                 (Extended.totalCols 1 1 ["<="%string] Extended.Standard) = 0%Z /\
    (0 <? cell (stTableau st0) 1 0)%float = true /\
    engineBody (ExtendedEngine 1 1 ["<="%string] Extended.Standard 0 0) st0
      = IterUnbounded /\
    Extended.solveSimplex Max 1 1 [1%float] [[tenthOfTol; 1%float]] ["<="%string]
                          Extended.Standard = Some r /\
    status r = Unbounded.
Proof.
  eexists _, _. split; [by vm_compute|]. split; [by vm_compute|].
  split; [by vm_compute|]. split; [by vm_compute|]. split; by vm_compute.
Qed.

(** ** The two-phase coordinator (C5) *)

Lemma extended_fillRow_total n m cons signs method fs i :
  i < length cons -> is_Some (Extended.fillRow n m cons signs method fs i).
Proof.
  intros Hi. destruct (lookup_lt_is_Some_2 cons i Hi) as [ci Hci].
  unfold Extended.fillRow. rewrite Hci. cbn [mbind option_bind].
  repeat match goal with
    | |- context [if ?b then _ else _] => destruct b
    end; by eexists.
Qed.

Lemma extended_build_total type n m c cons signs method :
  m <= length cons -> is_Some (Extended.build type n m c cons signs method).
Proof.
  intros Hm. unfold Extended.build, Extended.fillConstraints.
  destruct (foldM_seq_total (Extended.fillRow n m cons signs method) (fun _ _ => True) 0 m
              (Extended.mkFill
                 (replicate (Extended.numRows m)
                            (replicate (Extended.totalCols n m signs method) 0%float))
                 (replicate m (-1)%Z) n (n + Extended.slackSurplusCount m signs)))
    as (fs & Hfs & _); [done| |].
  - intros k fs Hk _.
    destruct (extended_fillRow_total n m cons signs method fs k) as [fs' Hfs']; [lia|].
    by exists fs'.
  - rewrite Hfs. cbn [mbind option_bind]. by eexists.
Qed.



(** ** Reading a tableau after the loops that write it *)

Lemma rd_insert_eq (l : list float) j v : j < length l -> rd (<[j := v]> l) j = v.
Proof. intros H. unfold rd. by rewrite list_lookup_insert_eq. Qed.

Lemma rd_insert_ne (l : list float) j k v : j <> k -> rd (<[j := v]> l) k = rd l k.
Proof. intros H. unfold rd. by rewrite list_lookup_insert_ne. Qed.

Lemma rowAt_setCell_eq t i j v :
  i < length t -> rowAt (setCell t i j v) i = <[j := v]> (rowAt t i).
Proof. intros H. unfold rowAt at 1, setCell. by rewrite list_lookup_insert_eq. Qed.

Lemma rowAt_setCell_ne t i i' j v : i <> i' -> rowAt (setCell t i j v) i' = rowAt t i'.
Proof. intros H. unfold rowAt at 1, setCell. by rewrite list_lookup_insert_ne. Qed.

Lemma length_setCell t i j v : length (setCell t i j v) = length t.
Proof. unfold setCell. apply length_insert. Qed.

Lemma length_rowAt_setCell t i i' j v :
  length (rowAt (setCell t i j v) i') = length (rowAt t i').
Proof.
  destruct (decide (i = i')) as [<-|Hne]; [|by rewrite rowAt_setCell_ne].
  destruct (decide (i < length t)) as [Hi|Hi].
  - by rewrite rowAt_setCell_eq, length_insert.
  - unfold setCell. rewrite list_insert_ge; [done|lia].
Qed.

Lemma cell_setCell_eq t i j v :
  i < length t -> j < length (rowAt t i) -> cell (setCell t i j v) i j = v.
Proof. intros Hi Hj. unfold cell. rewrite rowAt_setCell_eq by done. by apply rd_insert_eq. Qed.

Lemma cell_setCell_ne t i j i' j' v :
  (i, j) <> (i', j') -> cell (setCell t i j v) i' j' = cell t i' j'.
Proof.
  intros Hne. unfold cell.
  destruct (decide (i = i')) as [<-|Hi]; [|by rewrite rowAt_setCell_ne].
  destruct (decide (i < length t)) as [Hl|Hl].
  - rewrite rowAt_setCell_eq by done. apply rd_insert_ne. congruence.
  - unfold setCell. rewrite list_insert_ge; [done|lia].
Qed.

Lemma shaped_setCell rows cols t i j v :
  shaped rows cols t -> shaped rows cols (setCell t i j v).
Proof.
  intros [Hl Hr]. split; [by rewrite length_setCell|].
  intros i' Hi'. rewrite length_rowAt_setCell. by apply Hr.
Qed.

(** A loop over the columns [[s, s + n)] of row [i] that overwrites each
    cell with a value computed from that cell and from other rows. *)
Lemma fold_row_update (G : list (list float) -> nat -> float) (h : nat -> float -> float)
    t i s n :
  i < length t -> s + n <= length (rowAt t i) ->
  (forall t' j, (forall i', i' <> i -> rowAt t' i' = rowAt t i') ->
                G t' j = h j (cell t' i j)) ->
  let t' := fold_left (fun t j => setCell t i j (G t j)) (seq s n) t in
  length t' = length t /\
  (forall i', length (rowAt t' i') = length (rowAt t i')) /\
  (forall i', i' <> i -> rowAt t' i' = rowAt t i') /\
  (forall j, cell t' i j = if decide (s <= j < s + n) then h j (cell t i j) else cell t i j).
Proof.
  intros Hi Hlen HG. cbv zeta. induction n as [|n IH].
  - simpl. split; [done|]. split; [done|]. split; [done|]. intros j.
    destruct (decide (s <= j < s + 0)); [lia|done].
  - destruct IH as (Hl & Hrl & Hother & Hcell); [lia|].
    rewrite seq_S, fold_left_app. simpl.
    set (t1 := fold_left (fun t j => setCell t i j (G t j)) (seq s n) t) in *.
    split; [by rewrite length_setCell|].
    split; [intros i'; by rewrite length_rowAt_setCell|].
    split; [intros i' Hne; by rewrite rowAt_setCell_ne; [apply Hother|]|].
    intros j. destruct (decide (j = s + n)) as [->|Hne].
    + rewrite cell_setCell_eq; [|lia|rewrite Hrl; lia].
      rewrite (HG t1 (s + n) Hother), Hcell.
      destruct (decide (s <= s + n < s + n)); [lia|].
      destruct (decide (s <= s + n < s + S n)); [done|lia].
    + rewrite cell_setCell_ne by congruence. rewrite Hcell.
      destruct (decide (s <= j < s + n)), (decide (s <= j < s + S n)); try done; lia.
Qed.

Lemma cell_other_row t t' i j :
  rowAt t' i = rowAt t i -> cell t' i j = cell t i j.
Proof. unfold cell. by intros ->. Qed.

Lemma shaped_of_lengths rows cols t t' :
  shaped rows cols t -> length t' = length t ->
  (forall i, length (rowAt t' i) = length (rowAt t i)) -> shaped rows cols t'.
Proof.
  intros [Hl Hr] Hl' Hr'. split; [congruence|]. intros i Hi. rewrite Hr'. by apply Hr.
Qed.

(** [normalizeRow] divides the pivot row and nothing else. *)
Lemma normalizeRow_spec rows cols t pr pe :
  shaped rows cols t -> pr < rows ->
  let t' := normalizeRow t cols pr pe in
  shaped rows cols t' /\
  forall i j, cell t' i j =
    if decide (i = pr /\ j < cols) then (cell t pr j / pe)%float else cell t i j.
Proof.
  intros Hs Hpr. pose proof Hs as [Hl Hr].
  destruct (fold_row_update (fun t j => (cell t pr j / pe)%float)
              (fun _ x => (x / pe)%float) t pr 0 cols)
    as (Hl' & Hrl & Hother & Hcell); [lia|rewrite Hr; lia|done|].
  split; [by eapply shaped_of_lengths|].
  intros i j. unfold normalizeRow. destruct (decide (i = pr)) as [->|Hne].
  - rewrite Hcell. destruct (decide (0 <= j < 0 + cols)), (decide (pr = pr /\ j < cols));
      try done; lia.
  - rewrite (cell_other_row t _ i j) by (by apply Hother).
    destruct (decide (i = pr /\ j < cols)); [lia|done].
Qed.

(** [subtractRow] changes row [i] and nothing else. *)
Lemma subtractRow_spec rows cols t pr i factor :
  shaped rows cols t -> i < rows -> i <> pr ->
  let t' := subtractRow cols pr i factor t in
  shaped rows cols t' /\
  forall i' j, cell t' i' j =
    if decide (i' = i /\ j < cols) then (cell t i j - factor * cell t pr j)%float
    else cell t i' j.
Proof.
  intros Hs Hi Hne. pose proof Hs as [Hl Hr].
  destruct (fold_row_update (fun t j => (cell t i j - factor * cell t pr j)%float)
              (fun j x => (x - factor * cell t pr j)%float) t i 0 cols)
    as (Hl' & Hrl & Hother & Hcell); [lia|rewrite Hr; lia| |].
  { intros t' j Ht'. by rewrite (cell_other_row t t' pr j) by (apply Ht'; congruence). }
  split; [by eapply shaped_of_lengths|].
  intros i' j. unfold subtractRow. destruct (decide (i' = i)) as [->|Hne'].
  - rewrite Hcell. destruct (decide (0 <= j < 0 + cols)), (decide (i = i /\ j < cols));
      try done; lia.
  - rewrite (cell_other_row t _ i' j) by (by apply Hother).
    destruct (decide (i' = i /\ j < cols)); [lia|done].
Qed.

(** [eliminateRows] subtracts from every row but the pivot row its multiple
    of the pivot row. *)
Lemma eliminateRows_spec rows cols t pr pc k :
  shaped rows cols t -> k <= rows ->
  let t' := fold_left (fun t i =>
                         if decide (i = pr) then t
                         else subtractRow cols pr i (cell t i pc) t) (seq 0 k) t in
  shaped rows cols t' /\
  forall i j, cell t' i j =
    if decide (i <> pr /\ i < k /\ j < cols)
    then (cell t i j - cell t i pc * cell t pr j)%float
    else cell t i j.
Proof.
  intros Hs. cbv zeta. induction k as [|k IH]; intros Hk.
  - simpl. split; [done|]. intros i j.
    destruct (decide (i <> pr /\ i < 0 /\ j < cols)); [lia|done].
  - destruct IH as [Hs1 Hcell]; [lia|]. rewrite seq_S, fold_left_app. simpl.
    set (t1 := fold_left _ (seq 0 k) t) in *.
    destruct (decide (k = pr)) as [->|Hne].
    + split; [done|]. intros i j. rewrite Hcell.
      destruct (decide (i <> pr /\ i < pr /\ j < cols)),
               (decide (i <> pr /\ i < S pr /\ j < cols)); try done; lia.
    + destruct (subtractRow_spec rows cols t1 pr k (cell t1 k pc) Hs1) as [Hs2 Hcell2];
        [lia|done|].
      split; [done|]. intros i j. rewrite Hcell2.
      destruct (decide (i = k /\ j < cols)) as [[-> Hj]|Hn].
      * rewrite !Hcell.
        destruct (decide (k <> pr /\ k < k /\ j < cols)); [lia|].
        destruct (decide (k <> pr /\ k < k /\ pc < cols)); [lia|].
        destruct (decide (pr <> pr /\ pr < k /\ j < cols)); [lia|].
        destruct (decide (k <> pr /\ k < S k /\ j < cols)); [done|lia].
      * rewrite Hcell.
        destruct (decide (i <> pr /\ i < k /\ j < cols)),
                 (decide (i <> pr /\ i < S k /\ j < cols)); try done; lia.
Qed.

(** The Gauss-Jordan pivot, cell by cell. *)
Lemma pivotTableau_spec rows cols t pr pc :
  shaped rows cols t -> pr < rows -> pc < cols ->
  let t' := pivotTableau t rows cols pr pc in
  let p j := (cell t pr j / cell t pr pc)%float in
  shaped rows cols t' /\
  forall i j, i < rows -> j < cols ->
    cell t' i j = if decide (i = pr) then p j
                  else (cell t i j - cell t i pc * p j)%float.
Proof.
  intros Hs Hpr Hpc. cbv zeta. unfold pivotTableau.
  destruct (normalizeRow_spec rows cols t pr (cell t pr pc) Hs Hpr) as [Hs1 Hc1].
  destruct (eliminateRows_spec rows cols (normalizeRow t cols pr (cell t pr pc)) pr pc rows Hs1)
    as [Hs2 Hc2]; [lia|].
  split; [done|]. intros i j Hi Hj. unfold eliminateRows. rewrite Hc2, !Hc1.
  destruct (decide (i = pr)) as [->|Hne].
  - destruct (decide (pr <> pr /\ pr < rows /\ j < cols)); [lia|].
    destruct (decide (pr = pr /\ j < cols)); [done|lia].
  - destruct (decide (i <> pr /\ i < rows /\ j < cols)); [|lia].
    destruct (decide (i = pr /\ j < cols)); [lia|].
    destruct (decide (i = pr /\ pc < cols)); [lia|].
    destruct (decide (pr = pr /\ j < cols)); [done|lia].
Qed.

(** ** The loops over a row, as list operations *)

Lemma setCell_as_insert t r j v : setCell t r j v = <[r := <[j := v]> (rowAt t r)]> t.
Proof. reflexivity. Qed.

Lemma rowAt_insert_eq t r row : r < length t -> rowAt (<[r := row]> t) r = row.
Proof. intros H. unfold rowAt. by rewrite list_lookup_insert_eq. Qed.

Lemma rowAt_insert_ne t r r' row : r <> r' -> rowAt (<[r := row]> t) r' = rowAt t r'.
Proof. intros H. unfold rowAt. by rewrite list_lookup_insert_ne. Qed.

Lemma insert_rowAt_id t r : <[r := rowAt t r]> t = t.
Proof.
  unfold rowAt. destruct (t !! r) as [row|] eqn:E; simpl.
  - by apply list_insert_id.
  - apply list_insert_ge. by apply lookup_ge_None.
Qed.

(** A loop that writes cells of row [r] only is a loop on that row. *)
Lemma fold_setCell_row (G : list float -> nat -> float) t r js :
  fold_left (fun t j => setCell t r j (G (rowAt t r) j)) js t =
  <[r := fold_left (fun row j => <[j := G row j]> row) js (rowAt t r)]> t.
Proof.
  revert t. induction js as [|j js IH]; intros t; simpl.
  - by rewrite insert_rowAt_id.
  - rewrite IH. destruct (decide (r < length t)) as [Hr|Hr].
    + rewrite setCell_as_insert, rowAt_insert_eq by done.
      by rewrite list_insert_insert_eq.
    + rewrite (list_insert_ge (setCell t r j _)) by (rewrite length_setCell; lia).
      rewrite (list_insert_ge t) by lia.
      unfold setCell. by rewrite list_insert_ge by lia.
Qed.

(** Writing [g 0 .. g (n - 1)] into the first [n] cells of a constant row. *)
Lemma fold_insert_replicate (g : nat -> float) (z : float) cols n :
  n <= cols ->
  fold_left (fun row j => <[j := g j]> row) (seq 0 n) (replicate cols z) =
  map g (seq 0 n) ++ replicate (cols - n) z.
Proof.
  induction n as [|n IH]; intros Hn.
  - simpl. by rewrite Nat.sub_0_r.
  - rewrite seq_S, fold_left_app, IH by lia. simpl.
    rewrite map_app. simpl. rewrite <- app_assoc. simpl.
    replace (cols - n) with (S (cols - S n)) by lia. simpl.
    rewrite insert_app_r_alt by (rewrite length_map, length_seq; lia).
    rewrite length_map, length_seq, Nat.sub_diag. done.
Qed.

(** Rewriting every cell of a row from its own value is a [map]. *)
Lemma fold_insert_map (f : float -> float) (row : list float) k :
  k <= length row ->
  fold_left (fun row j => <[j := f (rd row j)]> row) (seq 0 k) row =
  map f (take k row) ++ drop k row.
Proof.
  induction k as [|k IH]; intros Hk.
  - simpl. by rewrite drop_0.
  - rewrite seq_S, fold_left_app, IH by lia. simpl.
    destruct (lookup_lt_is_Some_2 row k) as [x Hx]; [lia|].
    assert (Hrd : rd (map f (take k row) ++ drop k row) k = x).
    { unfold rd. rewrite lookup_app_r by (rewrite length_map, length_take; lia).
      rewrite length_map, length_take, Nat.min_l by lia.
      rewrite Nat.sub_diag, lookup_drop, Nat.add_0_r, Hx. done. }
    rewrite Hrd.
    rewrite insert_app_r_alt by (rewrite length_map, length_take; lia).
    rewrite length_map, length_take, Nat.min_l by lia. rewrite Nat.sub_diag.
    rewrite (drop_S row x k Hx). simpl.
    rewrite (take_S_r row k x Hx), map_app. simpl. by rewrite <- app_assoc.
Qed.

Lemma fold_insert_map_all (f : float -> float) (row : list float) :
  fold_left (fun row j => <[j := f (rd row j)]> row) (seq 0 (length row)) row = map f row.
Proof.
  rewrite fold_insert_map by done. by rewrite firstn_all, drop_all, app_nil_r.
Qed.

(** ** The constraint rows of the extended variant *)

Lemma slackBefore_S signs k :
  slackBefore signs (S k) =
  slackBefore signs k +
  (if Extended.signIs signs k "<=" || Extended.signIs signs k ">=" then 1 else 0).
Proof.
  unfold slackBefore. rewrite seq_S, List.filter_app, length_app. simpl.
  by destruct (Extended.signIs signs k "<=" || Extended.signIs signs k ">=").
Qed.

Lemma artBefore_S signs k :
  artBefore signs (S k) =
  artBefore signs k +
  (if negb (Extended.signIs signs k "<=") &&
      (Extended.signIs signs k ">=" || Extended.signIs signs k "=") then 1 else 0).
Proof.
  unfold artBefore. rewrite seq_S, List.filter_app, length_app. simpl.
  by destruct (negb (Extended.signIs signs k "<=") &&
               (Extended.signIs signs k ">=" || Extended.signIs signs k "=")).
Qed.

Lemma length_baseRow n cols ci : n <= cols -> length (baseRow n cols ci) = cols.
Proof.
  intros H. unfold baseRow.
  rewrite length_insert, length_app, length_map, length_seq, length_replicate. lia.
Qed.

Lemma rowAt_replicate rows (row : list float) i : i < rows -> rowAt (replicate rows row) i = row.
Proof. intros H. unfold rowAt. by rewrite lookup_replicate_2. Qed.

(** The writes of [fillRow] before its case distinction leave [baseRow]. *)
Lemma fill_base n cols t rowIdx ci :
  n <= cols -> rowAt t rowIdx = replicate cols 0%float -> rowIdx < length t ->
  setCell (fold_left (fun t j => setCell t rowIdx j (rd ci j)) (seq 0 n) t)
          rowIdx (cols - 1) (rd ci n)
  = <[rowIdx := baseRow n cols ci]> t.
Proof.
  intros Hn Hrow Hr.
  rewrite (fold_setCell_row (fun _ j => rd ci j) t rowIdx (seq 0 n)).
  rewrite Hrow, fold_insert_replicate by done.
  rewrite setCell_as_insert, rowAt_insert_eq by done.
  by rewrite list_insert_insert_eq.
Qed.

Lemma negateRow_insert n m signs method t rowIdx row :
  rowIdx < length t -> length row = Extended.totalCols n m signs method ->
  Extended.negateRow n m signs method (<[rowIdx := row]> t) rowIdx
  = <[rowIdx := negated row]> t.
Proof.
  intros Hr Hlen. unfold Extended.negateRow.
  rewrite (fold_setCell_row (fun row j => (rd row j * -1)%float)).
  rewrite rowAt_insert_eq by done.
  rewrite <- Hlen, (fold_insert_map_all (fun x => (x * -1)%float)).
  by rewrite list_insert_insert_eq.
Qed.

Lemma setCell_insert t r row j v :
  r < length t -> setCell (<[r := row]> t) r j v = <[r := <[j := v]> row]> t.
Proof.
  intros Hr. rewrite setCell_as_insert, rowAt_insert_eq by done.
  by rewrite list_insert_insert_eq.
Qed.

Lemma totalCols_ge n m signs method : n + 1 <= Extended.totalCols n m signs method.
Proof. unfold Extended.totalCols. lia. Qed.

Lemma fillRow_spec n m cons signs method k fs ci :
  fillInv n m cons signs method k fs -> k < m -> cons !! k = Some ci ->
  exists fs', Extended.fillRow n m cons signs method fs k = Some fs' /\
              fillInv n m cons signs method (S k) fs'.
Proof.
  intros (Hlt & Hlb & Hslack & Hart & Hrow0 & Hdone & Htodo) Hk Hci.
  pose proof (totalCols_ge n m signs method) as Hcols.
  set (cols := Extended.totalCols n m signs method) in *.
  destruct (Htodo k) as [Hrowk Hbk]; [lia|].
  assert (Hr : k + 1 < length (Extended.fTableau fs))
    by (rewrite Hlt; unfold Extended.numRows; lia).
  assert (Hbase : length (baseRow n cols ci) = cols) by (apply length_baseRow; lia).
  (* the state that [fillRow] returns, in closed form *)
  exists (Extended.mkFill
            (<[k + 1 := filledRow n m signs method k ci]> (Extended.fTableau fs))
            (if decide (filledBasic n m signs method k = (-1)%Z) then Extended.fBasic fs
             else <[k := filledBasic n m signs method k]> (Extended.fBasic fs))
            (slackCol n signs (S k))
            (if Extended.useArtificials method then artCol n m signs (S k)
             else n + Extended.slackSurplusCount m signs)).
  split.
  - unfold Extended.fillRow. rewrite Hci. cbn [mbind option_bind]. fold cols.
    rewrite (fill_base n cols _ (k + 1) ci) by (done || lia).
    unfold filledRow, filledBasic, slackCol, artCol. fold cols.
    rewrite slackBefore_S, artBefore_S. rewrite Hslack, Hart.
    unfold slackCol, artCol.
    destruct method; simpl;
      destruct (Extended.signIs signs k "<="), (Extended.signIs signs k ">="),
               (Extended.signIs signs k "="); simpl;
      rewrite ?negateRow_insert, ?setCell_insert, ?Nat.add_0_r, ?Nat.add_1_r,
              <- ?Nat.add_succ_r, ?Nat.add_assoc by done;
      repeat match goal with
        | |- context [decide (?a = ?b)] => destruct (decide (a = b)); try lia
        end;
      try reflexivity; f_equal; f_equal; lia.
  - assert (Hb' : forall i, i <> k ->
      (if decide (filledBasic n m signs method k = (-1)%Z) then Extended.fBasic fs
       else <[k := filledBasic n m signs method k]> (Extended.fBasic fs)) !! i
      = Extended.fBasic fs !! i).
    { intros i Hi. destruct (decide _); [done|]. by rewrite list_lookup_insert_ne. }
    assert (Hbk' :
      (if decide (filledBasic n m signs method k = (-1)%Z) then Extended.fBasic fs
       else <[k := filledBasic n m signs method k]> (Extended.fBasic fs)) !! k
      = Some (filledBasic n m signs method k)).
    { destruct (decide _) as [->|_]; [done|]. rewrite list_lookup_insert_eq; [done|lia]. }
    unfold fillInv. cbn [Extended.fTableau Extended.fBasic Extended.fSlack Extended.fArt].
    fold cols. split; [by rewrite length_insert|]. split.
    { destruct (decide _); [done|]. by rewrite length_insert. }
    split; [done|]. split; [done|].
    split; [rewrite rowAt_insert_ne by lia; done|]. split.
    + intros i Hi. destruct (decide (i = k)) as [->|Hne].
      * exists ci. split; [done|]. by rewrite rowAt_insert_eq.
      * destruct (Hdone i) as (ci' & Hci' & Hrow' & Hb''); [lia|].
        exists ci'. split; [done|]. rewrite rowAt_insert_ne by lia.
        by rewrite Hb'.
    + intros i Hi. destruct (Htodo i) as [Hrow' Hb'']; [lia|].
      rewrite rowAt_insert_ne by lia. rewrite Hb' by lia. done.
Qed.

Lemma fillConstraints_spec n m cons signs method :
  m <= length cons ->
  exists fs, Extended.fillConstraints n m cons signs method = Some fs /\
             fillInv n m cons signs method m fs.
Proof.
  intros Hm. unfold Extended.fillConstraints.
  apply (foldM_seq_total (Extended.fillRow n m cons signs method)
           (fillInv n m cons signs method) 0 m).
  - pose proof (totalCols_ge n m signs method).
    unfold fillInv. cbn [Extended.fTableau Extended.fBasic Extended.fSlack Extended.fArt].
    rewrite !length_replicate. split; [done|]. split; [done|].
    split; [unfold slackCol, slackBefore; simpl; lia|].
    split; [unfold artCol, artBefore; destruct (Extended.useArtificials method); simpl; lia|].
    split; [apply rowAt_replicate; unfold Extended.numRows; lia|].
    split; [intros i Hi; lia|].
    intros i Hi. split; [apply rowAt_replicate; unfold Extended.numRows; lia|].
    apply lookup_replicate_2. lia.
  - intros k fs Hk Hinv.
    destruct (lookup_lt_is_Some_2 cons k) as [ci Hci]; [lia|].
    apply (fillRow_spec n m cons signs method k fs ci Hinv); [lia|done].
Qed.

(** The counting loop, in closed form. *)
Lemma notLeBefore_S signs k :
  notLeBefore signs (S k) =
  notLeBefore signs k + (if negb (Extended.signIs signs k "<=") then 1 else 0).
Proof.
  unfold notLeBefore. rewrite seq_S, List.filter_app, length_app. simpl.
  by destruct (negb (Extended.signIs signs k "<=")).
Qed.

Lemma countVars_spec m signs :
  Extended.countVars m signs = (slackBefore signs m, notLeBefore signs m).
Proof.
  unfold Extended.countVars. induction m as [|m IH]; [done|].
  rewrite seq_S, fold_left_app, IH. simpl.
  rewrite slackBefore_S, notLeBefore_S.
  destruct (Extended.signIs signs m "<="), (Extended.signIs signs m ">="); simpl;
    f_equal; lia.
Qed.

Lemma slackSurplusCount_spec m signs :
  Extended.slackSurplusCount m signs = slackBefore signs m.
Proof. unfold Extended.slackSurplusCount. by rewrite countVars_spec. Qed.

Lemma artificialCount_spec m signs :
  Extended.artificialCount m signs = notLeBefore signs m.
Proof. unfold Extended.artificialCount. by rewrite countVars_spec. Qed.

Lemma slackBefore_mono signs i k : i <= k -> slackBefore signs i <= slackBefore signs k.
Proof.
  induction 1 as [|k _ IH]; [done|]. rewrite slackBefore_S. lia.
Qed.

Lemma artBefore_mono signs i k : i <= k -> artBefore signs i <= artBefore signs k.
Proof.
  induction 1 as [|k _ IH]; [done|]. rewrite artBefore_S. lia.
Qed.

Lemma artBefore_le_notLe signs k : artBefore signs k <= notLeBefore signs k.
Proof.
  induction k as [|k IH]; [done|]. rewrite artBefore_S, notLeBefore_S.
  destruct (Extended.signIs signs k "<="),
           (Extended.signIs signs k ">=" || Extended.signIs signs k "="); simpl; lia.
Qed.

(** A constraint with a slack/surplus column gets a column of its own. *)
Lemma slackCol_range n m signs method i :
  i < m ->
  Extended.signIs signs i "<=" || Extended.signIs signs i ">=" = true ->
  n <= slackCol n signs i < n + Extended.slackSurplusCount m signs /\
  n + Extended.slackSurplusCount m signs <= Extended.totalCols n m signs method - 1.
Proof.
  intros Hi Hs. rewrite slackSurplusCount_spec. unfold slackCol, Extended.totalCols.
  pose proof (slackBefore_mono signs (S i) m ltac:(lia)) as H.
  rewrite slackBefore_S, Hs in H. rewrite slackSurplusCount_spec. lia.
Qed.

Lemma artCol_range n m signs method i :
  i < m -> Extended.useArtificials method = true ->
  negb (Extended.signIs signs i "<=") &&
    (Extended.signIs signs i ">=" || Extended.signIs signs i "=") = true ->
  n + Extended.slackSurplusCount m signs <= artCol n m signs i
    < Extended.totalCols n m signs method - 1.
Proof.
  intros Hi Hu Hs. unfold artCol, Extended.totalCols. rewrite Hu, artificialCount_spec.
  pose proof (artBefore_mono signs (S i) m ltac:(lia)) as H.
  rewrite artBefore_S, Hs in H. pose proof (artBefore_le_notLe signs m). lia.
Qed.

(** The loops that write the objective row leave the constraint rows. *)
Lemma fold_setCell_row0_other (g : list (list float) -> nat -> float) js t r :
  r <> 0 -> rowAt (fold_left (fun t j => setCell t 0 j (g t j)) js t) r = rowAt t r.
Proof.
  intros Hr. revert t. induction js as [|j js IH]; intros t; simpl; [done|].
  rewrite IH. by apply rowAt_setCell_ne.
Qed.

Lemma fold_setCell_row0_length (g : list (list float) -> nat -> float) js t :
  length (fold_left (fun t j => setCell t 0 j (g t j)) js t) = length t /\
  forall r, length (rowAt (fold_left (fun t j => setCell t 0 j (g t j)) js t) r)
            = length (rowAt t r).
Proof.
  revert t. induction js as [|j js IH]; intros t; simpl; [done|].
  destruct (IH (setCell t 0 j (g t j))) as [-> H]. split; [apply length_setCell|].
  intros r. rewrite H. apply length_rowAt_setCell.
Qed.

Lemma initObjective_other type n m c signs method t r :
  r <> 0 -> rowAt (Extended.initObjective type n m c signs method t) r = rowAt t r.
Proof.
  intros Hr. unfold Extended.initObjective, Extended.writeArtificials, Extended.writeCosts.
  destruct method;
    rewrite ?(fold_setCell_row0_other (fun _ _ => _)) by done;
    rewrite ?(fold_setCell_row0_other (fun _ j => _)) by done; done.
Qed.

Lemma subtractFromObjective_other n m signs method coeff i t r :
  r <> 0 ->
  rowAt (Extended.subtractFromObjective n m signs method coeff i t) r = rowAt t r.
Proof.
  intros Hr. unfold Extended.subtractFromObjective.
  by rewrite (fold_setCell_row0_other
                (fun t j => (cell t 0 j - coeff * cell t (i + 1) j)%float)).
Qed.

Lemma eliminateBasic_other n m signs method basic t r :
  r <> 0 -> rowAt (Extended.eliminateBasic n m signs method basic t) r = rowAt t r.
Proof.
  intros Hr. unfold Extended.eliminateBasic.
  generalize (seq 0 m). intros l. revert t.
  induction l as [|i l IH]; intros t; simpl; [done|].
  rewrite IH. destruct (negb _); [|done]. by apply subtractFromObjective_other.
Qed.

(** The constraint rows and the basis of the state handed to the engine are
    those the filling loop left. *)
Lemma extended_build_rows type n m c cons signs method :
  m <= length cons ->
  exists st0, Extended.build type n m c cons signs method = Some st0 /\
    stSteps st0 = [] /\ length (stBasic st0) = m /\
    forall i, i < m -> exists ci, cons !! i = Some ci /\
      rowAt (stTableau st0) (i + 1) = filledRow n m signs method i ci /\
      stBasic st0 !! i = Some (filledBasic n m signs method i).
Proof.
  intros Hm. destruct (fillConstraints_spec n m cons signs method Hm) as (fs & Hfs & Hinv).
  unfold Extended.build. rewrite Hfs. cbn [mbind option_bind].
  eexists. split; [done|]. cbn [stSteps stBasic stTableau].
  destruct Hinv as (_ & Hlb & _ & _ & _ & Hdone & _).
  split; [done|]. split; [done|].
  intros i Hi. destruct (Hdone i Hi) as (ci & Hci & Hrow & Hb).
  exists ci. split; [done|]. split; [|done].
  destruct (Extended.useArtificials method);
    rewrite ?eliminateBasic_other, initObjective_other by lia; done.
Qed.

(** ** The standard method on a [>=] constraint (C7) *)

Lemma signIs_lookup signs i s s' :
  signs !! i = Some s -> Extended.signIs signs i s' = String.eqb s s'.
Proof. intros H. unfold Extended.signIs. by rewrite H. Qed.

Lemma rd_map (f : float -> float) l j : j < length l -> rd (map f l) j = f (rd l j).
Proof.
  intros H. unfold rd. rewrite list_lookup_fmap.
  destruct (lookup_lt_is_Some_2 l j H) as [x ->]. done.
Qed.

Lemma rd_baseRow_coeff n cols ci j :
  j < n -> n < cols -> rd (baseRow n cols ci) j = rd ci j.
Proof.
  intros Hj Hn. unfold baseRow. rewrite rd_insert_ne by lia. unfold rd at 1.
  rewrite lookup_app_l by (rewrite length_map, length_seq; lia).
  rewrite list_lookup_fmap, lookup_seq_lt by done. done.
Qed.

Lemma rd_baseRow_rhs n cols ci : n < cols -> rd (baseRow n cols ci) (cols - 1) = rd ci n.
Proof.
  intros Hn. unfold baseRow. apply rd_insert_eq.
  rewrite length_app, length_map, length_seq, length_replicate. lia.
Qed.

Lemma rd_baseRow_zero n cols ci j :
  n <= j < cols - 1 -> rd (baseRow n cols ci) j = 0%float.
Proof.
  intros Hj. unfold baseRow. rewrite rd_insert_ne by lia. unfold rd.
  rewrite lookup_app_r by (rewrite length_map, length_seq; lia).
  rewrite length_map, length_seq, lookup_replicate_2 by lia. done.
Qed.

(** C7: in the extended variant with method standard, the tableau row of a
    constraint whose relation is [>=] is the row of coefficients and
    right-hand side multiplied entry by entry by [-1], with [1] written in
    the slack/surplus column of that constraint, and that column is the
    row's initial basic variable: the row a [<=] constraint gets, built
    from the negated row. *)
Theorem standard_ge_row_negated type n m c cons signs i ci :
  i < m -> m <= length cons -> cons !! i = Some ci -> signs !! i = Some ">="%string ->
  exists st0,
    Extended.build type n m c cons signs Extended.Standard = Some st0 /\
    let cols := Extended.totalCols n m signs Extended.Standard in
    let s := slackCol n signs i in
    n <= s < cols - 1 /\
    rowAt (stTableau st0) (i + 1) = <[s := 1%float]> (negated (baseRow n cols ci)) /\
    basicAt (stBasic st0) i = Z.of_nat s /\
    (forall j, j < n -> cell (stTableau st0) (i + 1) j = (rd ci j * -1)%float) /\
    cell (stTableau st0) (i + 1) (cols - 1) = (rd ci n * -1)%float /\
    cell (stTableau st0) (i + 1) s = 1%float /\
    (forall i' ci', i' < m -> cons !! i' = Some ci' -> signs !! i' = Some "<="%string ->
       rowAt (stTableau st0) (i' + 1)
         = <[slackCol n signs i' := 1%float]> (baseRow n cols ci') /\
       basicAt (stBasic st0) i' = Z.of_nat (slackCol n signs i')).
Proof.
  intros Hi Hm Hci Hsign.
  destruct (extended_build_rows type n m c cons signs Extended.Standard Hm)
    as (st0 & Hb & _ & _ & Hrows).
  exists st0. split; [done|]. cbv zeta.
  set (cols := Extended.totalCols n m signs Extended.Standard).
  assert (Hge : Extended.signIs signs i ">=" = true) by (by rewrite (signIs_lookup _ _ _ _ Hsign)).
  destruct (slackCol_range n m signs Extended.Standard i Hi) as [Hs Hc];
    [by rewrite Hge, orb_true_r|]. fold cols in Hc.
  destruct (Hrows i Hi) as (ci0 & Hci0 & Hrow & Hbasic).
  rewrite Hci in Hci0. injection Hci0 as <-.
  unfold filledRow, filledBasic in Hrow, Hbasic. rewrite Hge in Hrow, Hbasic.
  simpl in Hrow, Hbasic. fold cols in Hrow.
  assert (Hlen : length (negated (baseRow n cols ci)) = cols)
    by (unfold negated; rewrite length_map, length_baseRow; lia).
  split; [lia|]. split; [done|]. split; [unfold basicAt; by rewrite Hbasic|].
  unfold cell. rewrite Hrow. split; [|split; [|split]].
  - intros j Hj. rewrite rd_insert_ne by lia. unfold negated.
    rewrite rd_map by (rewrite length_baseRow; lia).
    by rewrite rd_baseRow_coeff by lia.
  - rewrite rd_insert_ne by lia. unfold negated.
    rewrite rd_map by (rewrite length_baseRow; lia).
    by rewrite rd_baseRow_rhs by lia.
  - apply rd_insert_eq. lia.
  - intros i' ci' Hi' Hci' Hsign'.
    destruct (Hrows i' Hi') as (ci0 & Hci0 & Hrow' & Hbasic').
    rewrite Hci' in Hci0. injection Hci0 as <-.
    unfold filledRow, filledBasic in Hrow', Hbasic'.
    rewrite (signIs_lookup _ _ _ ">=" Hsign'), (signIs_lookup _ _ _ "<=" Hsign') in Hrow', Hbasic'.
    simpl in Hrow', Hbasic'. split; [done|]. unfold basicAt. by rewrite Hbasic'.
Qed.

Lemma standard_ge_row_negated_witness :
  exists st0,
    Extended.build Max 1 1 [1%float] [[1; 2]%float] [">="%string] Extended.Standard
      = Some st0 /\
    let cols := Extended.totalCols 1 1 [">="%string] Extended.Standard in
    let s := slackCol 1 [">="%string] 0 in
    1 <= s < cols - 1 /\
    rowAt (stTableau st0) (0 + 1)
      = <[s := 1%float]> (negated (baseRow 1 cols [1; 2]%float)) /\
    basicAt (stBasic st0) 0 = Z.of_nat s /\
    (forall j, j < 1 -> cell (stTableau st0) (0 + 1) j = (rd [1; 2]%float j * -1)%float) /\
    cell (stTableau st0) (0 + 1) (cols - 1) = (rd [1; 2]%float 1 * -1)%float /\
    cell (stTableau st0) (0 + 1) s = 1%float /\
    (forall i' ci', i' < 1 -> [[1; 2]%float] !! i' = Some ci' ->
       [">="%string] !! i' = Some "<="%string ->
       rowAt (stTableau st0) (i' + 1)
         = <[slackCol 1 [">="%string] i' := 1%float]> (baseRow 1 cols ci') /\
       basicAt (stBasic st0) i' = Z.of_nat (slackCol 1 [">="%string] i')).
Proof.
  apply (standard_ge_row_negated Max 1 1 [1%float] [[1; 2]%float] [">="%string] 0
           [1; 2]%float); [lia|simpl; lia|reflexivity|reflexivity].
Defined.

(** ** Exact binary64 facts behind canonical form *)

Module FloatExact.

Lemma Prim2SF_one : Prim2SF 1 = sfOne.
Proof. by vm_compute. Qed.

Lemma Prim2SF_zero : Prim2SF 0 = S754_zero false.
Proof. by vm_compute. Qed.

Lemma SFeqb_refl_finite s m e : SFeqb (S754_finite s m e) (S754_finite s m e) = true.
Proof.
  unfold SFeqb, SFcompare. rewrite Z.compare_refl.
  change (Pos.compare_cont Eq m m) with (Pos.compare m m). rewrite Pos.compare_refl.
  by destruct s.
Qed.

Lemma zeroOrNaN_spec x : zeroOrNaN x = sfZeroOrNaN (Prim2SF x).
Proof.
  unfold zeroOrNaN. rewrite !FloatAxioms.eqb_spec.
  rewrite Prim2SF_zero.
  destruct (Prim2SF x) as [s|s| |s m e]; try (by destruct s).
  - done.
  - rewrite SFeqb_refl_finite. by destruct s.
Qed.

Lemma SFeqb_finite_pos s m e m' e' :
  SFeqb (S754_finite s m e) (S754_finite false m' e')
  = negb s && ((e =? e')%Z && (m =? m')%positive).
Proof.
  unfold SFeqb, SFcompare. destruct s; [done|]. simpl.
  change (Pos.compare_cont Eq m m') with (Pos.compare m m').
  destruct (Z.compare_spec e e'), (Pos.compare_spec m m');
    destruct (Z.eqb_spec e e'), (Pos.eqb_spec m m'); simpl; try done; lia.
Qed.

Lemma oneOrNaN_spec x : oneOrNaN x = sfOneOrNaN (Prim2SF x).
Proof.
  unfold oneOrNaN. rewrite !FloatAxioms.eqb_spec, Prim2SF_one.
  destruct (Prim2SF x) as [s|s| |s m e]; try (by destruct s).
  - done.
  - rewrite SFeqb_refl_finite. unfold sfOne. rewrite SFeqb_finite_pos.
    unfold sfOneOrNaN. by destruct s; rewrite ?orb_false_r.
Qed.

(** Dividing a zero or NaN gives a zero or NaN. *)
Lemma zn_div z p : zeroOrNaN z = true -> zeroOrNaN (z / p) = true.
Proof.
  rewrite !zeroOrNaN_spec, div_spec. unfold SF64div, SFdiv.
  destruct (Prim2SF z) as [s|s| |s m e]; try done;
    destruct (Prim2SF p) as [s'|s'| |s' m' e']; done.
Qed.

(** So does multiplying it, on either side. *)
Lemma zn_mul_r f z : zeroOrNaN z = true -> zeroOrNaN (f * z) = true.
Proof.
  rewrite !zeroOrNaN_spec, mul_spec. unfold SF64mul, SFmul.
  destruct (Prim2SF z) as [s|s| |s m e]; try done;
    destruct (Prim2SF f) as [s'|s'| |s' m' e']; done.
Qed.

Lemma zn_mul_l f z : zeroOrNaN z = true -> zeroOrNaN (z * f) = true.
Proof.
  rewrite !zeroOrNaN_spec, mul_spec. unfold SF64mul, SFmul.
  destruct (Prim2SF z) as [s|s| |s m e]; try done;
    destruct (Prim2SF f) as [s'|s'| |s' m' e']; done.
Qed.

(** The two classes are closed under subtracting a zero or NaN. *)
Lemma zn_sub a b : zeroOrNaN a = true -> zeroOrNaN b = true -> zeroOrNaN (a - b) = true.
Proof.
  rewrite !zeroOrNaN_spec, sub_spec. unfold SF64sub, SFsub.
  destruct (Prim2SF a) as [[]|s| |s m e]; try done;
    destruct (Prim2SF b) as [[]|s'| |s' m' e']; done.
Qed.

Lemma on_sub_zn o z : oneOrNaN o = true -> zeroOrNaN z = true -> oneOrNaN (o - z) = true.
Proof.
  rewrite !oneOrNaN_spec, zeroOrNaN_spec, sub_spec. unfold SF64sub, SFsub.
  destruct (Prim2SF o) as [[]|s| |s m e]; try done;
    destruct (Prim2SF z) as [[]|s'| |s' m' e']; done.
Qed.

(** Subtracting a zero or NaN does not bring a value below a bound. *)
Lemma nonsel_sub_zn x z b :
  (x <? b)%float = false -> zeroOrNaN z = true -> (x - z <? b)%float = false.
Proof.
  rewrite zeroOrNaN_spec, !ltb_spec, sub_spec. unfold SF64sub, SFsub.
  destruct (Prim2SF x) as [[]|s| |s m e]; try done;
    destruct (Prim2SF z) as [[]|s'| |s' m' e']; try done;
    destruct (Prim2SF b) as [[]|[]| |[] mb eb]; try done.
Qed.

(** A zero or NaN is not below a bound that zero is not below. *)
Lemma nonsel_zn z b : (0 <? b)%float = false -> zeroOrNaN z = true -> (z <? b)%float = false.
Proof.
  rewrite zeroOrNaN_spec, !ltb_spec, Prim2SF_zero.
  destruct (Prim2SF z) as [[]|s| |s m e]; try done;
    destruct (Prim2SF b) as [[]|[]| |[] mb eb]; try done.
Qed.

(** A value whose absolute value does not exceed [t] is not below [-t]. *)
Lemma nonsel_of_abs x t : (t <? abs x)%float = false -> (x <? - t)%float = false.
Proof.
  rewrite !ltb_spec, abs_spec, opp_spec. unfold SFabs, SFopp, SFltb, SFcompare.
  destruct (Prim2SF x) as [[]|[]| |[] m e]; try done;
    destruct (Prim2SF t) as [[]|[]| |[] mt et]; try done; simpl; intros H; FloatOrder.cases_cmp.
Qed.

(** [x / x] is one or NaN: for a finite [x] the quotient of the mantissas
    is [2^53] with remainder 0, which rounds to 1. *)
Lemma new_location_zero nb : new_location nb 0 = loc_Exact.
Proof. unfold new_location. by destruct (Z.even nb). Qed.

Lemma SFdiv_self s m e :
  SFdiv prec emax (S754_finite s m e) (S754_finite s m e) = sfOne.
Proof.
  unfold SFdiv, SFdiv_core_binary.
  rewrite !Z.sub_diag.
  change (Z.min (fexp prec emax 0) 0) with (-53)%Z.
  change (0 - -53)%Z with 53%Z. cbv iota beta.
  rewrite Z.shiftl_mul_pow2 by lia.
  assert (E : Z.div_eucl (Z.pos m * 2 ^ 53) (Z.pos m) = ((2 ^ 53)%Z, 0%Z)).
  { assert (Hq : (Z.pos m * 2 ^ 53 / Z.pos m = 2 ^ 53)%Z)
      by (rewrite Z.mul_comm; apply Z.div_mul; lia).
    assert (Hr : ((Z.pos m * 2 ^ 53) mod Z.pos m = 0)%Z)
      by (rewrite Z.mul_comm; apply Z.mod_mul; lia).
    unfold Z.div, Z.modulo in Hq, Hr.
    destruct (Z.div_eucl (Z.pos m * 2 ^ 53) (Z.pos m)) as [q r].
    simpl in Hq, Hr. by subst. }
  rewrite E, new_location_zero, xorb_nilpotent. by vm_compute.
Qed.

Lemma on_div_self p : oneOrNaN (p / p) = true.
Proof.
  rewrite oneOrNaN_spec, div_spec. unfold SF64div.
  destruct (Prim2SF p) as [[]|[]| |s m e]; try done.
  by rewrite SFdiv_self.
Qed.

(** [f * 1] is [f] for every finite [f] (the product of the mantissas is
    shifted back by 52 bits, exactly), and [f - f] is zero. *)
Lemma SFsub_self_finite s m e :
  SFsub prec emax (S754_finite s m e) (S754_finite s m e) = S754_zero false.
Proof. unfold SFsub. by rewrite Z.sub_diag. Qed.

Lemma SFmul_one s m e :
  bounded prec emax m e = true ->
  SFmul prec emax (S754_finite s m e) sfOne = S754_finite s m e.
Proof.
  unfold bounded, canonical_mantissa. intros Hb.
  apply andb_true_iff in Hb as [Hc He].
  apply Z.eqb_eq in Hc. apply Z.leb_le in He.
  unfold sfOne, SFmul. rewrite xorb_false_r.
  rewrite Pos.mul_comm.
  set (mm := (4503599627370496 * m)%positive).
  assert (Hmm : mm = Pos.iter xO m 52) by (by vm_compute).
  assert (Hd : Z.pos (digits2_pos mm) = (Z.pos (digits2_pos m) + 52)%Z).
  { rewrite Hmm. cbn [Pos.iter digits2_pos]. lia. }
  unfold binary_round_aux, shr_fexp.
  cbn [Zdigits2]. rewrite Hd.
  replace (Z.pos (digits2_pos m) + 52 + (e + -52))%Z with (Z.pos (digits2_pos m) + e)%Z by lia.
  rewrite Hc. replace (e - (e + -52))%Z with 52%Z by lia.
  cbn [shr shr_record_of_loc]. 
  assert (Hs : SpecFloat.iter_pos shr_1 52 {| shr_m := Z.pos mm; shr_r := false; shr_s := false |}
               = {| shr_m := Z.pos m; shr_r := false; shr_s := false |}).
  { rewrite Hmm. by vm_compute. }
  rewrite Hs. cbn [shr_m loc_of_shr_record round_nearest_even Zdigits2].
  replace (e + -52 + 52)%Z with e by lia. rewrite Hc, Z.sub_diag.
  cbn [shr shr_record_of_loc shr_m].
  apply Z.leb_le in He. by rewrite He.
Qed.

Lemma sfOneOrNaN_inv o :
  sfOneOrNaN o = true -> o = S754_nan \/ o = sfOne.
Proof.
  destruct o as [s|s| |[] m e]; try done; [by left|].
  unfold sfOneOrNaN. intros H. apply andb_true_iff in H as [He Hm].
  apply Z.eqb_eq in He. apply Pos.eqb_eq in Hm. subst. by right.
Qed.

Lemma zn_sub_mul_on f o : oneOrNaN o = true -> zeroOrNaN (f - f * o) = true.
Proof.
  rewrite oneOrNaN_spec, zeroOrNaN_spec, sub_spec, mul_spec.
  unfold SF64sub, SF64mul. intros Ho.
  pose proof (Prim2SF_valid f) as Hv.
  destruct (sfOneOrNaN_inv _ Ho) as [-> | ->].
  - by destruct (Prim2SF f).
  - destruct (Prim2SF f) as [[]|[]| |s m e]; try done.
    simpl in Hv. by rewrite (SFmul_one s m e Hv), SFsub_self_finite.
Qed.

End FloatExact.

(** ** A pivot keeps the basis valid *)

Lemma NoDup_insert_fresh (l : list Z) i x : NoDup l -> x ∉ l -> NoDup (<[i := x]> l).
Proof.
  intros Hnd Hx. apply NoDup_alt. intros a b y Ha Hb.
  apply list_lookup_insert_Some in Ha, Hb.
  destruct Ha as [(-> & <- & _) | (Hne & Ha)], Hb as [(<- & Hy & _) | (Hne' & Hb)].
  - done.
  - destruct Hx. by eapply list_elem_of_lookup_2.
  - subst y. destruct Hx. by eapply list_elem_of_lookup_2.
  - by eapply (proj1 (NoDup_alt l)).
Qed.

Lemma validBasis_lookup m cols basis r b :
  validBasis m cols basis -> basis !! r = Some b ->
  r < m /\ (0 <= b < Z.of_nat cols - 1)%Z.
Proof.
  intros (Hl & Hf & _) Hb. split.
  - rewrite <- Hl. by eapply lookup_lt_Some.
  - rewrite Forall_forall in Hf. apply Hf. by eapply list_elem_of_lookup_2.
Qed.

(** The column that enters is not in the basis: its row-0 entry is below
    the bound, that of a basic column is not. *)
Lemma entering_not_basic bound t basis j :
  objectiveCanonical bound t basis -> (cell t 0 j <? bound)%float = true ->
  Z.of_nat j ∉ basis.
Proof.
  intros Hobj Hj Hin. apply list_elem_of_lookup_1 in Hin as [r Hr].
  rewrite (Hobj r j Hr) in Hj. done.
Qed.

Lemma pivot_keeps_basisInv bound m cols t basis i j :
  (0 <? bound)%float = false ->
  shaped (m + 1) cols t -> validBasis m cols basis ->
  rowsCanonical (m + 1) t basis -> objectiveCanonical bound t basis ->
  1 <= i <= m -> j < cols - 1 -> (cell t 0 j <? bound)%float = true ->
  let t' := pivotTableau t (m + 1) cols i j in
  let basis' := <[i - 1 := Z.of_nat j]> basis in
  shaped (m + 1) cols t' /\ validBasis m cols basis' /\
  rowsCanonical (m + 1) t' basis' /\ objectiveCanonical bound t' basis'.
Proof.
  intros Hbound Hshape Hvalid Hrows Hobj Hi Hj Hsel. cbv zeta.
  destruct (pivotTableau_spec (m + 1) cols t i j Hshape) as [Hshape' Hcell]; [lia|lia|].
  pose proof (entering_not_basic bound t basis j Hobj Hsel) as Hfresh.
  pose proof Hvalid as (Hlen & Hrange & Hnd).
  split; [done|]. split.
  { split; [by rewrite length_insert|]. split; [|by apply NoDup_insert_fresh].
    apply Forall_insert; [done|lia]. }
  (* every basic column of the new basis, by cases *)
  assert (Hcases : forall r b, <[i - 1 := Z.of_nat j]> basis !! r = Some (Z.of_nat b) ->
    (r = i - 1 /\ b = j) \/
    (r <> i - 1 /\ basis !! r = Some (Z.of_nat b) /\ r < m /\ b < cols - 1)).
  { intros r b Hr. apply list_lookup_insert_Some in Hr.
    destruct Hr as [(<- & Hb & _) | (Hne & Hr)].
    - left. split; [done|lia].
    - right. destruct (validBasis_lookup m cols basis r _ Hvalid Hr). 
      split; [done|]. split; [done|]. lia. }
  set (p := fun c => (cell t i c / cell t i j)%float) in *.
  assert (Hpj : oneOrNaN (p j) = true) by apply FloatExact.on_div_self.
  split.
  - intros r b Hr. destruct (Hcases r b Hr) as [[-> ->] | (Hne & Hold & Hrm & Hb)].
    + replace (i - 1 + 1) with i by lia. split.
      * rewrite Hcell by lia. destruct (decide (i = i)); [done|lia].
      * intros k Hk Hki. rewrite Hcell by lia. destruct (decide (k = i)); [lia|].
        by apply FloatExact.zn_sub_mul_on.
    + destruct (Hrows r b Hold) as [Hown Hothers].
      assert (Hpb : zeroOrNaN (p b) = true).
      { apply FloatExact.zn_div. apply Hothers; lia. }
      split.
      * rewrite Hcell by lia. destruct (decide (r + 1 = i)); [lia|].
        apply FloatExact.on_sub_zn; [done|]. by apply FloatExact.zn_mul_r.
      * intros k Hk Hkr. rewrite Hcell by lia. destruct (decide (k = i)); [done|].
        apply FloatExact.zn_sub; [by apply Hothers|]. by apply FloatExact.zn_mul_r.
  - intros r b Hr. destruct (Hcases r b Hr) as [[-> ->] | (Hne & Hold & Hrm & Hb)].
    + rewrite Hcell by lia. destruct (decide (0 = i)); [lia|].
      apply FloatExact.nonsel_zn; [done|]. by apply FloatExact.zn_sub_mul_on.
    + destruct (Hrows r b Hold) as [Hown Hothers].
      rewrite Hcell by lia. destruct (decide (0 = i)); [lia|].
      apply FloatExact.nonsel_sub_zn; [by eapply Hobj|].
      apply FloatExact.zn_mul_r, FloatExact.zn_div. apply Hothers; lia.
Qed.

Lemma firstLeast_col_inv t bound cols j :
  firstLeast (colValue t) bound 0 cols j ->
  j < cols /\ (cell t 0 j <? bound)%float = true.
Proof.
  intros (Hr & v & Hv & Hb & _). unfold colValue in Hv. injection Hv as <-.
  split; [lia|done].
Qed.

Lemma simple_pivot_basisInv n m st st' :
  basisInv 0%float m (Simple.totalCols n m) st ->
  Simple.loopBody n m st = IterPivot st' ->
  basisInv 0%float m (Simple.totalCols n m) st'.
Proof.
  intros (Hshape & Hvalid & Hrows & Hobj & Hsteps) E.
  destruct (simple_pivot_inv n m st st' E) as (i & j & Hj & [Hi _] & ->).
  destruct (firstLeast_col_inv _ _ _ _ Hj) as [Hjc Hsel].
  destruct (pivot_keeps_basisInv 0%float m (Simple.totalCols n m) (stTableau st)
              (stBasic st) i j) as (H1 & H2 & H3 & H4); try done; [lia|].
  unfold basisInv, simpleNext. cbn [stTableau stBasic stSteps].
  split; [done|]. split; [done|]. split; [done|]. split; [done|].
  apply Forall_app. split; [done|]. by apply Forall_singleton.
Qed.

Lemma extended_pivot_basisInv n m signs method iterStart it st st' :
  basisInv (- tol9)%float m (Extended.totalCols n m signs method) st ->
  Extended.loopBody n m signs method iterStart it st = IterPivot st' ->
  basisInv (- tol9)%float m (Extended.totalCols n m signs method) st'.
Proof.
  intros (Hshape & Hvalid & Hrows & Hobj & Hsteps) E.
  destruct (extended_pivot_inv n m signs method iterStart it st st' E)
    as (i & j & Hj & [Hi _] & ->).
  destruct (firstLeast_col_inv _ _ _ _ Hj) as [Hjc Hsel].
  destruct (pivot_keeps_basisInv (- tol9)%float m (Extended.totalCols n m signs method)
              (stTableau st) (stBasic st) i j) as (H1 & H2 & H3 & H4); try done; [lia|].
  unfold basisInv, extendedNext, Extended.numRows. cbn [stTableau stBasic stSteps].
  split; [done|]. split; [done|]. split; [done|]. split; [done|].
  apply Forall_app. split; [done|]. by apply Forall_singleton.
Qed.



(** ** Removing the basic variables from the objective row *)

Lemma rdZ_of_nat l b : rdZ l (Z.of_nat b) = rd l b.
Proof.
  unfold rdZ. destruct (Z.ltb_spec (Z.of_nat b) 0); [lia|]. by rewrite Nat2Z.id.
Qed.

Lemma canonicalizeObjective_spec cond bound m cols basic t :
  (forall x, cond x = false -> (x <? bound)%float = false) ->
  (0 <? bound)%float = false ->
  shaped (m + 1) cols t -> validBasis m cols basic -> rowsCanonical (m + 1) t basic ->
  let t' := canonicalizeObjective cond m cols basic t in
  shaped (m + 1) cols t' /\
  (forall r, r <> 0 -> rowAt t' r = rowAt t r) /\
  objectiveCanonical bound t' basic.
Proof.
  intros Hcond Hbound Hshape Hvalid Hrows. cbv zeta.
  assert (G : forall k, k <= m ->
    let t' := fold_left (fun t i =>
               let coeff := rdZ (rowAt t 0) (basicAt basic i) in
               if cond coeff
               then fold_left (fun t j => setCell t 0 j
                                            (cell t 0 j - coeff * cell t (i + 1) j)%float)
                              (seq 0 cols) t
               else t) (seq 0 k) t in
    shaped (m + 1) cols t' /\
    (forall r, r <> 0 -> rowAt t' r = rowAt t r) /\
    (forall r b, r < k -> basic !! r = Some (Z.of_nat b) ->
                 (cell t' 0 b <? bound)%float = false)).
  { induction k as [|k IH]; intros Hk; cbv zeta.
    - simpl. split; [done|]. split; [done|]. intros r b Hr. lia.
    - destruct IH as (Hs1 & Hsame & Hdone); [lia|].
      rewrite seq_S, fold_left_app. simpl.
      set (t1 := fold_left _ (seq 0 k) t) in *.
      destruct (lookup_lt_is_Some_2 basic k) as [bz Hbz];
        [destruct Hvalid as [-> _]; lia|].
      destruct (validBasis_lookup m cols basic k bz Hvalid Hbz) as [_ Hrange].
      assert (Hbk : bz = Z.of_nat (Z.to_nat bz)) by lia.
      set (bk := Z.to_nat bz) in *. rewrite Hbk in Hbz.
      assert (Ecoeff : rdZ (rowAt t1 0) (basicAt basic k) = cell t1 0 bk).
      { unfold basicAt. rewrite Hbz. simpl. by rewrite rdZ_of_nat. }
      rewrite Ecoeff. set (coeff := cell t1 0 bk).
      destruct (Hrows k bk Hbz) as [Hown Hothers].
      assert (Hcellsame : forall r c, r <> 0 -> cell t1 r c = cell t r c).
      { intros r c Hr. apply cell_other_row. by apply Hsame. }
      destruct (cond coeff) eqn:Hc.
      + pose proof Hs1 as [Hl1 Hr1].
        destruct (fold_row_update
                    (fun t j => (cell t 0 j - coeff * cell t (k + 1) j)%float)
                    (fun j x => (x - coeff * cell t1 (k + 1) j)%float) t1 0 0 cols)
          as (Hl2 & Hrl2 & Hother2 & Hcell2); [lia|rewrite Hr1; lia| |].
        { intros t' j Ht'. by rewrite (cell_other_row t1 t' (k + 1) j) by (apply Ht'; lia). }
        split; [by eapply shaped_of_lengths|].
        split; [intros r Hr; rewrite Hother2 by done; by apply Hsame|].
        intros r b Hr Hb.
        destruct (validBasis_lookup m cols basic r _ Hvalid Hb) as [_ Hbr].
        rewrite Hcell2. destruct (decide (0 <= b < 0 + cols)); [|lia].
        rewrite (Hcellsame (k + 1)) by lia.
        destruct (decide (r = k)) as [->|Hne].
        * assert (b = bk) as -> by (rewrite Hbz in Hb; injection Hb; lia).
          apply FloatExact.nonsel_zn; [done|]. by apply FloatExact.zn_sub_mul_on.
        * destruct (Hrows r b Hb) as [_ Hothers'].
          apply FloatExact.nonsel_sub_zn; [apply (Hdone r b); [lia|done]|].
          apply FloatExact.zn_mul_r. apply Hothers'; lia.
      + split; [done|]. split; [done|]. intros r b Hr Hb.
        destruct (decide (r = k)) as [->|Hne]; [|apply (Hdone r b); [lia|done]].
        assert (b = bk) as -> by (rewrite Hbz in Hb; injection Hb; lia).
        by apply Hcond. }
  destruct (G m) as (H1 & H2 & H3); [done|].
  split; [done|]. split; [done|]. intros r b Hb.
  apply (H3 r b); [|done]. by destruct (validBasis_lookup m cols basic r _ Hvalid Hb).
Qed.

(** ** The initial state of the simple variant is canonical *)

Lemma simple_objRow_spec type n m c :
  Simple.objRow type n m c =
  map (fun i => (- rd (costs type c) i)%float) (seq 0 n)
  ++ replicate (Simple.totalCols n m - n) 0%float.
Proof.
  unfold Simple.objRow.
  apply (fold_insert_replicate (fun i => (- rd (costs type c) i)%float)).
  unfold Simple.totalCols. lia.
Qed.

Lemma simple_constraintRow_spec n m cons i ci :
  cons !! i = Some ci -> Simple.constraintRow n m cons i = Some (simpleRow n m i ci).
Proof.
  intros H. unfold Simple.constraintRow, simpleRow. rewrite H. cbn [mbind option_bind].
  rewrite (fold_insert_replicate (rd ci)); [done|]. unfold Simple.totalCols. lia.
Qed.

Lemma rowAt_app_l (t : list (list float)) row i :
  i < length t -> rowAt (t ++ [row]) i = rowAt t i.
Proof. intros H. unfold rowAt. by rewrite lookup_app_l. Qed.

Lemma rowAt_app_r (t : list (list float)) row : rowAt (t ++ [row]) (length t) = row.
Proof. unfold rowAt. by rewrite list_lookup_middle. Qed.

Lemma simple_build_rows type n m c cons st0 :
  Simple.build type n m c cons = Some st0 ->
  rowAt (stTableau st0) 0 = Simple.objRow type n m c /\
  forall i, i < m -> exists ci, cons !! i = Some ci /\
                                rowAt (stTableau st0) (i + 1) = simpleRow n m i ci.
Proof.
  intros H.
  apply (foldM_seq_inv
           (fun st i => r ← Simple.constraintRow n m cons i;
                        Some (mkState (stTableau st ++ [r])
                                      (stBasic st ++ [Z.of_nat (n + i)]) []))
           (fun k st => length (stTableau st) = k + 1 /\
                        rowAt (stTableau st) 0 = Simple.objRow type n m c /\
                        forall i, i < k -> exists ci, cons !! i = Some ci /\
                          rowAt (stTableau st) (i + 1) = simpleRow n m i ci)
           0 m _ st0) in H.
  - by destruct H as (_ & H0 & Hrows).
  - split; [done|]. split; [done|]. intros i Hi. lia.
  - intros k st st' Hk (Hl & H0 & Hrows) Hf.
    destruct (cons !! k) as [ci|] eqn:Hci.
    + rewrite (simple_constraintRow_spec n m cons k ci Hci) in Hf.
      simpl in Hf. injection Hf as <-. cbn [stTableau].
      split; [rewrite length_app; simpl; lia|].
      split; [rewrite rowAt_app_l by lia; done|].
      intros i Hi. destruct (decide (i = k)) as [->|Hne].
      * exists ci. split; [done|]. rewrite <- Hl. apply rowAt_app_r.
      * destruct (Hrows i) as (ci' & Hci' & Hrow); [lia|].
        exists ci'. split; [done|]. by rewrite rowAt_app_l by lia.
    + unfold Simple.constraintRow in Hf. by rewrite Hci in Hf.
Qed.

Lemma length_simpleRow n m i ci : length (simpleRow n m i ci) = Simple.totalCols n m.
Proof.
  unfold simpleRow. rewrite !length_insert, length_app, length_map, length_seq, length_replicate.
  unfold Simple.totalCols. lia.
Qed.

Lemma rd_simpleRow_slack n m i ci j :
  i < m -> n <= j < n + m ->
  rd (simpleRow n m i ci) j = if decide (j = n + i) then 1%float else 0%float.
Proof.
  intros Hi Hj. unfold simpleRow, Simple.totalCols.
  rewrite rd_insert_ne by lia. destruct (decide (j = n + i)) as [->|Hne].
  - apply rd_insert_eq. rewrite length_app, length_map, length_seq, length_replicate. lia.
  - rewrite rd_insert_ne by lia. unfold rd.
    rewrite lookup_app_r by (rewrite length_map, length_seq; lia).
    rewrite length_map, length_seq, lookup_replicate_2 by lia. done.
Qed.

Lemma rd_objRow_slack type n m c j :
  n <= j < n + m + 1 -> rd (Simple.objRow type n m c) j = 0%float.
Proof.
  intros Hj. rewrite simple_objRow_spec. unfold rd, Simple.totalCols.
  rewrite lookup_app_r by (rewrite length_map, length_seq; lia).
  rewrite length_map, length_seq, lookup_replicate_2 by lia. done.
Qed.

Lemma simple_build_basisInv type n m c cons st0 :
  Simple.build type n m c cons = Some st0 ->
  basisInv 0%float m (Simple.totalCols n m) st0.
Proof.
  intros H.
  destruct (simple_build_shape _ _ _ _ _ _ H) as (Hsteps & Hbasis & Hlen).
  destruct (simple_build_rows _ _ _ _ _ _ H) as (Hrow0 & Hrows).
  assert (Hlookup : forall r b, stBasic st0 !! r = Some (Z.of_nat b) -> r < m /\ b = n + r).
  { intros r b Hr. rewrite Hbasis, list_lookup_fmap in Hr.
    destruct (seq n m !! r) as [x|] eqn:Hx; [|done].
    apply lookup_seq in Hx as [-> Hrm]. simpl in Hr. injection Hr as Hr. lia. }
  unfold basisInv. split; [|split; [|split; [|split]]].
  - split; [done|]. intros i Hi. destruct i as [|i].
    + rewrite Hrow0, simple_objRow_spec.
      rewrite length_app, length_map, length_seq, length_replicate.
      unfold Simple.totalCols. lia.
    + destruct (Hrows i) as (ci & _ & Hrow); [lia|].
      replace (S i) with (i + 1) by lia. rewrite Hrow. apply length_simpleRow.
  - rewrite Hbasis. split; [by rewrite length_map, length_seq|]. split.
    + apply Forall_fmap, Forall_forall. intros x Hx.
      apply elem_of_seq in Hx. unfold Simple.totalCols. simpl. lia.
    + apply NoDup_fmap_2; [apply Nat2Z.inj'|apply NoDup_seq].
  - intros r b Hr. destruct (Hlookup r b Hr) as [Hrm ->]. split.
    + destruct (Hrows r Hrm) as (ci & _ & Hrow). unfold cell. rewrite Hrow.
      rewrite rd_simpleRow_slack by lia. by destruct (decide (n + r = n + r)).
    + intros k Hk Hkr. destruct (Hrows (k - 1)) as (ci & _ & Hrow); [lia|].
      unfold cell. replace k with (k - 1 + 1) by lia. rewrite Hrow.
      rewrite rd_simpleRow_slack by lia.
      by destruct (decide (n + r = n + (k - 1))); [lia|].
  - intros r b Hr. destruct (Hlookup r b Hr) as [Hrm ->].
    unfold cell. rewrite Hrow0, rd_objRow_slack by lia. done.
  - rewrite Hsteps. constructor.
Qed.

(** ** The initial state of the extended variant is canonical *)

Lemma signIs_excl signs i s s' :
  Extended.signIs signs i s = true -> s <> s' -> Extended.signIs signs i s' = false.
Proof.
  unfold Extended.signIs. destruct (signs !! i) as [x|]; [|done].
  intros H Hne. apply String.eqb_eq in H. subst x. by apply String.eqb_neq.
Qed.

Lemma length_filledRow n m signs method i ci :
  length (filledRow n m signs method i ci) = Extended.totalCols n m signs method.
Proof.
  pose proof (totalCols_ge n m signs method).
  unfold filledRow.
  repeat match goal with
    | |- context [if ?b then _ else _] => destruct b
    end;
    unfold negated; rewrite ?length_insert, ?length_map; apply length_baseRow; lia.
Qed.

Lemma slackCol_lt n signs r k :
  r < k -> takesSlack signs r = true -> slackCol n signs r < slackCol n signs k.
Proof.
  intros Hrk Hr. unfold slackCol.
  pose proof (slackBefore_mono signs (S r) k ltac:(lia)) as H.
  rewrite slackBefore_S in H. unfold takesSlack in Hr. rewrite Hr in H. lia.
Qed.

Lemma artCol_lt n m signs method r k :
  r < k -> takesArt signs method r = true -> artCol n m signs r < artCol n m signs k.
Proof.
  intros Hrk Hr. unfold artCol.
  pose proof (artBefore_mono signs (S r) k ltac:(lia)) as H.
  rewrite artBefore_S in H. unfold takesArt in Hr.
  apply andb_true_iff in Hr as [_ Hr]. rewrite Hr in H. lia.
Qed.

Lemma takesArt_range n m signs method i :
  i < m -> takesArt signs method i = true ->
  n + Extended.slackSurplusCount m signs <= artCol n m signs i
    < Extended.totalCols n m signs method - 1.
Proof.
  intros Hi H. unfold takesArt in H. apply andb_true_iff in H as [Hu Hs].
  by apply artCol_range.
Qed.

(** A row holds zero (or the product of zero and [-1]) in every auxiliary
    column that is not its own. *)
Lemma filledRow_other n m signs method k ck j :
  k < m -> n <= j < Extended.totalCols n m signs method - 1 ->
  (takesSlack signs k = true -> j <> slackCol n signs k) ->
  (takesArt signs method k = true -> j <> artCol n m signs k) ->
  zeroOrNaN (rd (filledRow n m signs method k ck) j) = true.
Proof.
  intros Hk Hj Hslack Hart.
  pose proof (totalCols_ge n m signs method) as Hc.
  set (cols := Extended.totalCols n m signs method) in *.
  assert (Hbase : rd (baseRow n cols ck) j = 0%float) by (by apply rd_baseRow_zero).
  assert (Hneg : rd (negated (baseRow n cols ck)) j = (0 * -1)%float).
  { unfold negated. rewrite rd_map by (rewrite length_baseRow; lia). by rewrite Hbase. }
  unfold filledRow, takesSlack, takesArt in *. fold cols.
  destruct method; simpl in *;
    destruct (Extended.signIs signs k "<="), (Extended.signIs signs k ">="),
             (Extended.signIs signs k "="); simpl in *;
    rewrite ?rd_insert_ne by (first [apply not_eq_sym; by apply Hslack
                                    | apply not_eq_sym; by apply Hart]);
    rewrite ?Hbase, ?Hneg; by vm_compute.
Qed.

(** The basic column of a row, and the one that row holds there. *)
Lemma filledBasic_cases n m signs method i ci :
  i < m ->
  Extended.signIs signs i "<=" || Extended.signIs signs i ">=" ||
    (Extended.useArtificials method && Extended.signIs signs i "=") = true ->
  exists b, filledBasic n m signs method i = Z.of_nat b /\
            rd (filledRow n m signs method i ci) b = 1%float /\
            n <= b < Extended.totalCols n m signs method - 1 /\
            ((takesSlack signs i = true /\ b = slackCol n signs i) \/
             (takesArt signs method i = true /\ b = artCol n m signs i)).
Proof.
  intros Hi Hhas.
  pose proof (totalCols_ge n m signs method) as Hc.
  pose proof (slackCol_range n m signs method i Hi) as Hsr.
  pose proof (takesArt_range n m signs method i Hi) as Har.
  unfold filledBasic, filledRow, takesSlack, takesArt in *.
  set (cols := Extended.totalCols n m signs method) in *.
  assert (Hlb : length (baseRow n cols ci) = cols) by (apply length_baseRow; lia).
  assert (Hln : length (negated (baseRow n cols ci)) = cols)
    by (unfold negated; by rewrite length_map).
  destruct (Extended.signIs signs i "<=") eqn:Hle.
  - rewrite (signIs_excl signs i "<=" ">=" Hle) in * by done.
    simpl in *. rewrite andb_false_r. simpl.
    exists (slackCol n signs i). split; [done|].
    split; [apply rd_insert_eq; lia|]. split; [lia|]. by left.
  - destruct (Extended.signIs signs i ">=") eqn:Hge.
    + rewrite (signIs_excl signs i ">=" "=" Hge) in * by done. simpl in *.
      destruct method; simpl in *.
      * exists (slackCol n signs i). split; [done|].
        split; [apply rd_insert_eq; lia|]. split; [lia|]. by left.
      * exists (artCol n m signs i). split; [done|].
        split; [apply rd_insert_eq; rewrite length_insert; lia|]. split; [lia|]. by right.
      * exists (artCol n m signs i). split; [done|].
        split; [apply rd_insert_eq; rewrite length_insert; lia|]. split; [lia|]. by right.
    + simpl in *. apply andb_true_iff in Hhas as [Hu Heq]. rewrite Hu, Heq in *.
      simpl in *. rewrite andb_false_r. simpl.
      exists (artCol n m signs i). split; [done|].
      split; [apply rd_insert_eq; lia|]. split; [lia|]. by right.
Qed.

(** The basic column of one row is no auxiliary column of another row. *)
Lemma filledBasic_distinct n m signs method r k b :
  r < m -> k < m -> r <> k ->
  ((takesSlack signs r = true /\ b = slackCol n signs r) \/
   (takesArt signs method r = true /\ b = artCol n m signs r)) ->
  (takesSlack signs k = true -> b <> slackCol n signs k) /\
  (takesArt signs method k = true -> b <> artCol n m signs k).
Proof.
  intros Hr Hk Hne Hb.
  pose proof (slackCol_range n m signs method r Hr) as Hsr.
  pose proof (slackCol_range n m signs method k Hk) as Hsk.
  pose proof (takesArt_range n m signs method r Hr) as Har.
  pose proof (takesArt_range n m signs method k Hk) as Hak.
  unfold takesSlack in Hsr, Hsk.
  split; intros Hk'; destruct Hb as [[Hr' ->] | [Hr' ->]].
  - destruct (decide (r < k)).
    + pose proof (slackCol_lt n signs r k ltac:(lia) Hr'). lia.
    + pose proof (slackCol_lt n signs k r ltac:(lia) Hk'). lia.
  - specialize (Hsk Hk'). specialize (Har Hr'). lia.
  - specialize (Hsr Hr'). specialize (Hak Hk'). lia.
  - destruct (decide (r < k)).
    + pose proof (artCol_lt n m signs method r k ltac:(lia) Hr'). lia.
    + pose proof (artCol_lt n m signs method k r ltac:(lia) Hk'). lia.
Qed.

Lemma everyRowHasBasic_at m signs method i :
  everyRowHasBasic m signs method = true -> i < m ->
  Extended.signIs signs i "<=" || Extended.signIs signs i ">=" ||
    (Extended.useArtificials method && Extended.signIs signs i "=") = true.
Proof.
  unfold everyRowHasBasic. rewrite forallb_forall. intros H Hi.
  apply (H i). apply in_seq. lia.
Qed.

Lemma filled_basis_canonical n m signs method basic t :
  everyRowHasBasic m signs method = true ->
  length basic = m ->
  (forall i, i < m -> exists ci,
     rowAt t (i + 1) = filledRow n m signs method i ci /\
     basic !! i = Some (filledBasic n m signs method i)) ->
  validBasis m (Extended.totalCols n m signs method) basic /\
  rowsCanonical (m + 1) t basic.
Proof.
  intros Hall Hlen Hrows.
  set (cols := Extended.totalCols n m signs method).
  (* each entry of the basis, with the column it names *)
  assert (Hentry : forall r z, basic !! r = Some z -> r < m /\ exists b ci,
    z = Z.of_nat b /\ rowAt t (r + 1) = filledRow n m signs method r ci /\
    rd (filledRow n m signs method r ci) b = 1%float /\ n <= b < cols - 1 /\
    ((takesSlack signs r = true /\ b = slackCol n signs r) \/
     (takesArt signs method r = true /\ b = artCol n m signs r))).
  { intros r z Hz.
    assert (Hr : r < m) by (rewrite <- Hlen; by eapply lookup_lt_Some).
    split; [done|]. destruct (Hrows r Hr) as (ci & Hrow & Hb).
    destruct (filledBasic_cases n m signs method r ci Hr
                (everyRowHasBasic_at m signs method r Hall Hr))
      as (b & Hfb & Hone & Hrange & Hkind).
    exists b, ci. rewrite Hb in Hz. injection Hz as <-. done. }
  split.
  - split; [done|]. split.
    + apply Forall_forall. intros z Hz. apply list_elem_of_lookup_1 in Hz as [r Hr].
      destruct (Hentry r z Hr) as (_ & b & ci & -> & _ & _ & Hrange & _). fold cols. lia.
    + apply NoDup_alt. intros r k z Hr Hk.
      destruct (decide (r = k)) as [|Hne]; [done|].
      destruct (Hentry r z Hr) as (Hrm & b & ci & -> & _ & _ & _ & Hkind).
      destruct (Hentry k _ Hk) as (Hkm & b' & ci' & Hbb & _ & _ & _ & Hkind').
      assert (b' = b) as -> by lia.
      destruct (filledBasic_distinct n m signs method r k b Hrm Hkm Hne Hkind) as [H1 H2].
      destruct Hkind' as [[Hs ->] | [Ha ->]]; [by destruct (H1 Hs)|by destruct (H2 Ha)].
  - intros r b Hr.
    destruct (Hentry r _ Hr) as (Hrm & b0 & ci & Hbb & Hrow & Hone & Hrange & Hkind).
    assert (b0 = b) as -> by lia. split.
    + unfold cell. by rewrite Hrow, Hone.
    + intros k Hk Hkr. destruct (Hrows (k - 1)) as (ck & Hrowk & _); [lia|].
      unfold cell. replace k with (k - 1 + 1) by lia. rewrite Hrowk.
      destruct (filledBasic_distinct n m signs method r (k - 1) b Hrm) as [H1 H2];
        [lia|lia|done|].
      apply filledRow_other; [lia|done|done|done].
Qed.

Lemma initObjective_shaped type n m c signs method rows cols t :
  shaped rows cols t -> shaped rows cols (Extended.initObjective type n m c signs method t).
Proof.
  intros Hs. unfold Extended.initObjective, Extended.writeArtificials, Extended.writeCosts.
  destruct method;
    repeat match goal with
      | |- shaped _ _ (fold_left (fun t j => setCell t 0 j ?v) ?js ?t0) =>
          let Hl := fresh "Hl" in
          let Hr := fresh "Hr" in
          destruct (fold_setCell_row0_length (fun _ j => v) js t0) as [Hl Hr];
          apply (shaped_of_lengths rows cols t0); [|done|done]
      end; done.
Qed.

Lemma eliminateBasic_as_canonicalize n m signs method basic t :
  Extended.eliminateBasic n m signs method basic t =
  canonicalizeObjective (fun x => negb (x =? 0)%float) m
                        (Extended.totalCols n m signs method) basic t.
Proof. reflexivity. Qed.

Lemma writeCosts_row0 type n c t cols :
  0 < length t -> n <= cols -> rowAt t 0 = replicate cols 0%float ->
  rowAt (Extended.writeCosts type n c t) 0 =
  map (fun j => (- rd (costs type c) j)%float) (seq 0 n) ++ replicate (cols - n) 0%float.
Proof.
  intros Hl Hn Hrow. unfold Extended.writeCosts.
  rewrite (fold_setCell_row (fun _ j => (- rd (costs type c) j)%float) t 0 (seq 0 n)).
  rewrite rowAt_insert_eq by done. rewrite Hrow.
  by apply (fold_insert_replicate (fun j => (- rd (costs type c) j)%float)).
Qed.

Lemma not_below_tol_of_zero x :
  negb (x =? 0)%float = false -> (x <? - tol9)%float = false.
Proof.
  intros H. apply FloatExact.nonsel_zn; [by vm_compute|].
  unfold zeroOrNaN. apply negb_false_iff in H. by rewrite H.
Qed.

Lemma extended_build_basisInv type n m c cons signs method :
  m <= length cons -> everyRowHasBasic m signs method = true ->
  exists st0, Extended.build type n m c cons signs method = Some st0 /\
              basisInv (- tol9)%float m (Extended.totalCols n m signs method) st0.
Proof.
  intros Hm Hall.
  destruct (fillConstraints_spec n m cons signs method Hm) as (fs & Hfs & Hinv).
  unfold Extended.build. rewrite Hfs. cbn [mbind option_bind].
  eexists. split; [done|].
  set (cols := Extended.totalCols n m signs method).
  pose proof (totalCols_ge n m signs method) as Hcols. fold cols in Hcols.
  destruct Hinv as (Hlt & Hlb & _ & _ & Hrow0 & Hdone & _). fold cols in Hrow0.
  set (t := Extended.fTableau fs) in *. set (basic := Extended.fBasic fs) in *.
  set (t0 := Extended.initObjective type n m c signs method t).
  assert (Hshape : shaped (m + 1) cols t).
  { split; [by rewrite Hlt; unfold Extended.numRows|]. intros i Hi. destruct i as [|i].
    - by rewrite Hrow0, length_replicate.
    - destruct (Hdone i) as (ci & _ & Hrow & _); [lia|].
      replace (S i) with (i + 1) by lia. rewrite Hrow. apply length_filledRow. }
  assert (Hshape0 : shaped (m + 1) cols t0) by (by apply initObjective_shaped).
  assert (Hrows0 : forall i, i < m -> exists ci,
            rowAt t0 (i + 1) = filledRow n m signs method i ci /\
            basic !! i = Some (filledBasic n m signs method i)).
  { intros i Hi. destruct (Hdone i Hi) as (ci & _ & Hrow & Hb). exists ci.
    split; [|done]. unfold t0. by rewrite initObjective_other by lia. }
  destruct (filled_basis_canonical n m signs method basic t0 Hall Hlb Hrows0)
    as [Hvalid Hcanon]. fold cols in Hvalid.
  unfold basisInv. cbn [stTableau stBasic stSteps].
  destruct (Extended.useArtificials method) eqn:Hu.
  - rewrite eliminateBasic_as_canonicalize. fold cols.
    destruct (canonicalizeObjective_spec (fun x => negb (x =? 0)%float) (- tol9)%float
                m cols basic t0 not_below_tol_of_zero ltac:(by vm_compute)
                Hshape0 Hvalid Hcanon) as (H1 & H2 & H3).
    split; [done|]. split; [done|]. split; [|split; [done|constructor]].
    intros r b Hr. destruct (Hcanon r b Hr) as [Hown Hothers]. split.
    + by rewrite (cell_other_row t0) by (apply H2; lia).
    + intros k Hk Hkr. rewrite (cell_other_row t0) by (apply H2; lia). by apply Hothers.
  - split; [done|]. split; [done|]. split; [done|]. split; [|constructor].
    intros r b Hr.
    destruct (validBasis_lookup m cols basic r _ Hvalid Hr) as [Hrm Hrange].
    destruct (Hrows0 r Hrm) as (ci & _ & Hb). rewrite Hr in Hb. injection Hb as Hb.
    destruct (filledBasic_cases n m signs method r ci Hrm
                (everyRowHasBasic_at m signs method r Hall Hrm))
      as (b' & Hfb & _ & Hrange' & _).
    assert (b' = b) as -> by lia.
    assert (Hstd : method = Extended.Standard) by (by destruct method).
    unfold t0, Extended.initObjective. rewrite Hstd. unfold cell.
    rewrite (writeCosts_row0 type n c t cols);
      [|destruct Hshape; lia|lia|done].
    unfold rd. rewrite lookup_app_r by (rewrite length_map, length_seq; lia).
    rewrite length_map, length_seq, lookup_replicate_2 by lia. by vm_compute.
Qed.

(** ** Phase 2 starts from a canonical state *)

Lemma preparePhase2_as_canonicalize type n m c signs method basic t :
  Extended.preparePhase2 type n m c signs method basic t =
  canonicalizeObjective (fun x => (tol9 <? abs x)%float) m
    (Extended.totalCols n m signs method) basic
    (Extended.writeCosts type n c
       (fold_left (fun t j => setCell t 0 j 0%float)
                  (seq 0 (Extended.totalCols n m signs method)) t)).
Proof. reflexivity. Qed.

Lemma phase2Start_basisInv type n m c signs method st1 :
  basisInv (- tol9)%float m (Extended.totalCols n m signs method) st1 ->
  basisInv (- tol9)%float m (Extended.totalCols n m signs method)
           (Extended.phase2Start type n m c signs method st1).
Proof.
  intros (Hshape & Hvalid & Hrows & _ & Hsteps).
  set (cols := Extended.totalCols n m signs method) in *.
  unfold Extended.phase2Start, basisInv. cbn [stTableau stBasic stSteps].
  rewrite preparePhase2_as_canonicalize. fold cols.
  set (t := stTableau st1) in *. set (basic := stBasic st1) in *.
  set (t1 := fold_left (fun t j => setCell t 0 j 0%float) (seq 0 cols) t).
  set (t2 := Extended.writeCosts type n c t1).
  assert (Hsame : forall r, r <> 0 -> rowAt t2 r = rowAt t r).
  { intros r Hr. unfold t2, Extended.writeCosts, t1.
    rewrite (fold_setCell_row0_other (fun _ j => (- rd (costs type c) j)%float)) by done.
    by rewrite (fold_setCell_row0_other (fun _ _ => 0%float)). }
  assert (Hshape2 : shaped (m + 1) cols t2).
  { unfold t2, Extended.writeCosts.
    destruct (fold_setCell_row0_length (fun _ j => (- rd (costs type c) j)%float)
                (seq 0 n) t1) as [Hl Hr].
    apply (shaped_of_lengths (m + 1) cols t1); [|done|done].
    destruct (fold_setCell_row0_length (fun _ _ => 0%float) (seq 0 cols) t) as [Hl' Hr'].
    by apply (shaped_of_lengths (m + 1) cols t). }
  assert (Hrows2 : rowsCanonical (m + 1) t2 basic).
  { intros r b Hr. destruct (Hrows r b Hr) as [Hown Hothers]. split.
    - by rewrite (cell_other_row t) by (apply Hsame; lia).
    - intros k Hk Hkr. rewrite (cell_other_row t) by (apply Hsame; lia). by apply Hothers. }
  destruct (canonicalizeObjective_spec (fun x => (tol9 <? abs x)%float) (- tol9)%float
              m cols basic t2 (fun x => FloatExact.nonsel_of_abs x tol9)
              ltac:(by vm_compute) Hshape2 Hvalid Hrows2) as (H1 & H2 & H3).
  split; [done|]. split; [done|]. split; [|done].
  intros r b Hr. destruct (Hrows2 r b Hr) as [Hown Hothers]. split.
  - by rewrite (cell_other_row t2) by (apply H2; lia).
  - intros k Hk Hkr. rewrite (cell_other_row t2) by (apply H2; lia). by apply Hothers.
Qed.

(** ** The basis is valid throughout a solve (C3) *)





(** * Properties of whole solves *)

(** ** A result and the run it comes from *)

Lemma simple_result_cases type n m c cons r :
  Simple.solveSimplex type n m c cons = Some r ->
  exists st0 k st',
    Simple.build type n m c cons = Some st0 /\
    k <= 100 /\ afterPivots (simpleBody n m) 0 k st0 = Some st' /\
    resultState r = st' /\
    ((Simple.loopBody n m st' = IterUnbounded /\ k < 100 /\
      r = abortResult Unbounded (Simple.names n m) st') \/
     ((Simple.loopBody n m st' = IterOptimal \/ k = 100) /\
      r = optimalResult type n m (Simple.totalCols n m) (Simple.names n m) st')).
Proof.
  unfold Simple.solveSimplex.
  destruct (Simple.build type n m c cons) as [st0|]; cbn [mbind option_bind]; [|done].
  intros H. apply (inj Some) in H. subst r.
  destruct (simple_loop_spec n m Simple.maxIterations st0) as (k & st' & Hk & Hrun & Hend).
  exists st0, k, st'. split; [done|]. split; [by rewrite <- simple_cap|]. split; [done|].
  unfold Simple.finish.
  destruct Hend as [(-> & Hb & Hlt) | (-> & Hb)]; cbn [fst snd];
    rewrite simple_cap in *.
  - split; [by destruct st'|]. left. done.
  - split; [by destruct st'|]. right. done.
Qed.

Lemma extended_run_cases n m signs method st iterStart :
  exists k st',
    k <= 50 /\
    afterPivots (extendedBody n m signs method iterStart) 0 k st = Some st' /\
    ((Extended.runSimplexLoop n m signs method st iterStart = (st', (-1)%Z) /\
      Extended.loopBody n m signs method iterStart k st' = IterUnbounded /\ k < 50) \/
     (Extended.runSimplexLoop n m signs method st iterStart = (st', Z.of_nat k) /\
      (Extended.loopBody n m signs method iterStart k st' = IterOptimal \/ k = 50))).
Proof.
  destruct (extended_runLoop_spec n m signs method iterStart Extended.maxIterations 0 st)
    as (k & st' & Hk & Hrun & Hend).
  exists k, st'. split; [by rewrite <- extended_cap|]. split; [done|].
  unfold Extended.runSimplexLoop. simpl in Hend.
  destruct Hend as [(-> & Hb & Hlt) | (-> & Hb)]; rewrite extended_cap in *;
    [by left | by right].
Qed.

(** An invariant of the pivots that the rebuilding of row 0 keeps holds of
    the state a result is extracted from. *)
Lemma extended_result_inv (I : State -> Prop) type n m c cons signs method st0 r :
  Extended.build type n m c cons signs method = Some st0 ->
  Extended.solveSimplex type n m c cons signs method = Some r ->
  (forall iterStart it st st',
     I st -> Extended.loopBody n m signs method iterStart it st = IterPivot st' -> I st') ->
  (forall st, method = Extended.TwoPhase -> I st ->
     I (Extended.phase2Start type n m c signs method st)) ->
  I st0 -> I (resultState r).
Proof.
  intros Hb Hr Hpivot Hprep H0.
  unfold Extended.solveSimplex in Hr. rewrite Hb in Hr. cbn [mbind option_bind] in Hr.
  apply (inj Some) in Hr. subst r.
  assert (Hrun : forall st z, I st -> I (Extended.runSimplexLoop n m signs method st z).1).
  { intros st z Hst.
    destruct (extended_run_cases n m signs method st z) as (k & st' & _ & Hrun & Hend).
    assert (E : (Extended.runSimplexLoop n m signs method st z).1 = st')
      by (destruct Hend as [[-> _] | [-> _]]; done).
    rewrite E.
    apply (afterPivots_inv (extendedBody n m signs method z) I)
      with (k := k) (it := 0) (st := st); [|done|done].
    intros it' s1 s2. apply Hpivot. }
  pose proof (Hrun st0 0%Z H0) as H1.
  unfold Extended.coordinate, Extended.extract.
  destruct method.
  - destruct (Extended.runSimplexLoop n m signs Extended.Standard st0 0) as [[t b ss] z].
    cbn [fst snd] in *. by destruct (z =? -1)%Z.
  - destruct (Extended.runSimplexLoop n m signs Extended.BigM st0 0) as [[t b ss] z].
    cbn [fst snd] in *. by destruct (z =? -1)%Z.
  - destruct (Extended.phase1Infeasible n m signs Extended.TwoPhase _).
    + by destruct (Extended.runSimplexLoop n m signs Extended.TwoPhase st0 0) as [[t b ss] z].
    + pose proof (Hrun _ (Extended.runSimplexLoop n m signs Extended.TwoPhase st0 0).2
                    (Hprep _ eq_refl H1)) as H2.
      destruct (Extended.runSimplexLoop n m signs Extended.TwoPhase
                  (Extended.phase2Start type n m c signs Extended.TwoPhase
                     (Extended.runSimplexLoop n m signs Extended.TwoPhase st0 0).1)
                  (Extended.runSimplexLoop n m signs Extended.TwoPhase st0 0).2)
        as [[t b ss] z].
      cbn [fst snd] in *. by destruct (z =? -1)%Z.
Qed.

Lemma simple_result_inv (I : State -> Prop) type n m c cons st0 r :
  Simple.build type n m c cons = Some st0 ->
  Simple.solveSimplex type n m c cons = Some r ->
  (forall st st', I st -> Simple.loopBody n m st = IterPivot st' -> I st') ->
  I st0 -> I (resultState r).
Proof.
  intros Hb Hr Hpivot H0.
  destruct (simple_result_cases _ _ _ _ _ _ Hr) as (st0' & k & st' & Hb' & _ & Hrun & -> & _).
  rewrite Hb in Hb'. injection Hb' as <-.
  apply (afterPivots_inv (simpleBody n m) I) with (k := k) (it := 0) (st := st0); [|done|done].
  intros it' s1 s2. apply Hpivot.
Qed.

(** ** When a solve fails *)

Lemma foldM_seq_fail {A} (f : A -> nat -> option A) s n k a0 :
  s <= k < s + n -> (forall a, f a k = None) ->
  fold_left (fun acc k => a ← acc; f a k) (seq s n) (Some a0) = None.
Proof.
  intros Hk Hf.
  replace n with ((k - s) + S (n - S (k - s))) by lia.
  rewrite seq_app, fold_left_app. replace (s + (k - s)) with k by lia.
  cbn [seq fold_left].
  destruct (fold_left _ (seq s (k - s)) (Some a0)) as [a|]; cbn [mbind option_bind].
  - rewrite Hf. apply foldM_none.
  - apply foldM_none.
Qed.

Lemma simple_build_none type n m c cons :
  length cons < m -> Simple.build type n m c cons = None.
Proof.
  intros H. unfold Simple.build.
  apply (foldM_seq_fail
           (fun st i => r ← Simple.constraintRow n m cons i;
                        Some (mkState (stTableau st ++ [r])
                                      (stBasic st ++ [Z.of_nat (n + i)]) []))
           0 m (length cons)); [lia|].
  intros st. unfold Simple.constraintRow.
  by rewrite (lookup_ge_None_2 cons (length cons)).
Qed.

Lemma extended_build_none type n m c cons signs method :
  length cons < m -> Extended.build type n m c cons signs method = None.
Proof.
  intros H. unfold Extended.build, Extended.fillConstraints.
  rewrite (foldM_seq_fail (Extended.fillRow n m cons signs method) 0 m (length cons));
    [done|lia|].
  intros fs. unfold Extended.fillRow.
  by rewrite (lookup_ge_None_2 cons (length cons)).
Qed.

Lemma simple_build_some_length type n m c cons st0 :
  Simple.build type n m c cons = Some st0 -> m <= length cons.
Proof.
  intros H. destruct (Nat.le_gt_cases m (length cons)) as [|Hlt]; [done|].
  by rewrite (simple_build_none type n m c cons Hlt) in H.
Qed.

Lemma extended_build_some_length type n m c cons signs method st0 :
  Extended.build type n m c cons signs method = Some st0 -> m <= length cons.
Proof.
  intros H. destruct (Nat.le_gt_cases m (length cons)) as [|Hlt]; [done|].
  by rewrite (extended_build_none type n m c cons signs method Hlt) in H.
Qed.


(** ** The sizes of a result *)

Lemma pushNames_spec pre count names :
  pushNames pre count names = names ++ numbered pre count.
Proof.
  unfold pushNames, numbered. induction count as [|k IH].
  - by rewrite app_nil_r.
  - rewrite seq_S, fold_left_app, map_app, IH. simpl. by rewrite <- app_assoc.
Qed.

Lemma length_numbered pre count : length (numbered pre count) = count.
Proof. unfold numbered. by rewrite length_map, length_seq. Qed.

Lemma simple_names_spec n m : Simple.names n m = numbered "x" n ++ numbered "s" m.
Proof. unfold Simple.names. by rewrite !pushNames_spec. Qed.

Lemma extended_names_spec n m signs method :
  Extended.names n m signs method =
  numbered "x" n ++ numbered "s" (Extended.slackSurplusCount m signs) ++
  (if Extended.useArtificials method
   then numbered "a" (Extended.artificialCount m signs) else []).
Proof.
  unfold Extended.names. destruct (Extended.useArtificials method);
    rewrite !pushNames_spec; simpl; by rewrite ?app_nil_r, <- ?app_assoc.
Qed.

Lemma length_simple_names n m : length (Simple.names n m) = Simple.totalCols n m - 1.
Proof.
  rewrite simple_names_spec, length_app, !length_numbered. unfold Simple.totalCols. lia.
Qed.

Lemma length_extended_names n m signs method :
  length (Extended.names n m signs method) = Extended.totalCols n m signs method - 1.
Proof.
  rewrite extended_names_spec, !length_app, !length_numbered. unfold Extended.totalCols.
  destruct (Extended.useArtificials method); rewrite ?length_numbered; simpl; lia.
Qed.

(** Shapes *)

Lemma fold_shaped {X} rows cols (f : list (list float) -> X -> list (list float)) l t :
  (forall t x, shaped rows cols t -> shaped rows cols (f t x)) ->
  shaped rows cols t -> shaped rows cols (fold_left f l t).
Proof.
  intros Hf. revert t. induction l as [|x l IH]; intros t Ht; simpl; [done|].
  apply IH. by apply Hf.
Qed.

Lemma canonicalizeObjective_shaped cond rows m cols basic t :
  shaped rows cols t -> shaped rows cols (canonicalizeObjective cond m cols basic t).
Proof.
  unfold canonicalizeObjective. apply fold_shaped. intros t' i Ht'.
  destruct (cond _); [|done].
  apply fold_shaped; [|done]. intros t'' j Ht''. by apply shaped_setCell.
Qed.

Lemma preparePhase2_shaped type n m c signs method rows basic t :
  shaped rows (Extended.totalCols n m signs method) t ->
  shaped rows (Extended.totalCols n m signs method)
         (Extended.preparePhase2 type n m c signs method basic t).
Proof.
  intros Ht. rewrite preparePhase2_as_canonicalize.
  apply canonicalizeObjective_shaped. unfold Extended.writeCosts.
  apply fold_shaped; [intros; by apply shaped_setCell|].
  apply fold_shaped; [intros; by apply shaped_setCell|done].
Qed.

Lemma firstLeast_range val bound a n i : firstLeast val bound a n i -> a <= i < a + n.
Proof. by intros [H _]. Qed.

Lemma simple_pivot_stateShape n m st st' :
  stateShape m (Simple.totalCols n m) st ->
  Simple.loopBody n m st = IterPivot st' ->
  stateShape m (Simple.totalCols n m) st'.
Proof.
  intros (Ht & Hb & Hs) E.
  destruct (simple_pivot_inv n m st st' E) as (i & j & Hj & Hi & ->).
  apply firstLeast_range in Hj, Hi.
  destruct (pivotTableau_spec (m + 1) (Simple.totalCols n m) (stTableau st) i j Ht)
    as [Ht' _]; [lia|lia|].
  split; [done|]. split; [simpl; by rewrite length_insert|].
  simpl. apply Forall_app. split; [done|]. by apply Forall_singleton.
Qed.

Lemma extended_pivot_stateShape n m signs method iterStart it st st' :
  stateShape m (Extended.totalCols n m signs method) st ->
  Extended.loopBody n m signs method iterStart it st = IterPivot st' ->
  stateShape m (Extended.totalCols n m signs method) st'.
Proof.
  intros (Ht & Hb & Hs) E.
  destruct (extended_pivot_inv n m signs method iterStart it st st' E)
    as (i & j & Hj & Hi & ->).
  apply firstLeast_range in Hj, Hi.
  destruct (pivotTableau_spec (m + 1) (Extended.totalCols n m signs method)
              (stTableau st) i j Ht) as [Ht' _]; [lia|lia|].
  split; [done|]. split; [simpl; by rewrite length_insert|].
  simpl. apply Forall_app. split; [done|]. apply Forall_singleton.
  simpl. by rewrite length_insert.
Qed.

Lemma phase2Start_stateShape type n m c signs method st :
  stateShape m (Extended.totalCols n m signs method) st ->
  stateShape m (Extended.totalCols n m signs method)
             (Extended.phase2Start type n m c signs method st).
Proof.
  intros (Ht & Hb & Hs). split; [|done]. simpl. by apply preparePhase2_shaped.
Qed.

Lemma simple_build_stateShape type n m c cons st0 :
  Simple.build type n m c cons = Some st0 -> stateShape m (Simple.totalCols n m) st0.
Proof.
  intros Hb. destruct (simple_build_basisInv _ _ _ _ _ _ Hb) as (Ht & (Hl & _) & _).
  destruct (simple_build_shape _ _ _ _ _ _ Hb) as (Hs & _).
  split; [done|]. split; [done|]. rewrite Hs. constructor.
Qed.

Lemma extended_build_stateShape type n m c cons signs method st0 :
  Extended.build type n m c cons signs method = Some st0 ->
  stateShape m (Extended.totalCols n m signs method) st0.
Proof.
  intros Hb. pose proof (extended_build_some_length _ _ _ _ _ _ _ _ Hb) as Hm.
  destruct (fillConstraints_spec n m cons signs method Hm) as (fs & Hfs & Hinv).
  unfold Extended.build in Hb. rewrite Hfs in Hb. cbn [mbind option_bind] in Hb.
  apply (inj Some) in Hb. subst st0.
  destruct Hinv as (Hlt & Hlb & _ & _ & H0 & Hdone & _).
  assert (Hfill : shaped (m + 1) (Extended.totalCols n m signs method) (Extended.fTableau fs)).
  { split; [done|]. intros i Hi. destruct i as [|i].
    - by rewrite H0, length_replicate.
    - replace (S i) with (i + 1) by lia.
      destruct (Hdone i) as (ci & _ & -> & _); [lia|]. apply length_filledRow. }
  split; [|split; [done|constructor]]. simpl.
  assert (Hinit := initObjective_shaped type n m c signs method _ _ _ Hfill).
  destruct (Extended.useArtificials method); [|done].
  rewrite eliminateBasic_as_canonicalize. by apply canonicalizeObjective_shaped.
Qed.

Lemma length_setZ (l : list float) j v : length (setZ l j v) = length l.
Proof. unfold setZ. destruct (j <? 0)%Z; [done|]. apply length_insert. Qed.

Lemma length_extractSolution t basic n m cols :
  length (extractSolution t basic n m cols) = n.
Proof.
  unfold extractSolution.
  assert (G : forall l sol, length sol = n ->
    length (fold_left (fun sol i =>
               let v := basicAt basic i in
               if (v <? Z.of_nat n)%Z then setZ sol v (cell t (i + 1) (cols - 1)) else sol)
            l sol) = n).
  { induction l as [|i l IH]; intros sol Hsol; simpl; [done|].
    apply IH. destruct (_ <? _)%Z; [by rewrite length_setZ|done]. }
  apply G. apply length_replicate.
Qed.

(** X2: every result is rectangular.  The final tableau and every recorded
    tableau have [m + 1] rows of [totalCols] entries, the final basis and
    every recorded basis have [m] entries, [variableNames] has one name per
    column but the last, and the solution has [numVars] entries when the
    status is Optimal and none otherwise. *)
Theorem result_is_rectangular type n m c cons signs method r :
  (Simple.solveSimplex type n m c cons = Some r ->
   resultShape n m (Simple.totalCols n m) r) /\
  (Extended.solveSimplex type n m c cons signs method = Some r ->
   resultShape n m (Extended.totalCols n m signs method) r).
Proof.
  split; intros Hr.
  - destruct (simple_result_cases _ _ _ _ _ _ Hr) as (st0 & k & st' & Hb & _ & _ & _ & Hend).
    split; [|split].
    + apply (simple_result_inv _ type n m c cons st0 r Hb Hr).
      * apply simple_pivot_stateShape.
      * by apply (simple_build_stateShape type n m c cons).
    + destruct Hend as [(_ & _ & ->) | (_ & ->)]; apply length_simple_names.
    + destruct Hend as [(_ & _ & ->) | (_ & ->)]; [done|]. apply length_extractSolution.
  - unfold Extended.solveSimplex in Hr.
    destruct (Extended.build type n m c cons signs method) as [st0|] eqn:Hb;
      cbn [mbind option_bind] in Hr; [|done].
    split; [|split].
    + apply (extended_result_inv _ type n m c cons signs method st0 r Hb).
      * unfold Extended.solveSimplex. by rewrite Hb.
      * apply extended_pivot_stateShape.
      * intros st _. apply phase2Start_stateShape.
      * by apply (extended_build_stateShape type n m c cons).
    + apply (inj Some) in Hr. subst r. unfold Extended.coordinate, Extended.extract.
      destruct method;
        repeat match goal with
          | |- context [if ?b then _ else _] => destruct b
          end; apply length_extended_names.
    + apply (inj Some) in Hr. subst r. unfold Extended.coordinate, Extended.extract.
      destruct method;
        repeat match goal with
          | |- context [if ?b then _ else _] => destruct b
          end; first [done | apply length_extractSolution].
Qed.

(** ** The solution vector and the canonical form of the final tableau *)

Lemma extractSolution_spec t basic n m cols :
  length basic = m -> NoDup basic ->
  readsBasicRows n cols t basic (extractSolution t basic n m cols).
Proof.
  intros Hlen Hnd. split; [apply length_extractSolution|].
  unfold extractSolution.
  set (body := fun sol i =>
                 let v := basicAt basic i in
                 if (v <? Z.of_nat n)%Z then setZ sol v (cell t (i + 1) (cols - 1)) else sol).
  assert (G : forall k, k <= m ->
    let sol := fold_left body (seq 0 k) (replicate n 0%float) in
    length sol = n /\
    forall j, j < n ->
      (forall i, i < k -> basic !! i = Some (Z.of_nat j) ->
         rd sol j = cell t (i + 1) (cols - 1)) /\
      ((forall i, i < k -> basic !! i <> Some (Z.of_nat j)) -> rd sol j = 0%float)).
  { induction k as [|k IH]; intros Hk; cbv zeta.
    - simpl. split; [apply length_replicate|]. intros j Hj. split; [intros i Hi; lia|].
      intros _. unfold rd. by rewrite lookup_replicate_2.
    - rewrite seq_S, fold_left_app. cbn [fold_left]. simpl "+".
      destruct IH as [Hl IH]; [lia|].
      set (sol := fold_left body (seq 0 k) (replicate n 0%float)) in *.
      destruct (lookup_lt_is_Some_2 basic k) as [b Hb]; [lia|].
      assert (Ebody : body sol k =
                if (b <? Z.of_nat n)%Z
                then (if (b <? 0)%Z then sol
                      else <[Z.to_nat b := cell t (k + 1) (cols - 1)]> sol)
                else sol).
      { unfold body, basicAt, setZ. by rewrite Hb. }
      rewrite Ebody. clear Ebody.
      destruct (Z.ltb_spec b (Z.of_nat n)) as [Hbn|Hbn].
      + destruct (Z.ltb_spec b 0) as [Hb0|Hb0].
        * split; [done|]. intros j Hj. destruct (IH j Hj) as [IH1 IH2]. split.
          -- intros i Hi Hbi. destruct (decide (i = k)) as [->|Hne].
             ++ rewrite Hb in Hbi. injection Hbi as ->. lia.
             ++ apply IH1; [lia|done].
          -- intros Hno. apply IH2. intros i Hi. apply Hno. lia.
        * split; [by rewrite length_insert|]. intros j Hj.
          destruct (IH j Hj) as [IH1 IH2].
          destruct (decide (Z.to_nat b = j)) as [<-|Hne].
          -- split.
             ++ intros i Hi Hbi. rewrite Z2Nat.id in Hbi by done.
                rewrite (NoDup_lookup basic i k b Hnd Hbi Hb).
                apply rd_insert_eq. lia.
             ++ intros Hno. destruct (Hno k); [lia|]. by rewrite Z2Nat.id.
          -- rewrite rd_insert_ne by done. split.
             ++ intros i Hi Hbi. destruct (decide (i = k)) as [->|Hne'].
                ** rewrite Hb in Hbi. injection Hbi as ->. by rewrite Nat2Z.id in Hne.
                ** apply IH1; [lia|done].
             ++ intros Hno. apply IH2. intros i Hi. apply Hno. lia.
      + split; [done|]. intros j Hj. destruct (IH j Hj) as [IH1 IH2]. split.
        * intros i Hi Hbi. destruct (decide (i = k)) as [->|Hne].
          -- rewrite Hb in Hbi. injection Hbi as ->. lia.
          -- apply IH1; [lia|done].
        * intros Hno. apply IH2. intros i Hi. apply Hno. lia. }
  destruct (G m) as [_ G']; [lia|]. intros j Hj. destruct (G' j Hj) as [G1 G2]. split.
  - intros i Hbi. apply G1; [|done]. apply lookup_lt_Some in Hbi. lia.
  - intros Hnot. apply G2. intros i _ Hbi. apply Hnot. by eapply list_elem_of_lookup_2.
Qed.

Lemma simple_result_basisInv type n m c cons r :
  Simple.solveSimplex type n m c cons = Some r ->
  basisInv 0%float m (Simple.totalCols n m) (resultState r).
Proof.
  intros Hr.
  destruct (simple_result_cases _ _ _ _ _ _ Hr) as (st0 & _ & _ & Hb & _).
  apply (simple_result_inv _ type n m c cons st0 r Hb Hr).
  - apply simple_pivot_basisInv.
  - by apply (simple_build_basisInv type n m c cons).
Qed.

Lemma extended_result_basisInv type n m c cons signs method r :
  everyRowHasBasic m signs method = true ->
  Extended.solveSimplex type n m c cons signs method = Some r ->
  basisInv (- tol9)%float m (Extended.totalCols n m signs method) (resultState r).
Proof.
  intros Hall Hr.
  destruct (Extended.build type n m c cons signs method) as [st0|] eqn:Hb;
    [|by unfold Extended.solveSimplex in Hr; rewrite Hb in Hr].
  pose proof (extended_build_some_length _ _ _ _ _ _ _ _ Hb) as Hm.
  destruct (extended_build_basisInv type n m c cons signs method Hm Hall)
    as (st0' & Hb' & Hinv).
  rewrite Hb in Hb'. injection Hb' as <-.
  apply (extended_result_inv _ type n m c cons signs method st0 r Hb Hr).
  - intros iterStart it. apply extended_pivot_basisInv.
  - intros st _. apply phase2Start_basisInv.
  - done.
Qed.

Lemma simple_optimal_form type n m c cons r :
  Simple.solveSimplex type n m c cons = Some r -> status r = Optimal ->
  solution r = extractSolution (finalTableau r) (finalBasicVars r) n m (Simple.totalCols n m) /\
  optimalValue r = extractValue type (finalTableau r) (Simple.totalCols n m).
Proof.
  intros Hr Hs.
  destruct (simple_result_cases _ _ _ _ _ _ Hr) as (st0 & k & st' & _ & _ & _ & _ & Hend).
  destruct Hend as [(_ & _ & ->) | (_ & ->)]; [done|done].
Qed.

Lemma extended_optimal_form type n m c cons signs method r :
  Extended.solveSimplex type n m c cons signs method = Some r -> status r = Optimal ->
  solution r = extractSolution (finalTableau r) (finalBasicVars r) n m
                               (Extended.totalCols n m signs method) /\
  optimalValue r = extractValue type (finalTableau r) (Extended.totalCols n m signs method).
Proof.
  unfold Extended.solveSimplex.
  destruct (Extended.build type n m c cons signs method) as [st0|];
    cbn [mbind option_bind]; [|done].
  intros Hr. apply (inj Some) in Hr. subst r.
  unfold Extended.coordinate, Extended.extract.
  destruct method;
    repeat match goal with
      | |- context [if ?b then _ else _] => destruct b
      end; done.
Qed.

(** X3: in an Optimal result the solution holds, for each decision
    variable, the right-hand side of the row it is basic in, and [0] when it
    is basic in no row; the optimal value is the right-hand side of row 0,
    negated for [min].  This holds in the simple variant, and in the
    extended variant when every constraint gets a basic variable. *)
Theorem solution_reads_basic_rows type n m c cons signs method r :
  (Simple.solveSimplex type n m c cons = Some r -> status r = Optimal ->
   readsBasicRows n (Simple.totalCols n m) (finalTableau r) (finalBasicVars r) (solution r) /\
   optimalValue r =
     let z := cell (finalTableau r) 0 (Simple.totalCols n m - 1) in
     match type with Min => (- z)%float | Max => z end) /\
  (everyRowHasBasic m signs method = true ->
   Extended.solveSimplex type n m c cons signs method = Some r -> status r = Optimal ->
   readsBasicRows n (Extended.totalCols n m signs method)
                  (finalTableau r) (finalBasicVars r) (solution r) /\
   optimalValue r =
     let z := cell (finalTableau r) 0 (Extended.totalCols n m signs method - 1) in
     match type with Min => (- z)%float | Max => z end).
Proof.
  split.
  - intros Hr Hs. destruct (simple_optimal_form _ _ _ _ _ _ Hr Hs) as [-> ->].
    split; [|done].
    destruct (simple_result_basisInv _ _ _ _ _ _ Hr) as (_ & (Hl & _ & Hnd) & _).
    by apply extractSolution_spec.
  - intros Hall Hr Hs. destruct (extended_optimal_form _ _ _ _ _ _ _ _ Hr Hs) as [-> ->].
    split; [|done].
    destruct (extended_result_basisInv _ _ _ _ _ _ _ _ Hall Hr) as (_ & (Hl & _ & Hnd) & _).
    by apply extractSolution_spec.
Qed.

(** X4: the final tableau is in canonical form for the final basis: the
    column of a basic variable holds one (or NaN) in its own row and zero
    (or NaN) in the other constraint rows, and its row-0 entry is not below
    the entering bound of the variant. *)
Theorem final_tableau_is_canonical type n m c cons signs method r :
  (Simple.solveSimplex type n m c cons = Some r ->
   rowsCanonical (m + 1) (finalTableau r) (finalBasicVars r) /\
   objectiveCanonical 0%float (finalTableau r) (finalBasicVars r)) /\
  (everyRowHasBasic m signs method = true ->
   Extended.solveSimplex type n m c cons signs method = Some r ->
   rowsCanonical (m + 1) (finalTableau r) (finalBasicVars r) /\
   objectiveCanonical (- tol9)%float (finalTableau r) (finalBasicVars r)).
Proof.
  split.
  - intros Hr. by destruct (simple_result_basisInv _ _ _ _ _ _ Hr) as (_ & _ & ? & ? & _).
  - intros Hall Hr.
    by destruct (extended_result_basisInv _ _ _ _ _ _ _ _ Hall Hr) as (_ & _ & ? & ? & _).
Qed.

(** ** The recorded tableaux and the pivot elements *)

Lemma recordsTableauBefore_snoc rows cols t0 ss t s :
  recordsTableauBefore rows cols t0 ss t -> tableau s = t ->
  recordsTableauBefore rows cols t0 (ss ++ [s])
    (pivotTableau t rows cols (Z.to_nat (pivotRow s)) (Z.to_nat (pivotCol s))).
Proof.
  revert t0. induction ss as [|s0 ss IH]; intros t0; simpl.
  - intros -> ->. done.
  - intros [-> H] Hs. split; [done|]. by apply IH.
Qed.

Lemma simple_pivot_history n m t0 st st' :
  recordsTableauBefore (m + 1) (Simple.totalCols n m) t0 (stSteps st) (stTableau st) ->
  Simple.loopBody n m st = IterPivot st' ->
  recordsTableauBefore (m + 1) (Simple.totalCols n m) t0 (stSteps st') (stTableau st').
Proof.
  intros H E. destruct (simple_pivot_inv n m st st' E) as (i & j & _ & _ & ->).
  unfold simpleNext. cbn [stSteps stTableau].
  pose proof (recordsTableauBefore_snoc _ _ _ _ _ (simpleStep n m st i j) H eq_refl) as G.
  cbn [pivotRow pivotCol simpleStep] in G. by rewrite !Nat2Z.id in G.
Qed.

Lemma extended_pivot_history n m signs method iterStart it t0 st st' :
  recordsTableauBefore (m + 1) (Extended.totalCols n m signs method) t0
                       (stSteps st) (stTableau st) ->
  Extended.loopBody n m signs method iterStart it st = IterPivot st' ->
  recordsTableauBefore (m + 1) (Extended.totalCols n m signs method) t0
                       (stSteps st') (stTableau st').
Proof.
  intros H E.
  destruct (extended_pivot_inv n m signs method iterStart it st st' E)
    as (i & j & _ & _ & ->).
  unfold extendedNext. cbn [stSteps stTableau]. change (Extended.numRows m) with (m + 1).
  pose proof (recordsTableauBefore_snoc _ _ _ _ _ (extendedStep iterStart it st i j)
                H eq_refl) as G.
  cbn [pivotRow pivotCol extendedStep] in G. by rewrite !Nat2Z.id in G.
Qed.

(** X5: the recorded tableaux are the history of the tableau.  The first
    step records the tableau as built, each next step records the pivot of
    the tableau recorded before it, and the final tableau is the pivot of the
    last one recorded (the tableau as built when there is no step).  In the
    extended variant this holds for the methods that run the engine once. *)
Theorem steps_record_tableau_history type n m c cons signs method r :
  (Simple.solveSimplex type n m c cons = Some r ->
   exists st0, Simple.build type n m c cons = Some st0 /\
     recordsTableauBefore (m + 1) (Simple.totalCols n m) (stTableau st0)
                          (steps r) (finalTableau r)) /\
  (method <> Extended.TwoPhase ->
   Extended.solveSimplex type n m c cons signs method = Some r ->
   exists st0, Extended.build type n m c cons signs method = Some st0 /\
     recordsTableauBefore (m + 1) (Extended.totalCols n m signs method) (stTableau st0)
                          (steps r) (finalTableau r)).
Proof.
  split.
  - intros Hr.
    destruct (simple_result_cases _ _ _ _ _ _ Hr) as (st0 & _ & _ & Hb & _).
    exists st0. split; [done|].
    apply (simple_result_inv
             (fun st => recordsTableauBefore (m + 1) (Simple.totalCols n m) (stTableau st0)
                          (stSteps st) (stTableau st))
             type n m c cons st0 r Hb Hr).
    + apply simple_pivot_history.
    + destruct (simple_build_shape _ _ _ _ _ _ Hb) as (-> & _). done.
  - intros Hm Hr.
    destruct (Extended.build type n m c cons signs method) as [st0|] eqn:Hb;
      [|by unfold Extended.solveSimplex in Hr; rewrite Hb in Hr].
    exists st0. split; [done|].
    apply (extended_result_inv
             (fun st => recordsTableauBefore (m + 1) (Extended.totalCols n m signs method)
                          (stTableau st0) (stSteps st) (stTableau st))
             type n m c cons signs method st0 r Hb Hr).
    + intros iterStart it. apply extended_pivot_history.
    + intros st Hm'. done.
    + rewrite (extended_build_steps _ _ _ _ _ _ _ _ Hb). done.
Qed.

Lemma pivotsOn_of_firstLeast enter ratio cols m t i j s :
  firstLeast (colValue t) enter 0 (cols - 1) j ->
  firstLeast (rowValue ratio t cols j) infinity 1 m i ->
  tableau s = t -> pivotRow s = Z.of_nat i -> pivotCol s = Z.of_nat j ->
  pivotsOn enter ratio cols s.
Proof.
  intros (_ & v & Hv & Hlt & _) (_ & w & Hw & Hwlt & _) Ht Hr Hc.
  unfold pivotsOn. rewrite Ht, Hr, Hc, !Nat2Z.id.
  unfold colValue in Hv. injection Hv as <-.
  unfold rowValue in Hw. destruct (ratio <? cell t i j)%float; [|done].
  injection Hw as <-. done.
Qed.

Lemma simple_pivot_pivotsOn n m st st' :
  Forall (pivotsOn 0 0 (Simple.totalCols n m)) (stSteps st) ->
  Simple.loopBody n m st = IterPivot st' ->
  Forall (pivotsOn 0 0 (Simple.totalCols n m)) (stSteps st').
Proof.
  intros H E. destruct (simple_pivot_inv n m st st' E) as (i & j & Hj & Hi & ->).
  simpl. apply Forall_app. split; [done|]. apply Forall_singleton.
  by apply (pivotsOn_of_firstLeast _ _ _ m (stTableau st) i j).
Qed.

Lemma extended_pivot_pivotsOn n m signs method iterStart it st st' :
  Forall (pivotsOn (- tol9) tol9 (Extended.totalCols n m signs method)) (stSteps st) ->
  Extended.loopBody n m signs method iterStart it st = IterPivot st' ->
  Forall (pivotsOn (- tol9) tol9 (Extended.totalCols n m signs method)) (stSteps st').
Proof.
  intros H E.
  destruct (extended_pivot_inv n m signs method iterStart it st st' E)
    as (i & j & Hj & Hi & ->).
  simpl. apply Forall_app. split; [done|]. apply Forall_singleton.
  by apply (pivotsOn_of_firstLeast _ _ _ m (stTableau st) i j).
Qed.

(** X6: every pivot is made on a column whose row-0 entry is below the
    entering bound of the variant and on an element that exceeds its ratio
    bound, with a ratio below [Infinity]: the pivot element is never zero,
    negative or NaN. *)
Theorem pivot_element_exceeds_bound type n m c cons signs method r :
  (Simple.solveSimplex type n m c cons = Some r ->
   Forall (pivotsOn 0 0 (Simple.totalCols n m)) (steps r)) /\
  (Extended.solveSimplex type n m c cons signs method = Some r ->
   Forall (pivotsOn (- tol9) tol9 (Extended.totalCols n m signs method)) (steps r)).
Proof.
  split.
  - intros Hr.
    destruct (simple_result_cases _ _ _ _ _ _ Hr) as (st0 & _ & _ & Hb & _).
    apply (simple_result_inv
             (fun st => Forall (pivotsOn 0 0 (Simple.totalCols n m)) (stSteps st))
             type n m c cons st0 r Hb Hr).
    + apply simple_pivot_pivotsOn.
    + destruct (simple_build_shape _ _ _ _ _ _ Hb) as (-> & _). constructor.
  - intros Hr.
    destruct (Extended.build type n m c cons signs method) as [st0|] eqn:Hb;
      [|by unfold Extended.solveSimplex in Hr; rewrite Hb in Hr].
    apply (extended_result_inv
             (fun st => Forall (pivotsOn (- tol9) tol9 (Extended.totalCols n m signs method))
                               (stSteps st))
             type n m c cons signs method st0 r Hb Hr).
    + intros iterStart it. apply extended_pivot_pivotsOn.
    + intros st _. done.
    + rewrite (extended_build_steps _ _ _ _ _ _ _ _ Hb). constructor.
Qed.

(** ** Counting the pivots *)

Lemma afterPivots_inv_it (body : nat -> State -> IterOutcome) (I : nat -> State -> Prop) :
  (forall it st st', I it st -> body it st = IterPivot st' -> I (S it) st') ->
  forall k it st st', I it st -> afterPivots body it k st = Some st' -> I (it + k) st'.
Proof.
  intros Hstep. induction k as [|k IH]; intros it st st' Hst H; simpl in H.
  - injection H as <-. by rewrite Nat.add_0_r.
  - destruct (body it st) as [| |st1] eqn:E; try discriminate.
    replace (it + S k) with (S it + k) by lia.
    eapply IH; [|done]. by eapply Hstep.
Qed.

Lemma simple_run_count n m it k st st' :
  afterPivots (simpleBody n m) it k st = Some st' ->
  length (stSteps st') = length (stSteps st) + k.
Proof.
  intros H.
  assert (Hstep : forall i s s',
    length (stSteps s) + it = length (stSteps st) + i ->
    simpleBody n m i s = IterPivot s' ->
    length (stSteps s') + it = length (stSteps st) + S i).
  { intros i s s' Hs E. destruct (simple_step_snapshot n m s s' E) as (x & Hx & _).
    rewrite Hx, length_app. simpl. lia. }
  pose proof (afterPivots_inv_it (simpleBody n m)
                (fun i s => length (stSteps s) + it = length (stSteps st) + i)
                Hstep k it st st' eq_refl H) as G.
  simpl in G. lia.
Qed.

Lemma extended_run_count n m signs method iterStart it k st st' :
  afterPivots (extendedBody n m signs method iterStart) it k st = Some st' ->
  length (stSteps st') = length (stSteps st) + k.
Proof.
  intros H.
  assert (Hstep : forall i s s',
    length (stSteps s) + it = length (stSteps st) + i ->
    extendedBody n m signs method iterStart i s = IterPivot s' ->
    length (stSteps s') + it = length (stSteps st) + S i).
  { intros i s s' Hs E.
    destruct (extended_step_snapshot n m signs method iterStart i s s' E) as (x & Hx & _).
    rewrite Hx, length_app. simpl. lia. }
  pose proof (afterPivots_inv_it (extendedBody n m signs method iterStart)
                (fun i s => length (stSteps s) + it = length (stSteps st) + i)
                Hstep k it st st' eq_refl H) as G.
  simpl in G. lia.
Qed.

Lemma simple_result_count type n m c cons r :
  Simple.solveSimplex type n m c cons = Some r ->
  exists st0 st',
    Simple.build type n m c cons = Some st0 /\
    afterPivots (simpleBody n m) 0 (length (steps r)) st0 = Some st' /\
    resultState r = st' /\ length (steps r) <= 100 /\
    ((Simple.loopBody n m st' = IterUnbounded /\ length (steps r) < 100 /\
      r = abortResult Unbounded (Simple.names n m) st') \/
     ((Simple.loopBody n m st' = IterOptimal \/ length (steps r) = 100) /\
      r = optimalResult type n m (Simple.totalCols n m) (Simple.names n m) st')).
Proof.
  intros Hr.
  destruct (simple_result_cases _ _ _ _ _ _ Hr) as (st0 & k & st' & Hb & Hk & Hrun & Hst & Hend).
  assert (E : length (steps r) = k).
  { pose proof (simple_run_count _ _ _ _ _ _ Hrun) as Hc.
    destruct (simple_build_shape _ _ _ _ _ _ Hb) as (H0 & _). rewrite H0 in Hc.
    subst st'. simpl in Hc. lia. }
  rewrite E. by exists st0, st'.
Qed.

(** The extended variant with one run of the engine. *)
Lemma extended_single_run_cases type n m c cons signs method r :
  method <> Extended.TwoPhase ->
  Extended.solveSimplex type n m c cons signs method = Some r ->
  exists st0 st',
    Extended.build type n m c cons signs method = Some st0 /\
    afterPivots (extendedBody n m signs method 0) 0 (length (steps r)) st0 = Some st' /\
    resultState r = st' /\ length (steps r) <= 50 /\
    ((Extended.loopBody n m signs method 0 (length (steps r)) st' = IterUnbounded /\
      length (steps r) < 50 /\
      r = abortResult Unbounded (Extended.names n m signs method) st') \/
     ((Extended.loopBody n m signs method 0 (length (steps r)) st' = IterOptimal \/
       length (steps r) = 50) /\
      r = Extended.extract type n m signs method st')).
Proof.
  intros Hm. unfold Extended.solveSimplex.
  destruct (Extended.build type n m c cons signs method) as [st0|] eqn:Hb;
    cbn [mbind option_bind]; [|done].
  intros Hr. apply (inj Some) in Hr.
  destruct (extended_run_cases n m signs method st0 0) as (k & st' & Hk & Hrun & Hend).
  assert (E : length (stSteps st') = k).
  { pose proof (extended_run_count _ _ _ _ _ _ _ _ _ Hrun) as Hc.
    rewrite (extended_build_steps _ _ _ _ _ _ _ _ Hb) in Hc. simpl in Hc. lia. }
  assert (Hcoord : Extended.coordinate type n m c signs method st0 =
            let r1 := Extended.runSimplexLoop n m signs method st0 0 in
            if (r1.2 =? -1)%Z
            then abortResult Unbounded (Extended.names n m signs method) r1.1
            else Extended.extract type n m signs method r1.1)
    by (by destruct method).
  rewrite Hcoord in Hr. cbv zeta in Hr. exists st0, st'. split; [done|].
  destruct Hend as [(Hl & Hbody & Hlt) | (Hl & Hbody)]; rewrite Hl in Hr; cbn [fst snd] in Hr.
  - change (-1 =? -1)%Z with true in Hr. cbv iota in Hr.
    subst r. cbn [steps abortResult]. rewrite E. split; [done|]. split; [by destruct st'|].
    split; [lia|]. left. done.
  - replace (Z.of_nat k =? -1)%Z with false in Hr by lia.
    subst r. cbn [steps Extended.extract optimalResult]. rewrite E.
    split; [done|]. split; [by destruct st'|]. split; [lia|]. right. done.
Qed.

(** The two-phase method: the first run, and what follows it. *)
Lemma twoPhase_cases type n m c cons signs r :
  Extended.solveSimplex type n m c cons signs Extended.TwoPhase = Some r ->
  exists st0 k1 st1 z1,
    Extended.build type n m c cons signs Extended.TwoPhase = Some st0 /\
    afterPivots (extendedBody n m signs Extended.TwoPhase 0) 0 k1 st0 = Some st1 /\
    k1 <= 50 /\ length (stSteps st1) = k1 /\
    Extended.runSimplexLoop n m signs Extended.TwoPhase st0 0 = (st1, z1) /\
    (z1 = (-1)%Z \/ z1 = Z.of_nat k1) /\
    ((Extended.phase1Infeasible n m signs Extended.TwoPhase st1 = true /\
      r = abortResult Infeasible (Extended.names n m signs Extended.TwoPhase) st1) \/
     (Extended.phase1Infeasible n m signs Extended.TwoPhase st1 = false /\
      exists k2 st2,
        afterPivots (extendedBody n m signs Extended.TwoPhase z1) 0 k2
                    (Extended.phase2Start type n m c signs Extended.TwoPhase st1) = Some st2 /\
        k2 <= 50 /\ length (stSteps st2) = k1 + k2 /\ resultState r = st2 /\
        ((Extended.loopBody n m signs Extended.TwoPhase z1 k2 st2 = IterUnbounded /\
          k2 < 50 /\
          r = abortResult Unbounded (Extended.names n m signs Extended.TwoPhase) st2) \/
         ((Extended.loopBody n m signs Extended.TwoPhase z1 k2 st2 = IterOptimal \/ k2 = 50) /\
          r = Extended.extract type n m signs Extended.TwoPhase st2)))).
Proof.
  unfold Extended.solveSimplex.
  destruct (Extended.build type n m c cons signs Extended.TwoPhase) as [st0|] eqn:Hb;
    cbn [mbind option_bind]; [|done].
  intros Hr. apply (inj Some) in Hr.
  destruct (extended_run_cases n m signs Extended.TwoPhase st0 0)
    as (k1 & st1 & Hk1 & Hrun1 & Hend1).
  assert (E1 : length (stSteps st1) = k1).
  { pose proof (extended_run_count _ _ _ _ _ _ _ _ _ Hrun1) as Hc.
    rewrite (extended_build_steps _ _ _ _ _ _ _ _ Hb) in Hc. simpl in Hc. lia. }
  assert (Hz : exists z1, Extended.runSimplexLoop n m signs Extended.TwoPhase st0 0 = (st1, z1)
                          /\ (z1 = (-1)%Z \/ z1 = Z.of_nat k1)).
  { destruct Hend1 as [(Hl & _) | (Hl & _)]; eexists; (split; [exact Hl|]); [by left|by right]. }
  destruct Hz as (z1 & Hl1 & Hz1).
  exists st0, k1, st1, z1. split; [done|]. split; [done|]. split; [done|].
  split; [done|]. split; [done|]. split; [done|].
  unfold Extended.coordinate in Hr. rewrite Hl1 in Hr. cbn [fst snd] in Hr.
  destruct (Extended.phase1Infeasible n m signs Extended.TwoPhase st1); [left; done|].
  right. split; [done|].
  destruct (extended_run_cases n m signs Extended.TwoPhase
              (Extended.phase2Start type n m c signs Extended.TwoPhase st1) z1)
    as (k2 & st2 & Hk2 & Hrun2 & Hend2).
  assert (E2 : length (stSteps st2) = k1 + k2).
  { pose proof (extended_run_count _ _ _ _ _ _ _ _ _ Hrun2) as Hc.
    simpl in Hc. lia. }
  exists k2, st2. split; [done|]. split; [done|]. split; [done|].
  destruct Hend2 as [(Hl & Hbody & Hlt) | (Hl & Hbody)]; rewrite Hl in Hr; cbn [fst snd] in Hr.
  - change (-1 =? -1)%Z with true in Hr. cbv iota in Hr.
    subst r. split; [by destruct st2|]. left. done.
  - replace (Z.of_nat k2 =? -1)%Z with false in Hr by lia.
    subst r. split; [by destruct st2|]. right. done.
Qed.

(** X7: a result has at most 100 steps in the simple variant, at most 50
    with the methods standard and bigM, and at most 100 with the two-phase
    method (50 per run of the engine). *)
Theorem step_count_is_capped type n m c cons signs method r :
  (Simple.solveSimplex type n m c cons = Some r -> length (steps r) <= 100) /\
  (Extended.solveSimplex type n m c cons signs method = Some r ->
   length (steps r) <= match method with Extended.TwoPhase => 100 | _ => 50 end).
Proof.
  split.
  - intros Hr. by destruct (simple_result_count _ _ _ _ _ _ Hr) as (? & ? & _ & _ & _ & ? & _).
  - intros Hr. destruct method.
    + assert (Hm : Extended.Standard <> Extended.TwoPhase) by done.
      by destruct (extended_single_run_cases _ _ _ _ _ _ _ _ Hm Hr)
        as (? & ? & _ & _ & _ & ? & _).
    + assert (Hm : Extended.BigM <> Extended.TwoPhase) by done.
      by destruct (extended_single_run_cases _ _ _ _ _ _ _ _ Hm Hr)
        as (? & ? & _ & _ & _ & ? & _).
    + destruct (twoPhase_cases _ _ _ _ _ _ _ Hr)
        as (st0 & k1 & st1 & z1 & _ & _ & Hk1 & E1 & _ & _ & Hend).
      destruct Hend as [(_ & ->) | (_ & k2 & st2 & _ & Hk2 & E2 & <- & _)].
      * cbn [steps abortResult]. lia.
      * simpl in E2. lia.
Qed.

(** ** What the status certifies, and the iteration cap *)

(** X8: what the status says of the final tableau.  When it is Optimal
    and the iteration cap was not reached, no row-0 entry (right-hand side
    excluded) is below the entering bound; when it is Unbounded, the column
    the next iteration chooses has no row that passes the ratio test. *)
Theorem status_certifies_final_tableau type n m c cons signs method r :
  (Simple.solveSimplex type n m c cons = Some r ->
   (status r = Optimal -> length (steps r) < 100 ->
    noneBelow (colValue (finalTableau r)) 0 0 (Simple.totalCols n m - 1)) /\
   (status r = Unbounded ->
    exists j,
      firstLeast (colValue (finalTableau r)) 0 0 (Simple.totalCols n m - 1) j /\
      noneBelow (rowValue 0 (finalTableau r) (Simple.totalCols n m) j) infinity 1 m)) /\
  (Extended.solveSimplex type n m c cons signs method = Some r ->
   (method <> Extended.TwoPhase -> status r = Optimal -> length (steps r) < 50 ->
    noneBelow (colValue (finalTableau r)) (- tol9) 0
              (Extended.totalCols n m signs method - 1)) /\
   (status r = Unbounded ->
    exists j,
      firstLeast (colValue (finalTableau r)) (- tol9) 0
                 (Extended.totalCols n m signs method - 1) j /\
      noneBelow (rowValue tol9 (finalTableau r) (Extended.totalCols n m signs method) j)
                infinity 1 m)).
Proof.
  split.
  - intros Hr.
    destruct (simple_result_count _ _ _ _ _ _ Hr) as (st0 & st' & _ & _ & Hst & _ & Hend).
    assert (Ht : finalTableau r = stTableau st') by (by rewrite <- Hst).
    rewrite Ht. split.
    + intros Hs Hlt. destruct Hend as [(_ & _ & ->) | ([Hb|Hk] & _)]; [done| |lia].
      by apply (engine_optimal_iff (SimpleEngine n m) st').
    + intros Hs. destruct Hend as [(Hb & _) | (_ & ->)]; [|done].
      by apply (engine_unbounded_iff (SimpleEngine n m) st').
  - intros Hr. split.
    + intros Hm Hs Hlt.
      destruct (extended_single_run_cases _ _ _ _ _ _ _ _ Hm Hr)
        as (st0 & st' & _ & _ & Hst & _ & Hend).
      assert (Ht : finalTableau r = stTableau st') by (by rewrite <- Hst).
      rewrite Ht. destruct Hend as [(_ & _ & ->) | ([Hb|Hk] & _)]; [done| |lia].
      by apply (engine_optimal_iff (ExtendedEngine n m signs method 0 (length (steps r))) st').
    + intros Hs. destruct method.
      * assert (Hm : Extended.Standard <> Extended.TwoPhase) by done.
        destruct (extended_single_run_cases _ _ _ _ _ _ _ _ Hm Hr)
          as (st0 & st' & _ & _ & Hst & _ & Hend).
        assert (Ht : finalTableau r = stTableau st') by (by rewrite <- Hst).
        rewrite Ht. destruct Hend as [(Hb & _) | (_ & ->)]; [|done].
        by apply (engine_unbounded_iff
                    (ExtendedEngine n m signs Extended.Standard 0 (length (steps r))) st').
      * assert (Hm : Extended.BigM <> Extended.TwoPhase) by done.
        destruct (extended_single_run_cases _ _ _ _ _ _ _ _ Hm Hr)
          as (st0 & st' & _ & _ & Hst & _ & Hend).
        assert (Ht : finalTableau r = stTableau st') by (by rewrite <- Hst).
        rewrite Ht. destruct Hend as [(Hb & _) | (_ & ->)]; [|done].
        by apply (engine_unbounded_iff
                    (ExtendedEngine n m signs Extended.BigM 0 (length (steps r))) st').
      * destruct (twoPhase_cases _ _ _ _ _ _ _ Hr)
          as (st0 & k1 & st1 & z1 & _ & _ & _ & _ & _ & _ & Hend).
        destruct Hend as [(_ & ->) | (_ & k2 & st2 & _ & _ & _ & Hst & Hend)]; [done|].
        assert (Ht : finalTableau r = stTableau st2) by (by rewrite <- Hst).
        rewrite Ht. destruct Hend as [(Hb & _) | (_ & ->)]; [|done].
        by apply (engine_unbounded_iff
                    (ExtendedEngine n m signs Extended.TwoPhase z1 k2) st2).
Qed.

Lemma simple_loop_exhausted n m fuel it st st' :
  afterPivots (simpleBody n m) it fuel st = Some st' ->
  Simple.loop n m fuel st = (st', false).
Proof.
  revert it st. induction fuel as [|fuel IH]; intros it st H; simpl in H.
  - by injection H as <-.
  - simpl. unfold simpleBody at 1 in H.
    destruct (Simple.loopBody n m st) as [| |st1]; try discriminate.
    by apply (IH (S it)).
Qed.

Lemma extended_runLoop_exhausted n m signs method iterStart fuel it st st' :
  afterPivots (extendedBody n m signs method iterStart) it fuel st = Some st' ->
  Extended.runLoop n m signs method fuel it iterStart st = (st', Z.of_nat (it + fuel)).
Proof.
  revert it st. induction fuel as [|fuel IH]; intros it st H; simpl in H.
  - injection H as <-. by rewrite Nat.add_0_r.
  - simpl. unfold extendedBody at 1 in H.
    destruct (Extended.loopBody n m signs method iterStart it st) as [| |st1];
      try discriminate.
    replace (it + S fuel) with (S it + fuel) by lia. by apply IH.
Qed.

(** X9: when the simple variant has made its hundredth pivot the loop
    ends and the result is extracted with status Optimal from the tableau
    reached, whatever its row 0 holds: there is no status for the iteration
    cap.  Beale's cycling problem reaches the cap with a negative row-0
    entry left. *)
Theorem iteration_cap_reports_optimal type n m c cons st0 st :
  Simple.build type n m c cons = Some st0 ->
  afterPivots (simpleBody n m) 0 100 st0 = Some st ->
  Simple.solveSimplex type n m c cons =
    Some (optimalResult type n m (Simple.totalCols n m) (Simple.names n m) st).
Proof.
  intros Hb Hrun. unfold Simple.solveSimplex. rewrite Hb. cbn [mbind option_bind].
  rewrite simple_cap. by rewrite (simple_loop_exhausted n m 100 0 st0 st Hrun).
Qed.

Lemma iteration_cap_reports_optimal_witness :
  (cell (stTableau cyclingEnd) 0 4 <? 0)%float = true /\
  Simple.solveSimplex Max 4 3 cyclingObjective cyclingConstraints =
    Some (optimalResult Max 4 3 (Simple.totalCols 4 3) (Simple.names 4 3) cyclingEnd).
Proof.
  split; [by vm_compute|].
  apply (iteration_cap_reports_optimal Max 4 3 cyclingObjective cyclingConstraints
           cyclingState cyclingEnd); by vm_compute.
Defined.

(** X10: the same in the extended variant with the methods standard and
    bigM, after the fiftieth pivot of the engine. *)
Theorem extended_iteration_cap_reports_optimal type n m c cons signs method st0 st :
  method <> Extended.TwoPhase ->
  Extended.build type n m c cons signs method = Some st0 ->
  afterPivots (extendedBody n m signs method 0) 0 50 st0 = Some st ->
  Extended.solveSimplex type n m c cons signs method =
    Some (Extended.extract type n m signs method st).
Proof.
  intros Hm Hb Hrun. unfold Extended.solveSimplex. rewrite Hb. cbn [mbind option_bind].
  assert (E : Extended.runSimplexLoop n m signs method st0 0 = (st, 50%Z)).
  { unfold Extended.runSimplexLoop. rewrite extended_cap.
    by rewrite (extended_runLoop_exhausted n m signs method 0 50 0 st0 st Hrun). }
  unfold Extended.coordinate. rewrite E. by destruct method.
Qed.

Lemma extended_iteration_cap_reports_optimal_witness :
  Extended.solveSimplex Max 4 3 cyclingObjective cyclingConstraints exampleSigns
                        Extended.Standard =
    Some (Extended.extract Max 4 3 exampleSigns Extended.Standard
            (default (mkState [] [] [])
               (afterPivots (extendedBody 4 3 exampleSigns Extended.Standard 0) 0 50
                            cyclingState))).
Proof.
  apply (extended_iteration_cap_reports_optimal Max 4 3 cyclingObjective cyclingConstraints
           exampleSigns Extended.Standard cyclingState); [done|by vm_compute|by vm_compute].
Defined.

(** Numbering *)
Lemma numberedSteps_snoc base it ss s :
  length ss = base + it -> numberedSteps ss ->
  description s = Extended.describe (Z.of_nat base) it (pivotRow s) (pivotCol s) ->
  numberedSteps (ss ++ [s]).
Proof.
  intros Hl Hss Hs k x Hk.
  destruct (decide (k < length ss)) as [Hlt|Hge].
  - rewrite lookup_app_l in Hk by done. by apply Hss.
  - apply lookup_lt_Some in Hk as Hk'. rewrite length_app in Hk'. simpl in Hk'.
    assert (k = length ss) as -> by lia.
    rewrite list_lookup_middle in Hk by done. injection Hk as <-.
    rewrite Hs, Hl. unfold Extended.describe.
    by replace (0 + Z.of_nat (base + it) + 1)%Z
      with (Z.of_nat base + Z.of_nat it + 1)%Z by lia.
Qed.

Lemma extended_run_numbered n m signs method base k st st' :
  length (stSteps st) = base -> numberedSteps (stSteps st) ->
  afterPivots (extendedBody n m signs method (Z.of_nat base)) 0 k st = Some st' ->
  numberedSteps (stSteps st').
Proof.
  intros Hl Hn Hrun.
  assert (Hstep : forall it s s',
    (length (stSteps s) = base + it /\ numberedSteps (stSteps s)) ->
    extendedBody n m signs method (Z.of_nat base) it s = IterPivot s' ->
    (length (stSteps s') = base + S it /\ numberedSteps (stSteps s'))).
  { intros it s s' [Hls Hns] E.
    destruct (extended_pivot_inv n m signs method (Z.of_nat base) it s s' E)
      as (i & j & _ & _ & ->).
    unfold extendedNext. cbn [stSteps]. split.
    - rewrite length_app. simpl. lia.
    - by apply (numberedSteps_snoc base it). }
  apply (afterPivots_inv_it _ _ Hstep k 0 st st'); [|done].
  split; [lia|done].
Qed.

(** X11: the descriptions of the extended variant number the steps of a
    result from 1 in order ([Iter k: Pivot (row, col)] for step [k]); with
    the two-phase method the numbers of phase 2 go on from those of phase 1,
    provided phase 1 did not end Unbounded. *)
Theorem extended_steps_are_numbered type n m c cons signs method st0 r :
  Extended.build type n m c cons signs method = Some st0 ->
  (method = Extended.TwoPhase ->
   (Extended.runSimplexLoop n m signs method st0 0).2 <> (-1)%Z) ->
  Extended.solveSimplex type n m c cons signs method = Some r ->
  numberedSteps (steps r).
Proof.
  intros Hb Hph Hr.
  assert (H0 : length (stSteps st0) = 0 /\ numberedSteps (stSteps st0)).
  { rewrite (extended_build_steps _ _ _ _ _ _ _ _ Hb). split; [done|]. by intros k s. }
  destruct H0 as [Hl0 Hn0].
  assert (Hsingle : method <> Extended.TwoPhase -> numberedSteps (steps r)).
  { intros Hm.
    destruct (extended_single_run_cases _ _ _ _ _ _ _ _ Hm Hr)
      as (st0' & st' & Hb' & Hrun & Hst & _).
    rewrite Hb in Hb'. injection Hb' as <-.
    replace (steps r) with (stSteps st') by (by rewrite <- Hst).
    exact (extended_run_numbered n m signs method 0 (length (steps r)) st0 st'
             Hl0 Hn0 Hrun). }
  destruct method; [by apply Hsingle|by apply Hsingle|].
  destruct (twoPhase_cases _ _ _ _ _ _ _ Hr)
    as (st0' & k1 & st1 & z1 & Hb' & Hrun1 & _ & E1 & Hl1 & Hz & Hend).
  rewrite Hb in Hb'. injection Hb' as <-.
  assert (Hn1 : numberedSteps (stSteps st1))
    by exact (extended_run_numbered n m signs Extended.TwoPhase 0 k1 st0 st1 Hl0 Hn0 Hrun1).
  destruct Hend as [(_ & ->) | (_ & k2 & st2 & Hrun2 & _ & _ & Hst & _)]; [done|].
  replace (steps r) with (stSteps st2) by (by rewrite <- Hst).
  destruct Hz as [->| ->].
  - exfalso. apply (Hph eq_refl). by rewrite Hl1.
  - exact (extended_run_numbered n m signs Extended.TwoPhase k1 k2
             (Extended.phase2Start type n m c signs Extended.TwoPhase st1) st2
             E1 Hn1 Hrun2).
Qed.

Lemma extended_steps_are_numbered_witness :
  map description (steps mixedResult) =
    ["Iter 1: Pivot (2, 0)"; "Iter 2: Pivot (1, 1)"]%string /\
  numberedSteps (steps mixedResult).
Proof.
  split; [by vm_compute|].
  apply (extended_steps_are_numbered Max 2 2 mixedObjective mixedConstraints mixedSigns
           Extended.TwoPhase mixedState mixedResult).
  - by vm_compute.
  - intros _. by vm_compute.
  - by vm_compute.
Defined.

(** ** Statuses, names, the pivot and the rows with artificial variables *)

(** X12: the simple variant and the methods standard and bigM never
    report Infeasible.  A result with status Infeasible comes from the
    two-phase method, and the row-0 right-hand side of its final tableau is
    above [1e-5] in absolute value.  Whenever the status is not Optimal the
    solution is empty and the optimal value 0. *)
Theorem infeasible_only_from_twoPhase type n m c cons signs method r :
  (Simple.solveSimplex type n m c cons = Some r ->
   status r <> Infeasible /\
   (status r <> Optimal -> solution r = [] /\ optimalValue r = 0%float)) /\
  (Extended.solveSimplex type n m c cons signs method = Some r ->
   (status r = Infeasible ->
    method = Extended.TwoPhase /\
    (tol5 <? abs (cell (finalTableau r) 0 (Extended.totalCols n m signs method - 1)))%float
      = true) /\
   (status r <> Optimal -> solution r = [] /\ optimalValue r = 0%float)).
Proof.
  split.
  - intros Hr.
    destruct (simple_result_cases _ _ _ _ _ _ Hr) as (st0 & k & st' & _ & _ & _ & _ & Hend).
    by destruct Hend as [(_ & _ & ->) | (_ & ->)].
  - intros Hr. destruct method.
    + assert (Hm : Extended.Standard <> Extended.TwoPhase) by done.
      destruct (extended_single_run_cases _ _ _ _ _ _ _ _ Hm Hr)
        as (st0 & st' & _ & _ & _ & _ & Hend).
      by destruct Hend as [(_ & _ & ->) | (_ & ->)].
    + assert (Hm : Extended.BigM <> Extended.TwoPhase) by done.
      destruct (extended_single_run_cases _ _ _ _ _ _ _ _ Hm Hr)
        as (st0 & st' & _ & _ & _ & _ & Hend).
      by destruct Hend as [(_ & _ & ->) | (_ & ->)].
    + destruct (twoPhase_cases _ _ _ _ _ _ _ Hr)
        as (st0 & k1 & st1 & z1 & _ & _ & _ & _ & _ & _ & Hend).
      destruct Hend as [(Hinf & ->) | (_ & k2 & st2 & _ & _ & _ & _ & Hend)].
      * split; [|done]. intros _. split; [done|]. exact Hinf.
      * by destruct Hend as [(_ & _ & ->) | (_ & ->)].
Qed.

(** X13: the variable names of a result are [x1..xn] followed by
    [s1..sS], and by [a1..aA] with the methods bigM and twoPhase, where [S]
    counts the relations [<=] and [>=] and [A] counts every relation that is
    not [<=] (an unknown or missing relation included); the tableau has one
    column per name and one for the right-hand side.  In the simple variant
    the names are [x1..xn], [s1..sm]. *)
Theorem variable_names_listing type n m c cons signs method r :
  (Simple.solveSimplex type n m c cons = Some r ->
   variableNames r = numbered "x" n ++ numbered "s" m) /\
  (Extended.solveSimplex type n m c cons signs method = Some r ->
   variableNames r =
     numbered "x" n ++ numbered "s" (slackBefore signs m) ++
     (if Extended.useArtificials method then numbered "a" (notLeBefore signs m) else []) /\
   Extended.totalCols n m signs method =
     n + slackBefore signs m +
     (if Extended.useArtificials method then notLeBefore signs m else 0) + 1).
Proof.
  split.
  - intros Hr.
    destruct (simple_result_cases _ _ _ _ _ _ Hr) as (st0 & k & st' & _ & _ & _ & _ & Hend).
    destruct Hend as [(_ & _ & ->) | (_ & ->)]; apply simple_names_spec.
  - intros Hr. split.
    + rewrite <- slackSurplusCount_spec, <- artificialCount_spec, <- extended_names_spec.
      unfold Extended.solveSimplex in Hr.
      destruct (Extended.build type n m c cons signs method) as [st0|];
        cbn [mbind option_bind] in Hr; [|done].
      apply (inj Some) in Hr. subst r. unfold Extended.coordinate, Extended.extract.
      destruct method;
        repeat match goal with
          | |- context [if ?b then _ else _] => destruct b
          end; done.
    + unfold Extended.totalCols. by rewrite slackSurplusCount_spec, artificialCount_spec.
Qed.

(** X14: the pivot in closed form.  The pivot row is divided by the pivot
    element; every other row, row 0 included, loses its pivot-column entry
    times the divided pivot row; the sizes are kept.  In binary64 arithmetic
    the pivot column then holds one (or NaN) in the pivot row and zero (or
    NaN) elsewhere. *)
Theorem pivot_closed_form rows cols t pr pc :
  shaped rows cols t -> pr < rows -> pc < cols ->
  let t' := pivotTableau t rows cols pr pc in
  let p j := (cell t pr j / cell t pr pc)%float in
  shaped rows cols t' /\
  (forall j, j < cols -> cell t' pr j = p j) /\
  (forall i j, i < rows -> i <> pr -> j < cols ->
     cell t' i j = (cell t i j - cell t i pc * p j)%float) /\
  oneOrNaN (cell t' pr pc) = true /\
  (forall i, i < rows -> i <> pr -> zeroOrNaN (cell t' i pc) = true).
Proof.
  intros Ht Hpr Hpc.
  destruct (pivotTableau_spec rows cols t pr pc Ht Hpr Hpc) as [Hs Hcell].
  cbv zeta. split; [done|]. split; [|split; [|split]].
  - intros j Hj. rewrite Hcell by done. by rewrite decide_True.
  - intros i j Hi Hne Hj. rewrite Hcell by done. by rewrite decide_False.
  - rewrite Hcell by done. rewrite decide_True by done. apply FloatExact.on_div_self.
  - intros i Hi Hne. rewrite Hcell by done. rewrite decide_False by done.
    apply FloatExact.zn_sub_mul_on. apply FloatExact.on_div_self.
Qed.

Lemma pivot_closed_form_witness :
  let t := stTableau exampleState in
  let t' := pivotTableau t 4 6 2 1 in
  let p j := (cell t 2 j / cell t 2 1)%float in
  shaped 4 6 t' /\
  (forall j, j < 6 -> cell t' 2 j = p j) /\
  (forall i j, i < 4 -> i <> 2 -> j < 6 ->
     cell t' i j = (cell t i j - cell t i 1 * p j)%float) /\
  oneOrNaN (cell t' 2 1) = true /\
  (forall i, i < 4 -> i <> 2 -> zeroOrNaN (cell t' i 1) = true).
Proof.
  apply (pivot_closed_form 4 6 (stTableau exampleState) 2 1); [|lia|lia].
  split; [by vm_compute|]. intros i Hi.
  destruct i as [|[|[|[|i]]]]; [by vm_compute..|lia].
Defined.

(** X15: the constraint rows of the methods bigM and twoPhase.  A [>=]
    constraint keeps its coefficients and right-hand side, gets [-1] in its
    surplus column and [1] in its artificial column, which is its basic
    variable; an [=] constraint gets [1] in its artificial column, its basic
    variable; a [<=] constraint gets [1] in its slack column, its basic
    variable.  Slack and surplus columns come right after the decision
    variables, artificial columns after them. *)
Theorem artificial_rows type n m c cons signs method i ci :
  Extended.useArtificials method = true ->
  i < m -> m <= length cons -> cons !! i = Some ci ->
  exists st0,
    Extended.build type n m c cons signs method = Some st0 /\
    let cols := Extended.totalCols n m signs method in
    let s := slackCol n signs i in
    let a := artCol n m signs i in
    (signs !! i = Some ">="%string ->
     n <= s < n + Extended.slackSurplusCount m signs /\
     n + Extended.slackSurplusCount m signs <= a < cols - 1 /\
     rowAt (stTableau st0) (i + 1)
       = <[a := 1%float]> (<[s := (-1)%float]> (baseRow n cols ci)) /\
     basicAt (stBasic st0) i = Z.of_nat a) /\
    (signs !! i = Some "="%string ->
     n + Extended.slackSurplusCount m signs <= a < cols - 1 /\
     rowAt (stTableau st0) (i + 1) = <[a := 1%float]> (baseRow n cols ci) /\
     basicAt (stBasic st0) i = Z.of_nat a) /\
    (signs !! i = Some "<="%string ->
     n <= s < n + Extended.slackSurplusCount m signs /\
     rowAt (stTableau st0) (i + 1) = <[s := 1%float]> (baseRow n cols ci) /\
     basicAt (stBasic st0) i = Z.of_nat s).
Proof.
  intros Hart Hi Hm Hci.
  destruct (extended_build_rows type n m c cons signs method Hm)
    as (st0 & Hb & _ & _ & Hrows).
  exists st0. split; [done|]. cbv zeta.
  destruct (Hrows i Hi) as (ci0 & Hci0 & Hrow & Hbasic).
  rewrite Hci in Hci0. injection Hci0 as <-.
  assert (Hstd : Extended.isStandard method = false) by (by destruct method).
  unfold filledRow, filledBasic in Hrow, Hbasic. rewrite Hstd, Hart in Hrow, Hbasic.
  cbn [andb] in Hrow, Hbasic.
  split; [|split]; intros Hsign;
    rewrite ?(signIs_lookup _ _ _ "<=" Hsign), ?(signIs_lookup _ _ _ ">=" Hsign),
            ?(signIs_lookup _ _ _ "=" Hsign) in Hrow, Hbasic;
    simpl in Hrow, Hbasic.
  - destruct (slackCol_range n m signs method i Hi) as [Hs _];
      [by rewrite (signIs_lookup _ _ _ ">=" Hsign), orb_true_r|].
    pose proof (artCol_range n m signs method i Hi Hart) as Ha.
    rewrite (signIs_lookup _ _ _ "<=" Hsign), (signIs_lookup _ _ _ ">=" Hsign) in Ha.
    split; [done|]. split; [by apply Ha|]. split; [done|].
    unfold basicAt. by rewrite Hbasic.
  - pose proof (artCol_range n m signs method i Hi Hart) as Ha.
    rewrite (signIs_lookup _ _ _ "<=" Hsign), (signIs_lookup _ _ _ ">=" Hsign),
            (signIs_lookup _ _ _ "=" Hsign) in Ha.
    split; [by apply Ha|]. split; [done|]. unfold basicAt. by rewrite Hbasic.
  - destruct (slackCol_range n m signs method i Hi) as [Hs _];
      [by rewrite (signIs_lookup _ _ _ "<=" Hsign)|].
    split; [done|]. split; [done|]. unfold basicAt. by rewrite Hbasic.
Qed.

Lemma artificial_rows_witness :
  exists st0,
    Extended.build Max 2 2 mixedObjective mixedConstraints mixedSigns Extended.TwoPhase
      = Some st0 /\
    let cols := Extended.totalCols 2 2 mixedSigns Extended.TwoPhase in
    let s := slackCol 2 mixedSigns 1 in
    let a := artCol 2 2 mixedSigns 1 in
    (mixedSigns !! 1 = Some ">="%string ->
     2 <= s < 2 + Extended.slackSurplusCount 2 mixedSigns /\
     2 + Extended.slackSurplusCount 2 mixedSigns <= a < cols - 1 /\
     rowAt (stTableau st0) (1 + 1)
       = <[a := 1%float]> (<[s := (-1)%float]> (baseRow 2 cols [1; 0; 1]%float)) /\
     basicAt (stBasic st0) 1 = Z.of_nat a) /\
    (mixedSigns !! 1 = Some "="%string ->
     2 + Extended.slackSurplusCount 2 mixedSigns <= a < cols - 1 /\
     rowAt (stTableau st0) (1 + 1) = <[a := 1%float]> (baseRow 2 cols [1; 0; 1]%float) /\
     basicAt (stBasic st0) 1 = Z.of_nat a) /\
    (mixedSigns !! 1 = Some "<="%string ->
     2 <= s < 2 + Extended.slackSurplusCount 2 mixedSigns /\
     rowAt (stTableau st0) (1 + 1) = <[s := 1%float]> (baseRow 2 cols [1; 0; 1]%float) /\
     basicAt (stBasic st0) 1 = Z.of_nat s).
Proof.
  apply (artificial_rows Max 2 2 mixedObjective mixedConstraints mixedSigns
           Extended.TwoPhase 1 [1; 0; 1]%float); [done|lia|simpl; lia|done].
Defined.

(** ** Problems with [<=] constraints only *)

Lemma allLe_counts m signs k :
  allLe m signs -> k <= m ->
  slackBefore signs k = k /\ notLeBefore signs k = 0 /\ artBefore signs k = 0.
Proof.
  intros Hall. induction k as [|k IH]; intros Hk; [done|].
  destruct IH as (H1 & H2 & H3); [lia|].
  rewrite slackBefore_S, notLeBefore_S, artBefore_S, H1, H2, H3.
  rewrite (signIs_lookup signs k "<=" "<=") by (apply Hall; lia). simpl. lia.
Qed.

Lemma allLe_totalCols n m signs method :
  allLe m signs ->
  Extended.slackSurplusCount m signs = m /\ Extended.artificialCount m signs = 0 /\
  Extended.totalCols n m signs method = n + m + 1.
Proof.
  intros Hall. destruct (allLe_counts m signs m Hall) as (H1 & H2 & _); [lia|].
  unfold Extended.totalCols. rewrite slackSurplusCount_spec, artificialCount_spec, H1, H2.
  split; [done|]. split; [done|]. destruct (Extended.useArtificials method); lia.
Qed.

Lemma fold_left_id {A B} (f : A -> B -> A) l a :
  (forall x, x ∈ l -> f a x = a) -> fold_left f l a = a.
Proof.
  induction l as [|x l IH]; intros H; simpl; [done|].
  rewrite (H x) by apply list_elem_of_here. apply IH. intros y Hy. apply H.
  by apply list_elem_of_further.
Qed.

Lemma tableau_ext (t t' : list (list float)) rows :
  length t = rows -> length t' = rows ->
  (forall i, i < rows -> rowAt t i = rowAt t' i) -> t = t'.
Proof.
  intros Hl Hl' Hrows. apply (list_eq_same_length _ _ rows); [done|done|].
  intros i x y Hi Hx Hy. specialize (Hrows i Hi). unfold rowAt in Hrows.
  by rewrite Hx, Hy in Hrows.
Qed.

Lemma startsFrom_ext n m cons row0 st st' :
  startsFrom n m cons row0 st -> startsFrom n m cons row0 st' -> st = st'.
Proof.
  intros (Hs & Hb & Hl & H0 & Hr) (Hs' & Hb' & Hl' & H0' & Hr').
  destruct st as [t b ss], st' as [t' b' ss']. simpl in *. subst.
  f_equal. apply (tableau_ext t t' (m + 1)); [done|done|].
  intros i Hi. destruct i as [|i]; [by rewrite H0'|].
  replace (S i) with (i + 1) by lia.
  destruct (Hr i) as (ci & Hci & ->); [lia|].
  destruct (Hr' i) as (ci' & Hci' & ->); [lia|]. congruence.
Qed.

Lemma simple_build_startsFrom type n m c cons st0 :
  Simple.build type n m c cons = Some st0 ->
  startsFrom n m cons (Simple.objRow type n m c) st0.
Proof.
  intros Hb. destruct (simple_build_shape _ _ _ _ _ _ Hb) as (Hs & Hbv & Hl).
  destruct (simple_build_rows _ _ _ _ _ _ Hb) as (H0 & Hr). done.
Qed.

Lemma filledRow_allLe n m signs method i ci :
  allLe m signs -> i < m -> filledRow n m signs method i ci = simpleRow n m i ci.
Proof.
  intros Hall Hi. unfold filledRow, simpleRow.
  destruct (allLe_totalCols n m signs method Hall) as (_ & _ & ->).
  destruct (allLe_counts m signs i Hall) as (Hs & _); [lia|].
  rewrite (signIs_lookup signs i "<=" ">=") by (by apply Hall).
  rewrite (signIs_lookup signs i "<=" "<=") by (by apply Hall).
  rewrite andb_false_r. cbn [String.eqb Ascii.eqb Bool.eqb].
  unfold slackCol, baseRow, Simple.totalCols. rewrite Hs.
  apply list_insert_insert_ne. lia.
Qed.

Lemma filledBasic_allLe n m signs method i :
  allLe m signs -> i < m -> filledBasic n m signs method i = Z.of_nat (n + i).
Proof.
  intros Hall Hi. unfold filledBasic.
  destruct (allLe_counts m signs i Hall) as (Hs & _); [lia|].
  rewrite (signIs_lookup signs i "<=" ">=") by (by apply Hall).
  rewrite (signIs_lookup signs i "<=" "<=") by (by apply Hall).
  rewrite andb_false_r. cbn [String.eqb Ascii.eqb Bool.eqb].
  unfold slackCol. by rewrite Hs.
Qed.

Lemma extended_build_startsFrom type n m c cons signs method st0 :
  allLe m signs ->
  Extended.build type n m c cons signs method = Some st0 ->
  startsFrom n m cons
    (match method with
     | Extended.TwoPhase => replicate (n + m + 1) 0%float
     | _ => Simple.objRow type n m c
     end) st0.
Proof.
  intros Hall Hb. pose proof (extended_build_some_length _ _ _ _ _ _ _ _ Hb) as Hm.
  destruct (fillConstraints_spec n m cons signs method Hm) as (fs & Hfs & Hinv).
  unfold Extended.build in Hb. rewrite Hfs in Hb. cbn [mbind option_bind] in Hb.
  apply (inj Some) in Hb. subst st0.
  destruct (allLe_totalCols n m signs method Hall) as (Hslack & Hart & Hcols).
  destruct Hinv as (Hlt & Hlb & _ & _ & Hrow0 & Hdone & _). rewrite Hcols in Hrow0.
  set (tf := Extended.fTableau fs) in *. set (basic := Extended.fBasic fs) in *.
  assert (Hbasic : basic = map Z.of_nat (seq n m)).
  { apply (list_eq_same_length _ _ m); [by rewrite length_map, length_seq|done|].
    intros i x y Hi Hx Hy. destruct (Hdone i Hi) as (ci & _ & _ & Hbi).
    rewrite Hx in Hbi. injection Hbi as ->.
    rewrite list_lookup_fmap, lookup_seq_lt in Hy by done. injection Hy as <-.
    by apply filledBasic_allLe. }
  assert (Hcosts : rowAt (Extended.writeCosts type n c tf) 0 = Simple.objRow type n m c).
  { rewrite (writeCosts_row0 type n c tf (n + m + 1));
      [|rewrite Hlt; unfold Extended.numRows; lia|lia|done].
    rewrite simple_objRow_spec. by unfold Simple.totalCols. }
  assert (Hnoart : forall v t, Extended.writeArtificials n m signs method v t = t).
  { intros v t. unfold Extended.writeArtificials. rewrite Hcols, Hslack.
    by replace (n + m + 1 - 1 - (n + m)) with 0 by lia. }
  set (row0 := match method with
               | Extended.TwoPhase => replicate (n + m + 1) 0%float
               | _ => Simple.objRow type n m c
               end).
  set (t := Extended.initObjective type n m c signs method tf).
  assert (Ht0 : rowAt t 0 = row0).
  { unfold t, row0, Extended.initObjective. destruct method; rewrite ?Hnoart; done. }
  assert (Hrow0z : forall i, i < m -> rd row0 (n + i) = 0%float).
  { intros i Hi. unfold row0. destruct method; try (apply rd_objRow_slack; lia).
    unfold rd. by rewrite lookup_replicate_2 by lia. }
  assert (Helim : Extended.eliminateBasic n m signs method basic t = t).
  { unfold Extended.eliminateBasic. apply fold_left_id. intros i Hi.
    apply elem_of_seq in Hi. rewrite Ht0, Hbasic. unfold basicAt.
    rewrite list_lookup_fmap, lookup_seq_lt by lia. cbn [fmap option_fmap option_map default].
    change (id (Z.of_nat (n + i))) with (Z.of_nat (n + i)).
    rewrite rdZ_of_nat, Hrow0z by lia. done. }
  assert (Ht' : (if Extended.useArtificials method
                 then Extended.eliminateBasic n m signs method basic t else t) = t)
    by (destruct (Extended.useArtificials method); [exact Helim|done]).
  rewrite Ht'. split; [done|]. split; [done|]. cbn [stTableau].
  split; [|split; [done|]].
  - destruct (initObjective_shaped type n m c signs method (m + 1) (n + m + 1) tf)
      as [Hl _]; [|done].
    split; [done|]. intros i Hi. destruct i as [|i].
    + by rewrite Hrow0, length_replicate.
    + replace (S i) with (i + 1) by lia.
      destruct (Hdone i) as (ci & _ & -> & _); [lia|].
      by rewrite length_filledRow.
  - intros i Hi. destruct (Hdone i Hi) as (ci & Hci & Hrow & _). exists ci.
    split; [done|]. unfold t. rewrite initObjective_other by lia.
    rewrite Hrow. by apply filledRow_allLe.
Qed.

(** X16: when every relation is [<=], the extended variant with method
    standard or bigM starts from the tableau and basis of the simple
    variant (and fails on the same inputs). *)
Theorem extended_starts_like_simple type n m c cons signs method :
  allLe m signs -> method <> Extended.TwoPhase ->
  Extended.build type n m c cons signs method = Simple.build type n m c cons.
Proof.
  intros Hall Hm.
  destruct (Nat.le_gt_cases m (length cons)) as [Hle|Hlt].
  - destruct (simple_build_total type n m c cons Hle) as [st0 Hb].
    destruct (extended_build_total type n m c cons signs method Hle) as [st1 Hb'].
    rewrite Hb, Hb'. f_equal.
    apply (startsFrom_ext n m cons (Simple.objRow type n m c)).
    + pose proof (extended_build_startsFrom _ _ _ _ _ _ _ _ Hall Hb') as H.
      by destruct method.
    + by apply (simple_build_startsFrom type n m c cons).
  - by rewrite extended_build_none, simple_build_none.
Qed.

Lemma extended_starts_like_simple_witness :
  Extended.build Max 2 3 exampleObjective exampleConstraints exampleSigns Extended.BigM =
  Simple.build Max 2 3 exampleObjective exampleConstraints.
Proof.
  apply (extended_starts_like_simple Max 2 3 exampleObjective exampleConstraints
           exampleSigns Extended.BigM); [|done].
  intros i Hi. destruct i as [|[|[|i]]]; [done..|lia].
Defined.

(** ** The three methods on problems with [<=] constraints only *)

Lemma extended_loopBody_cols n m signs method method' iterStart it st :
  Extended.totalCols n m signs method = Extended.totalCols n m signs method' ->
  Extended.loopBody n m signs method iterStart it st =
  Extended.loopBody n m signs method' iterStart it st.
Proof. intros H. unfold Extended.loopBody. by rewrite H. Qed.

Lemma extended_runLoop_cols n m signs method method' iterStart fuel it st :
  Extended.totalCols n m signs method = Extended.totalCols n m signs method' ->
  Extended.runLoop n m signs method fuel it iterStart st =
  Extended.runLoop n m signs method' fuel it iterStart st.
Proof.
  intros H. revert it st. induction fuel as [|fuel IH]; intros it st; simpl; [done|].
  rewrite (extended_loopBody_cols n m signs method method' iterStart it st H).
  destruct (Extended.loopBody n m signs method' iterStart it st); [done|done|apply IH].
Qed.

Lemma extended_runLoop_optimal n m signs method iterStart fuel it st :
  Extended.loopBody n m signs method iterStart it st = IterOptimal ->
  Extended.runLoop n m signs method fuel it iterStart st = (st, Z.of_nat it).
Proof. intros H. destruct fuel; simpl; [done|]. by rewrite H. Qed.

Lemma simple_loop_optimal n m fuel st :
  Simple.loopBody n m st = IterOptimal -> Simple.loop n m fuel st = (st, false).
Proof. intros H. destruct fuel; simpl; [done|]. by rewrite H. Qed.

Lemma allLe_names n m signs method :
  allLe m signs -> Extended.names n m signs method = Simple.names n m.
Proof.
  intros Hall. destruct (allLe_totalCols n m signs method Hall) as (Hs & Ha & _).
  rewrite extended_names_spec, simple_names_spec, Hs, Ha.
  destruct (Extended.useArtificials method); by rewrite ?app_nil_r.
Qed.

(** With no negative entry in row 0 the engine stops at once. *)
Lemma row0_zero_optimal n m signs method iterStart it st :
  rowAt (stTableau st) 0 = replicate (Extended.totalCols n m signs method) 0%float ->
  Extended.loopBody n m signs method iterStart it st = IterOptimal.
Proof.
  intros H0.
  apply (engine_optimal_iff (ExtendedEngine n m signs method iterStart it) st).
  intros k x Hk Hx. unfold colValue in Hx. injection Hx as <-.
  unfold cell. rewrite H0. unfold rd. simpl in Hk.
  rewrite lookup_replicate_2 by lia. by vm_compute.
Qed.

Lemma zero_row0_id (t : list (list float)) cols :
  rowAt t 0 = replicate cols 0%float -> 0 < length t ->
  fold_left (fun t j => setCell t 0 j 0%float) (seq 0 cols) t = t.
Proof.
  intros H0 Hl. apply fold_left_id. intros j Hj. apply elem_of_seq in Hj.
  unfold setCell. rewrite H0.
  rewrite (list_insert_id (replicate cols 0%float)) by (apply lookup_replicate_2; lia).
  rewrite <- H0. apply insert_rowAt_id.
Qed.

Lemma phase2Start_allLe type n m c cons signs st :
  allLe m signs ->
  startsFrom n m cons (replicate (n + m + 1) 0%float) st ->
  startsFrom n m cons (Simple.objRow type n m c)
             (Extended.phase2Start type n m c signs Extended.TwoPhase st).
Proof.
  intros Hall (Hs & Hb & Hl & H0 & Hr).
  destruct (allLe_totalCols n m signs Extended.TwoPhase Hall) as (_ & _ & Hcols).
  unfold Extended.phase2Start, Extended.preparePhase2. rewrite Hcols.
  rewrite (zero_row0_id (stTableau st) (n + m + 1) H0) by lia.
  set (t := Extended.writeCosts type n c (stTableau st)).
  assert (Ht0 : rowAt t 0 = Simple.objRow type n m c).
  { unfold t. rewrite (writeCosts_row0 type n c (stTableau st) (n + m + 1)); [|lia|lia|done].
    rewrite simple_objRow_spec. by unfold Simple.totalCols. }
  assert (Hother : forall i, i <> 0 -> rowAt t i = rowAt (stTableau st) i).
  { intros i Hi. unfold t, Extended.writeCosts.
    by rewrite (fold_setCell_row0_other (fun _ j => (- rd (costs type c) j)%float)). }
  assert (Hlen : length t = length (stTableau st)).
  { unfold t, Extended.writeCosts.
    by destruct (fold_setCell_row0_length (fun _ j => (- rd (costs type c) j)%float)
                   (seq 0 n) (stTableau st)) as [-> _]. }
  rewrite fold_left_id.
  - split; [done|]. split; [done|]. cbn [stTableau]. split; [lia|]. split; [done|].
    intros i Hi. destruct (Hr i Hi) as (ci & Hci & Hrow). exists ci. split; [done|].
    by rewrite Hother by lia.
  - intros i Hi. apply elem_of_seq in Hi. rewrite Ht0, Hb. unfold basicAt.
    rewrite list_lookup_fmap, lookup_seq_lt by lia.
    cbn [fmap option_fmap option_map default].
    change (id (Z.of_nat (n + i))) with (Z.of_nat (n + i)).
    rewrite rdZ_of_nat, rd_objRow_slack by lia. done.
Qed.

(** X17: when every relation is [<=], the three methods of the extended
    variant return the same result: bigM adds no column, and phase 1 of the
    two-phase method makes no pivot and hands on the tableau that the method
    standard starts from. *)
Theorem methods_agree_without_artificials type n m c cons signs method :
  allLe m signs ->
  Extended.solveSimplex type n m c cons signs method =
  Extended.solveSimplex type n m c cons signs Extended.Standard.
Proof.
  intros Hall.
  destruct (Nat.le_gt_cases m (length cons)) as [Hle|Hlt];
    [|unfold Extended.solveSimplex; by rewrite !extended_build_none].
  destruct (extended_build_total type n m c cons signs Extended.Standard Hle) as [st0 Hb0].
  destruct (extended_build_total type n m c cons signs method Hle) as [st1 Hb1].
  pose proof (extended_build_startsFrom _ _ _ _ _ _ _ _ Hall Hb0) as H0.
  pose proof (extended_build_startsFrom _ _ _ _ _ _ _ _ Hall Hb1) as H1.
  cbv iota in H0.
  assert (Hcols : Extended.totalCols n m signs method =
                  Extended.totalCols n m signs Extended.Standard).
  { destruct (allLe_totalCols n m signs method Hall) as (_ & _ & ->).
    by destruct (allLe_totalCols n m signs Extended.Standard Hall) as (_ & _ & ->). }
  assert (Hnames : Extended.names n m signs method =
                   Extended.names n m signs Extended.Standard)
    by (by rewrite !allLe_names).
  assert (Hrun : forall st z, Extended.runSimplexLoop n m signs method st z =
                              Extended.runSimplexLoop n m signs Extended.Standard st z).
  { intros st z. unfold Extended.runSimplexLoop. by apply extended_runLoop_cols. }
  assert (Hextract : forall st, Extended.extract type n m signs method st =
                                Extended.extract type n m signs Extended.Standard st).
  { intros st. unfold Extended.extract. by rewrite Hcols, Hnames. }
  unfold Extended.solveSimplex. rewrite Hb0, Hb1. cbn [mbind option_bind]. f_equal.
  assert (Hstd : Extended.coordinate type n m c signs Extended.Standard st0 =
            let r1 := Extended.runSimplexLoop n m signs Extended.Standard st0 0 in
            if (r1.2 =? -1)%Z
            then abortResult Unbounded (Extended.names n m signs Extended.Standard) r1.1
            else Extended.extract type n m signs Extended.Standard r1.1) by done.
  rewrite Hstd. cbv zeta.
  destruct method.
  - by rewrite (startsFrom_ext _ _ _ _ _ _ H1 H0).
  - rewrite (startsFrom_ext _ _ _ _ _ _ H1 H0). unfold Extended.coordinate.
    by rewrite Hrun, Hnames, Hextract.
  - cbv iota in H1.
    assert (Hrow0 : rowAt (stTableau st1) 0 =
                    replicate (Extended.totalCols n m signs Extended.TwoPhase) 0%float).
    { destruct H1 as (_ & _ & _ & -> & _).
      by destruct (allLe_totalCols n m signs Extended.TwoPhase Hall) as (_ & _ & ->). }
    assert (Hrun1 : Extended.runSimplexLoop n m signs Extended.TwoPhase st1 0 = (st1, 0%Z)).
    { unfold Extended.runSimplexLoop.
      apply (extended_runLoop_optimal n m signs Extended.TwoPhase 0
               Extended.maxIterations 0 st1).
      by apply row0_zero_optimal. }
    assert (Hfeas : Extended.phase1Infeasible n m signs Extended.TwoPhase st1 = false).
    { unfold Extended.phase1Infeasible, cell. rewrite Hrow0. unfold rd.
      rewrite lookup_replicate_2 by (pose proof (totalCols_ge n m signs Extended.TwoPhase); lia).
      by vm_compute. }
    assert (Hstart : Extended.phase2Start type n m c signs Extended.TwoPhase st1 = st0).
    { apply (startsFrom_ext n m cons (Simple.objRow type n m c)); [|done].
      by apply phase2Start_allLe. }
    unfold Extended.coordinate. rewrite Hrun1. cbn [fst snd].
    rewrite Hfeas, Hstart. by rewrite Hrun, Hnames, Hextract.
Qed.

Lemma methods_agree_without_artificials_witness :
  Extended.solveSimplex Max 2 3 exampleObjective exampleConstraints exampleSigns
                        Extended.TwoPhase =
  Extended.solveSimplex Max 2 3 exampleObjective exampleConstraints exampleSigns
                        Extended.Standard.
Proof.
  apply (methods_agree_without_artificials Max 2 3 exampleObjective exampleConstraints
           exampleSigns Extended.TwoPhase).
  intros i Hi. destruct i as [|[|[|i]]]; [done..|lia].
Defined.

(** ** Solves without pivots *)

Lemma rd_objRow_cost type n m c j :
  j < n -> rd (Simple.objRow type n m c) j = (- rd (costs type c) j)%float.
Proof.
  intros Hj. rewrite simple_objRow_spec. unfold rd.
  rewrite lookup_app_l by (rewrite length_map, length_seq; lia).
  by rewrite list_lookup_fmap, lookup_seq_lt.
Qed.

Lemma solution_all_zero n cols t basic sol :
  readsBasicRows n cols t basic sol ->
  (forall b, b ∈ basic -> (Z.of_nat n <= b)%Z) ->
  sol = replicate n 0%float.
Proof.
  intros [Hl Hsol] Hb.
  apply (list_eq_same_length _ _ n); [by rewrite length_replicate|done|].
  intros j x y Hj Hx Hy. apply lookup_replicate in Hy as [-> _].
  destruct (Hsol j Hj) as [_ H0]. unfold rd in H0. rewrite Hx in H0. apply H0.
  intros Hin. specialize (Hb _ Hin). lia.
Qed.

(** When the first iteration finds no entering column, the result is
    extracted from the state as built. *)
Lemma simple_stops_at_once type n m c cons st0 :
  Simple.build type n m c cons = Some st0 ->
  Simple.loopBody n m st0 = IterOptimal ->
  Simple.solveSimplex type n m c cons =
    Some (optimalResult type n m (Simple.totalCols n m) (Simple.names n m) st0).
Proof.
  intros Hb Hopt. unfold Simple.solveSimplex. rewrite Hb. cbn [mbind option_bind].
  by rewrite (simple_loop_optimal n m _ st0 Hopt).
Qed.

(** What is extracted from the state as built: every decision variable is
    nonbasic, and the right-hand side of row 0 is [0]. *)
Lemma simple_start_extract type n m c cons st0 :
  Simple.build type n m c cons = Some st0 ->
  optimalResult type n m (Simple.totalCols n m) (Simple.names n m) st0 =
  mkResult [] (stTableau st0) (replicate n 0%float)
           (match type with Min => (- 0)%float | Max => 0%float end)
           Optimal (Simple.names n m) (map Z.of_nat (seq n m)).
Proof.
  intros Hb.
  destruct (simple_build_startsFrom _ _ _ _ _ _ Hb) as (Hs & Hbv & Hl & H0 & Hr).
  unfold optimalResult. rewrite Hs, Hbv. f_equal.
  - apply (solution_all_zero n (Simple.totalCols n m) (stTableau st0)
             (map Z.of_nat (seq n m))).
    + apply extractSolution_spec; [by rewrite length_map, length_seq|].
      destruct (simple_build_basisInv _ _ _ _ _ _ Hb) as (_ & (_ & _ & Hnd) & _).
      by rewrite Hbv in Hnd.
    + intros b Hin. apply list_elem_of_fmap in Hin as (k & -> & Hk).
      apply elem_of_seq in Hk. lia.
  - unfold extractValue, cell. rewrite H0.
    rewrite rd_objRow_slack by (unfold Simple.totalCols; lia). done.
Qed.

(** X18: when no objective coefficient (negated for [min]) is positive,
    the simple variant makes no pivot: the result is Optimal with no step,
    the tableau and the slack basis as built, the solution all zeros and the
    optimal value [0] ([-0] for [min]).  A problem without decision
    variables is a case of it. *)
Theorem no_pivot_without_negative_cost type n m c cons :
  m <= length cons ->
  (forall j, j < n -> (- rd (costs type c) j <? 0)%float = false) ->
  exists st0,
    Simple.build type n m c cons = Some st0 /\
    Simple.solveSimplex type n m c cons =
      Some (mkResult [] (stTableau st0) (replicate n 0%float)
                     (match type with Min => (- 0)%float | Max => 0%float end)
                     Optimal (Simple.names n m) (map Z.of_nat (seq n m))).
Proof.
  intros Hm Hc.
  destruct (simple_build_total type n m c cons Hm) as [st0 Hb].
  exists st0. split; [done|].
  rewrite <- (simple_start_extract type n m c cons st0 Hb).
  apply simple_stops_at_once; [done|].
  apply (engine_optimal_iff (SimpleEngine n m) st0).
  intros k x Hk Hx. unfold colValue in Hx. injection Hx as <-.
  destruct (simple_build_startsFrom _ _ _ _ _ _ Hb) as (_ & _ & _ & H0 & _).
  unfold cell. rewrite H0. simpl in Hk. unfold Simple.totalCols in Hk.
  destruct (decide (k < n)) as [Hlt|Hge].
  - rewrite rd_objRow_cost by done. by apply Hc.
  - rewrite rd_objRow_slack by lia. by vm_compute.
Qed.

Lemma no_pivot_without_negative_cost_witness :
  exists st0,
    Simple.build Min 2 3 exampleObjective exampleConstraints = Some st0 /\
    Simple.solveSimplex Min 2 3 exampleObjective exampleConstraints =
      Some (mkResult [] (stTableau st0) (replicate 2 0%float) (- 0)%float
                     Optimal (Simple.names 2 3) (map Z.of_nat (seq 2 3))).
Proof.
  apply (no_pivot_without_negative_cost Min 2 3 exampleObjective exampleConstraints).
  - simpl. lia.
  - intros j Hj. destruct j as [|[|j]]; [by vm_compute..|lia].
Defined.

(** X19: with no constraint the simple variant makes no pivot and returns
    the objective row alone as final tableau; the status is Unbounded when
    some objective coefficient (negated for [min]) is positive, and Optimal
    when none is. *)
Theorem without_constraints type n c cons :
  exists r,
    Simple.solveSimplex type n 0 c cons = Some r /\
    steps r = [] /\ finalTableau r = [Simple.objRow type n 0 c] /\
    (status r = Unbounded <->
     exists j, j < n /\ (- rd (costs type c) j <? 0)%float = true) /\
    (status r = Optimal <->
     forall j, j < n -> (- rd (costs type c) j <? 0)%float = false).
Proof.
  set (st0 := mkState [Simple.objRow type n 0 c] [] []).
  assert (Hb : Simple.build type n 0 c cons = Some st0) by done.
  assert (Hcell : forall j, j < n ->
            cell (stTableau st0) 0 j = (- rd (costs type c) j)%float).
  { intros j Hj. unfold cell. by apply rd_objRow_cost. }
  unfold Simple.solveSimplex. rewrite Hb. cbn [mbind option_bind].
  destruct (engine_cases (SimpleEngine n 0) st0)
    as [[Hopt Hnone] | (j & Hj & [[Hunb _] | (i & st' & Hi & _)])].
  - cbn [engineBody enterBound engineCols] in Hopt, Hnone.
    rewrite (simple_loop_optimal n 0 _ st0 Hopt).
    eexists. split; [done|]. unfold Simple.finish. cbn [fst snd].
    split; [done|]. split; [done|]. cbn [status optimalResult]. split.
    + split; [done|]. intros (j & Hj & Hlt).
      rewrite (Hnone j (- rd (costs type c) j)%float) in Hlt; [done| |].
      * simpl. unfold Simple.totalCols. lia.
      * unfold colValue. by rewrite Hcell.
    + split; [|done]. intros _ j Hj.
      apply (Hnone j); [simpl; unfold Simple.totalCols; lia|].
      unfold colValue. by rewrite Hcell.
  - cbn [engineBody enterBound engineCols] in Hunb, Hj.
    rewrite (simple_loop_unbounded n 0 Simple.maxIterations 0 0 st0 st0 eq_refl
               ltac:(rewrite simple_cap; lia) Hunb).
    eexists. split; [done|]. unfold Simple.finish. cbn [fst snd].
    split; [done|]. split; [done|]. cbn [status abortResult].
    destruct Hj as (Hjr & v & Hv & Hlt & _). simpl in Hjr. unfold Simple.totalCols in Hjr.
    unfold colValue in Hv. injection Hv as <-. rewrite Hcell in Hlt by lia. split.
    + split; [|done]. intros _. exists j. split; [lia|done].
    + split; [done|]. intros Hall. rewrite Hall in Hlt by lia. done.
  - apply firstLeast_range in Hi. simpl in Hi. lia.
Qed.

(** ** An unknown relation under the Big-M method *)

Module FloatNaN.

Lemma isNaN_spec x :
  isNaN x = match Prim2SF x with S754_nan => true | _ => false end.
Proof.
  unfold isNaN. rewrite FloatAxioms.eqb_spec.
  destruct (Prim2SF x) as [[]|[]| |s m e]; try done.
  by rewrite FloatExact.SFeqb_refl_finite.
Qed.

Lemma nan_is_nan : isNaN nan = true.
Proof. by vm_compute. Qed.

Lemma nan_sub x y : isNaN x = true -> isNaN (x - y) = true.
Proof.
  rewrite !isNaN_spec, sub_spec. unfold SF64sub, SFsub.
  destruct (Prim2SF x) as [[]|[]| |s m e]; try done; by destruct (Prim2SF y).
Qed.

Lemma sub_mul_nan x c y : isNaN c = true -> isNaN (x - c * y) = true.
Proof.
  rewrite !isNaN_spec, sub_spec, mul_spec. unfold SF64sub, SFsub, SF64mul, SFmul.
  destruct (Prim2SF c) as [[]|[]| |s m e]; try done.
  intros _. destruct (Prim2SF y); by destruct (Prim2SF x) as [[]|[]| |[] mx ex].
Qed.

Lemma nan_not_below x b : isNaN x = true -> (x <? b)%float = false.
Proof.
  rewrite isNaN_spec, ltb_spec. by destruct (Prim2SF x) as [[]|[]| |s m e].
Qed.

Lemma nan_not_zero x : isNaN x = true -> negb (x =? 0)%float = true.
Proof.
  rewrite isNaN_spec, FloatAxioms.eqb_spec. by destruct (Prim2SF x) as [[]|[]| |s m e].
Qed.

Lemma nan_opp x : isNaN x = true -> isNaN (- x) = true.
Proof.
  rewrite !isNaN_spec, opp_spec. by destruct (Prim2SF x) as [[]|[]| |s m e].
Qed.

End FloatNaN.

(** Once a row without basic variable is met, the loop that removes the
    basic variables from row 0 leaves NaN in the whole of row 0. *)
Lemma canonicalize_poisoned m cols basic t i :
  shaped (m + 1) cols t -> i < m -> basicAt basic i = (-1)%Z ->
  let t' := canonicalizeObjective (fun x => negb (x =? 0)%float) m cols basic t in
  shaped (m + 1) cols t' /\
  (forall r, r <> 0 -> rowAt t' r = rowAt t r) /\
  forall j, j < cols -> isNaN (cell t' 0 j) = true.
Proof.
  intros Hshape Hi Hbi. cbv zeta. unfold canonicalizeObjective.
  assert (G : forall k, k <= m ->
    let t' := fold_left (fun t i =>
               let coeff := rdZ (rowAt t 0) (basicAt basic i) in
               if negb (coeff =? 0)%float
               then fold_left (fun t j => setCell t 0 j
                                            (cell t 0 j - coeff * cell t (i + 1) j)%float)
                              (seq 0 cols) t
               else t) (seq 0 k) t in
    shaped (m + 1) cols t' /\
    (forall r, r <> 0 -> rowAt t' r = rowAt t r) /\
    (i < k -> forall j, j < cols -> isNaN (cell t' 0 j) = true)).
  { induction k as [|k IH]; intros Hk; cbv zeta.
    - simpl. split; [done|]. split; [done|]. lia.
    - destruct IH as (Hs1 & Hsame & Hdone); [lia|].
      rewrite seq_S, fold_left_app. simpl.
      set (t1 := fold_left _ (seq 0 k) t) in *.
      set (coeff := rdZ (rowAt t1 0) (basicAt basic k)).
      pose proof Hs1 as [Hl1 Hr1].
      destruct (fold_row_update
                  (fun t j => (cell t 0 j - coeff * cell t (k + 1) j)%float)
                  (fun j x => (x - coeff * cell t1 (k + 1) j)%float) t1 0 0 cols)
        as (Hl2 & Hrl2 & Hother2 & Hcell2); [lia|rewrite Hr1; lia| |].
      { intros t' j Ht'. by rewrite (cell_other_row t1 t' (k + 1) j) by (apply Ht'; lia). }
      destruct (negb (coeff =? 0)%float) eqn:Hc.
      + split; [by eapply shaped_of_lengths|].
        split; [intros r Hr; rewrite Hother2 by done; by apply Hsame|].
        intros Hik j Hj. rewrite Hcell2. destruct (decide (0 <= j < 0 + cols)); [|lia].
        destruct (decide (k = i)) as [->|Hne].
        * apply FloatNaN.sub_mul_nan. unfold coeff. rewrite Hbi. apply FloatNaN.nan_is_nan.
        * apply FloatNaN.nan_sub. apply Hdone; [lia|done].
      + split; [done|]. split; [done|]. intros Hik j Hj.
        destruct (decide (k = i)) as [->|Hne]; [|apply Hdone; [lia|done]].
        unfold coeff in Hc. rewrite Hbi in Hc. done. }
  destruct (G m) as (H1 & H2 & H3); [done|].
  split; [done|]. split; [done|]. by apply H3.
Qed.

(** X20: with method bigM, a constraint whose relation is none of [<=],
    [>=], [=] (or is missing) gets no basic variable, and the loop that
    removes the basic variables from row 0 then reads [tableau[0][-1]] and
    leaves NaN in the whole of row 0: the solve makes no pivot and returns
    status Optimal with optimal value NaN. *)
Theorem unknown_relation_poisons_bigM type n m c cons signs i :
  m <= length cons -> i < m -> unknownSign signs i = true ->
  exists r,
    Extended.solveSimplex type n m c cons signs Extended.BigM = Some r /\
    status r = Optimal /\ steps r = [] /\
    finalBasicVars r !! i = Some (-1)%Z /\
    (forall j, j < Extended.totalCols n m signs Extended.BigM ->
       isNaN (cell (finalTableau r) 0 j) = true) /\
    isNaN (optimalValue r) = true.
Proof.
  intros Hm Hi Hunk.
  destruct (fillConstraints_spec n m cons signs Extended.BigM Hm) as (fs & Hfs & Hinv).
  set (cols := Extended.totalCols n m signs Extended.BigM).
  destruct Hinv as (Hlt & Hlb & _ & _ & Hrow0 & Hdone & _). fold cols in Hrow0.
  set (tf := Extended.fTableau fs) in *. set (basic := Extended.fBasic fs) in *.
  assert (Hbi : basic !! i = Some (-1)%Z).
  { destruct (Hdone i Hi) as (ci & _ & _ & ->). f_equal. unfold filledBasic.
    unfold unknownSign in Hunk. apply negb_true_iff in Hunk.
    apply orb_false_iff in Hunk as [Hunk H3]. apply orb_false_iff in Hunk as [H1 H2].
    by rewrite H1, H2, H3. }
  assert (Hshape : shaped (m + 1) cols tf).
  { split; [done|]. intros k Hk. destruct k as [|k].
    - by rewrite Hrow0, length_replicate.
    - replace (S k) with (k + 1) by lia.
      destruct (Hdone k) as (ci & _ & -> & _); [lia|]. apply length_filledRow. }
  set (t := Extended.initObjective type n m c signs Extended.BigM tf).
  assert (Hshape0 : shaped (m + 1) cols t) by (by apply initObjective_shaped).
  destruct (canonicalize_poisoned m cols basic t i Hshape0 Hi)
    as (Hs' & _ & Hnan); [unfold basicAt; by rewrite Hbi|].
  set (st0 := mkState (Extended.eliminateBasic n m signs Extended.BigM basic t) basic []).
  assert (Hb : Extended.build type n m c cons signs Extended.BigM = Some st0).
  { unfold Extended.build. by rewrite Hfs. }
  assert (Hopt : Extended.loopBody n m signs Extended.BigM 0 0 st0 = IterOptimal).
  { apply (engine_optimal_iff (ExtendedEngine n m signs Extended.BigM 0 0) st0).
    intros k x Hk Hx. unfold colValue in Hx. injection Hx as <-.
    apply FloatNaN.nan_not_below. apply Hnan.
    cbn [engineCols] in Hk. fold cols in Hk. lia. }
  assert (Hrun : Extended.runSimplexLoop n m signs Extended.BigM st0 0 = (st0, 0%Z)).
  { unfold Extended.runSimplexLoop.
    by apply (extended_runLoop_optimal n m signs Extended.BigM 0 Extended.maxIterations 0). }
  eexists. split.
  { unfold Extended.solveSimplex. rewrite Hb. cbn [mbind option_bind].
    unfold Extended.coordinate. rewrite Hrun. cbn [fst snd].
    change (0 =? -1)%Z with false. cbv iota. reflexivity. }
  unfold Extended.extract, optimalResult. cbn [status steps finalBasicVars finalTableau
    optimalValue stSteps stBasic stTableau st0].
  split; [done|]. split; [done|]. split; [done|]. split; [exact Hnan|].
  unfold extractValue.
  pose proof (totalCols_ge n m signs Extended.BigM) as Hc. fold cols in Hc.
  destruct type; [|apply FloatNaN.nan_opp]; apply Hnan; lia.
Qed.

Lemma unknown_relation_poisons_bigM_witness :
  exists r,
    Extended.solveSimplex Max 2 3 exampleObjective exampleConstraints
                          ["<="; "=<"; "<="]%string Extended.BigM = Some r /\
    status r = Optimal /\ steps r = [] /\
    finalBasicVars r !! 1 = Some (-1)%Z /\
    (forall j, j < Extended.totalCols 2 3 ["<="; "=<"; "<="]%string Extended.BigM ->
       isNaN (cell (finalTableau r) 0 j) = true) /\
    isNaN (optimalValue r) = true.
Proof.
  apply (unknown_relation_poisons_bigM Max 2 3 exampleObjective exampleConstraints
           ["<="; "=<"; "<="]%string 1); [simpl; lia|lia|by vm_compute].
Defined.

(** ** The page *)








Lemma sample_page_is_documented_example :
  Page.handleSolve sampleParse Max 2 3
    (fold_left Page.applyEdit sampleEdits (Page.handleConfigSubmit 2 3))
  = Simple.solveSimplex Max 2 3 exampleObjective exampleConstraints.
Proof. by vm_compute. Qed.




(** ** The bases the extended variant records *)

Lemma recordsBasisAfter_snoc b0 ss b s :
  recordsBasisAfter b0 ss b ->
  basicVars s = <[Z.to_nat (pivotRow s - 1) := pivotCol s]> b ->
  recordsBasisAfter b0 (ss ++ [s]) (basicVars s).
Proof.
  revert b0. induction ss as [|s0 ss IH]; intros b0; simpl.
  - intros -> Hs. done.
  - intros [H0 H] Hs. split; [done|]. by apply IH.
Qed.

Lemma extended_pivot_basis_after n m signs method iterStart it b0 st st' :
  recordsBasisAfter b0 (stSteps st) (stBasic st) ->
  Extended.loopBody n m signs method iterStart it st = IterPivot st' ->
  recordsBasisAfter b0 (stSteps st') (stBasic st').
Proof.
  intros H E.
  destruct (extended_step_snapshot n m signs method iterStart it st st' E)
    as (s & Hs & _ & Hb & Hb').
  rewrite Hs, <- Hb. apply (recordsBasisAfter_snoc b0 (stSteps st) (stBasic st)); [done|].
  by rewrite Hb.
Qed.

(** X22: in the extended variant the recorded bases are the bases after
    the pivots: the first step records the basis as built with the pivot
    row's entry overwritten by the pivot column, each next step does the same
    to the basis recorded before it, and the final basis is the last one
    recorded (with the two-phase method, over the steps of both phases). *)
Theorem extended_steps_record_basis_after type n m c cons signs method r :
  Extended.solveSimplex type n m c cons signs method = Some r ->
  exists st0,
    Extended.build type n m c cons signs method = Some st0 /\
    recordsBasisAfter (stBasic st0) (steps r) (finalBasicVars r).
Proof.
  intros Hr.
  destruct (Extended.build type n m c cons signs method) as [st0|] eqn:Hb;
    [|by unfold Extended.solveSimplex in Hr; rewrite Hb in Hr].
  exists st0. split; [done|].
  apply (extended_result_inv
           (fun st => recordsBasisAfter (stBasic st0) (stSteps st) (stBasic st))
           type n m c cons signs method st0 r Hb Hr).
  - intros iterStart it. apply extended_pivot_basis_after.
  - intros st _. done.
  - rewrite (extended_build_steps _ _ _ _ _ _ _ _ Hb). done.
Qed.

Lemma extended_steps_record_basis_after_witness :
  exists st0,
    Extended.build Max 2 2 mixedObjective mixedConstraints mixedSigns Extended.TwoPhase
      = Some st0 /\
    recordsBasisAfter (stBasic st0) (steps mixedResult) (finalBasicVars mixedResult).
Proof.
  apply (extended_steps_record_basis_after Max 2 2 mixedObjective mixedConstraints
           mixedSigns Extended.TwoPhase mixedResult). by vm_compute.
Defined.
